(** * Attachment widget of the building-management UI

    A shallow embedding of [static/js/attachments.js]: the lightbox
    zoom-and-pan state machine, the gallery with its empty-state
    placeholder, the upload queue with its removal timers, the click
    dispatch of preview triggers and the decoration of delete links.

    Conventions of the embedding.
    - A JavaScript number is a rational ([Q]); the values the widget
      computes with (scale factors, pixel offsets, byte counts) are far
      from the range where binary64 overflows.  The quotient and the
      product of a pinch update and of a progress percentage, where the
      last bit decides a digit of the result, are rounded to the nearest
      binary64 value, ties to the even significand, as the machine rounds
      them: [round64], [div64], [mul64].  The scale is kept as the
      hundredth [toFixed(2)] prints, and the script holds the binary64
      value nearest to it.  The other operations, sums and differences of
      hundredths, of quarters and of pixel coordinates and the nudge of a
      wheel tick, are taken exactly.  [Number.prototype.toFixed(2)]
      followed by [parseFloat] is rounding to the nearest hundredth, ties
      upwards.  A quotient whose divisor is zero has no rational value:
      [div64] returns [None] there.
    - A [dataset] entry is an [option string]: [None] when the attribute is
      absent.  A string is falsy exactly when it is empty.
    - DOM nodes are modelled by the fields the script reads and writes;
      [updateTransform], which only copies the view state into a style
      string and a class, is left out. *)

From Stdlib Require Import ZArith QArith Qround Qminmax Qpower Lqa Lia.
From Stdlib Require Import List Bool String Ascii.
Import ListNotations.

(** ** JavaScript values shared by the handlers *)

Module JS.

Definition truthy (s : string) : bool :=
  match s with EmptyString => false | _ => true end.

(** [dataset.x] read in a boolean context. *)
Definition truthy_opt (o : option string) : bool :=
  match o with Some s => truthy s | None => false end.

(** [a || b] on strings. *)
Definition or_else (o : option string) (d : string) : string :=
  match o with
  | Some s => if truthy s then s else d
  | None => d
  end.

(** [String.prototype.includes]. *)
Fixpoint includes (s sub : string) : bool :=
  prefix sub s ||
  match s with
  | EmptyString => false
  | String _ rest => includes rest sub
  end.

(** [Array.prototype.join] on an array of strings. *)
Definition join (sep : string) (l : list string) : string :=
  String.concat sep l.

Definition Qltb (x y : Q) : bool :=
  (Qnum x * QDen y <? Qnum y * QDen x)%Z.

(** *** Binary64 arithmetic

    A binary64 value is an integer multiple of its unit in the last place,
    the power of two 52 places below its leading bit (for a subnormal
    value, below 2^-1022), and the result of an operation is the value
    nearest to the exact result. *)

(** The nearest integer, ties to the even one. *)
Definition round_half_even (x : Q) : Z :=
  let f := Qfloor x in
  match Qcompare (x - inject_Z f) (1 # 2) with
  | Lt => f
  | Eq => if Z.even f then f else (f + 1)%Z
  | Gt => (f + 1)%Z
  end.

(** The exponent of the leading bit of a positive number: the [e] with
    [2^e <= x < 2^(e+1)]. *)
Definition floor_log2 (x : Q) : Z :=
  let e := (Z.log2 (Qnum x) - Z.log2 (QDen x))%Z in
  if Qle_bool (2 ^ e) x then e else (e - 1)%Z.

(** The unit in the last place of the binade of a positive number. *)
Definition ulp (x : Q) : Q := 2 ^ (Z.max (floor_log2 x) (-1022) - 52).

Definition round64_pos (x : Q) : Q :=
  inject_Z (round_half_even (x / ulp x)) * ulp x.

(** The binary64 value nearest to [x]. *)
Definition round64 (x : Q) : Q :=
  let y := Qred x in
  match Qnum y with
  | Z0 => 0
  | Zpos _ => round64_pos y
  | Zneg _ => - round64_pos (- y)
  end.

(** [a * b] and [a / b] on binary64 values. *)
Definition mul64 (a b : Q) : Q := round64 (a * b).

Definition div64 (a b : Q) : option Q :=
  if Qeq_bool b 0 then None else Some (round64 (a / b)).

(** [parseFloat(x.toFixed(2))]. *)
Definition toFixed2 (x : Q) : Q :=
  Qmake (Qfloor (x * 100 + (1 # 2))) 100.

End JS.

(** ** The lightbox viewer *)

Module Lightbox.
Import JS.

(** The fields of a pointer event the handlers read. *)
Record PointerEvent := {
  pointerId : Z;
  clientX : Q;
  clientY : Q
}.

(** [pointers] is a [Map] from pointer id to the last event of that
    pointer; a [Map] iterates in insertion order and [set] on a key it
    already holds keeps the key's place. *)
Definition PointerMap := list (Z * PointerEvent).

Fixpoint map_has (k : Z) (m : PointerMap) : bool :=
  match m with
  | [] => false
  | (k', _) :: rest => (k =? k')%Z || map_has k rest
  end.

Fixpoint map_set (k : Z) (v : PointerEvent) (m : PointerMap) : PointerMap :=
  match m with
  | [] => [(k, v)]
  | (k', v') :: rest =>
      if (k =? k')%Z then (k, v) :: rest else (k', v') :: map_set k v rest
  end.

Fixpoint map_delete (k : Z) (m : PointerMap) : PointerMap :=
  match m with
  | [] => []
  | (k', v') :: rest =>
      if (k =? k')%Z then rest else (k', v') :: map_delete k rest
  end.

Definition map_values (m : PointerMap) : list PointerEvent := map snd m.

(** [getBoundingClientRect()] of the image. *)
Record DOMRect := {
  rect_left : Q;
  rect_top : Q;
  rect_width : Q;
  rect_height : Q
}.

(** The module-level variables of the viewer.  [overlay] is [None] until
    [ensureOverlay] has built the node and then holds whether the node
    carries the [hidden] attribute. *)
Record View := {
  overlay : option bool;
  scale : Q;
  panX : Q;
  panY : Q;
  pointers : PointerMap;
  isDragging : bool;
  dragStartX : Q;
  dragStartY : Q;
  initialPinchDistance : Q;
  pinchStartScale : Q
}.

Definition SCALE_STEP : Q := 1 # 4.
Definition MIN_SCALE : Q := 1.
Definition MAX_SCALE : Q := 5.

(** The state the script starts in. *)
Definition initial : View := {|
  overlay := None;
  scale := 1; panX := 0; panY := 0;
  pointers := [];
  isDragging := false;
  dragStartX := 0; dragStartY := 0;
  initialPinchDistance := 0;
  pinchStartScale := 1
|}.

Definition set_transform (sc px py : Q) (v : View) : View := {|
  overlay := overlay v;
  scale := sc; panX := px; panY := py;
  pointers := pointers v;
  isDragging := isDragging v;
  dragStartX := dragStartX v; dragStartY := dragStartY v;
  initialPinchDistance := initialPinchDistance v;
  pinchStartScale := pinchStartScale v
|}.

Definition set_overlay (o : option bool) (v : View) : View := {|
  overlay := o;
  scale := scale v; panX := panX v; panY := panY v;
  pointers := pointers v;
  isDragging := isDragging v;
  dragStartX := dragStartX v; dragStartY := dragStartY v;
  initialPinchDistance := initialPinchDistance v;
  pinchStartScale := pinchStartScale v
|}.

Definition set_gesture (ps : PointerMap) (drag : bool) (dx dy ipd pss : Q)
    (v : View) : View := {|
  overlay := overlay v;
  scale := scale v; panX := panX v; panY := panY v;
  pointers := ps;
  isDragging := drag;
  dragStartX := dx; dragStartY := dy;
  initialPinchDistance := ipd;
  pinchStartScale := pss
|}.

Definition set_pointers (ps : PointerMap) (v : View) : View :=
  set_gesture ps (isDragging v) (dragStartX v) (dragStartY v)
    (initialPinchDistance v) (pinchStartScale v) v.

Definition clamp (next : Q) : Q := Qmin MAX_SCALE (Qmax MIN_SCALE next).

Definition setScale (next : Q) (keepPan : bool) (v : View) : View :=
  let clamped := clamp next in
  let sc := toFixed2 clamped in
  if negb keepPan && Qeq_bool sc MIN_SCALE
  then set_transform sc 0 0 v
  else set_transform sc (panX v) (panY v) v.

Definition stepZoom (delta : Q) (v : View) : View :=
  setScale (scale v + delta) false v.

Definition resetTransform (v : View) : View := set_transform 1 0 0 v.

Definition onWheel (deltaY cX cY : Q) (rect : DOMRect) (v : View) : View :=
  let direction : Q := if Qltb deltaY 0 then 1 else -1 in
  let prevScale := scale v in
  let v1 := stepZoom (direction * SCALE_STEP) v in
  if Qltb prevScale (scale v1) then
    let offsetX := cX - (rect_left rect + rect_width rect / 2) in
    let offsetY := cY - (rect_top rect + rect_height rect / 2) in
    set_transform (scale v1)
      (panX v1 + offsetX * (5 # 100)) (panY v1 + offsetY * (5 # 100)) v1
  else v1.

(** [openOverlay(trigger)], as far as the view state goes: the image
    source, the title and the focus it moves are not part of it. *)
Definition openOverlay (src : option string) (v : View) : View :=
  if truthy_opt src then set_overlay (Some false) (resetTransform v) else v.

Definition closeOverlay (v : View) : View :=
  match overlay v with
  | None => v
  | Some _ =>
      set_gesture [] false (dragStartX v) (dragStartY v) 0 1
        (set_overlay (Some true) v)
  end.

Definition onPointerUp (e : PointerEvent) (v : View) : View :=
  let ps := map_delete (pointerId e) (pointers v) in
  let '(ipd, pss) :=
    if (List.length ps <? 2)%nat then (0, scale v)
    else (initialPinchDistance v, pinchStartScale v) in
  let drag := if (List.length ps =? 0)%nat then false else isDragging v in
  set_gesture ps drag (dragStartX v) (dragStartY v) ipd pss v.

(** The [data-action] of a click target inside the overlay. *)
Inductive Action := close | zoom_in | zoom_out | reset | open | no_action.

Definition onOverlayClick (a : Action) (v : View) : View :=
  match a with
  | close => closeOverlay v
  | zoom_in => stepZoom SCALE_STEP v
  | zoom_out => stepZoom (- SCALE_STEP) v
  | reset => resetTransform v
  | _ => v
  end.

(** [event.key], by the cases of the switch. *)
Inductive Key :=
  Escape | Plus | Equals | Minus | Underscore | Zero | OtherKey.

Definition onKeyDown (k : Key) (v : View) : View :=
  match overlay v with
  | None | Some true => v
  | Some false =>
      match k with
      | Escape => closeOverlay v
      | Plus | Equals => stepZoom SCALE_STEP v
      | Minus | Underscore => stepZoom (- SCALE_STEP) v
      | Zero => resetTransform v
      | OtherKey => v
      end
  end.

Section WithHypot.

(** [Math.hypot], a function of the host. *)
Variable hypot : Q -> Q -> Q.

Definition distanceBetween (a b : PointerEvent) : Q :=
  hypot (clientX a - clientX b) (clientY a - clientY b).

Definition onPointerDown (e : PointerEvent) (v : View) : View :=
  let ps := map_set (pointerId e) e (pointers v) in
  if (List.length ps =? 1)%nat then
    set_gesture ps (Qltb 1 (scale v))
      (clientX e - panX v) (clientY e - panY v)
      (initialPinchDistance v) (pinchStartScale v) v
  else
    match map_values ps with
    | [a; b] =>
        set_gesture ps (isDragging v) (dragStartX v) (dragStartY v)
          (distanceBetween a b) (scale v) v
    | _ => set_pointers ps v
    end.

(** The one handler that divides by a value it has computed: the result
    is [None] when the divisor is zero.  The pinch branch evaluates
    [pinchStartScale * (currentDistance / initialPinchDistance)] on
    binary64 values: the quotient is rounded, then the product. *)
Definition onPointerMove (e : PointerEvent) (v : View) : option View :=
  if negb (map_has (pointerId e) (pointers v)) then Some v
  else
    let ps := map_set (pointerId e) e (pointers v) in
    let v1 := set_pointers ps v in
    match map_values ps with
    | [pointer] =>
        if isDragging v1 then
          Some (set_transform (scale v1)
                  (clientX pointer - dragStartX v1)
                  (clientY pointer - dragStartY v1) v1)
        else Some v1
    | [a; b] =>
        let currentDistance := distanceBetween a b in
        if Qltb 0 (initialPinchDistance v1) then
          match div64 currentDistance (initialPinchDistance v1) with
          | Some ratio =>
              Some (setScale (mul64 (round64 (pinchStartScale v1)) ratio) true v1)
          | None => None
          end
        else Some v1
    | _ => Some v1
    end.

(** What can happen to the viewer: a card's viewer trigger is clicked,
    or one of the listeners [ensureOverlay] installs fires.  The wheel and
    pointer listeners sit on the image [ensureOverlay] has built, so
    [overlayImage] is set whenever they run and their [!overlayImage]
    exits are never taken. *)
Inductive Event :=
| ViewerClick (src : option string)
| OverlayClick (a : Action)
| KeyDown (k : Key)
| Wheel (deltaY cX cY : Q) (rect : DOMRect)
| PointerDown (e : PointerEvent)
| PointerMove (e : PointerEvent)
| PointerUp (e : PointerEvent).

Definition step (v : View) (ev : Event) : option View :=
  match ev with
  | ViewerClick src => Some (openOverlay src v)
  | OverlayClick a => Some (onOverlayClick a v)
  | KeyDown k => Some (onKeyDown k v)
  | Wheel dy cx cy rect => Some (onWheel dy cx cy rect v)
  | PointerDown e => Some (onPointerDown e v)
  | PointerMove e => onPointerMove e v
  | PointerUp e => Some (onPointerUp e v)
  end.

Fixpoint run (evs : list Event) (v : View) : option View :=
  match evs with
  | [] => Some v
  | ev :: rest =>
      match step v ev with
      | Some v' => run rest v'
      | None => None
      end
  end.

End WithHypot.

(** An executable stand-in for [Math.hypot], to run the model on concrete
    gestures: the square root is taken on a grid of step 2^-26, so it is
    exact on the Pythagorean inputs of the examples.  The properties below
    hold for every [hypot]. *)
Definition hypot_dyadic (dx dy : Q) : Q :=
  Qmake (Z.sqrt (Qfloor ((dx * dx + dy * dy) * inject_Z (2 ^ 52)))) (2 ^ 26).

(** What every reachable view satisfies. *)
Definition in_range (v : View) : Prop := 1 <= scale v <= 5.
Definition on_grid (v : View) : Prop := exists k : Z, scale v == k # 100.
Definition Inv (v : View) : Prop := in_range v /\ on_grid v.

(** Concrete gestures for the examples. *)
Definition square_rect : DOMRect :=
  {| rect_left := 0; rect_top := 0; rect_width := 100; rect_height := 100 |}.

Definition finger (i : Z) (x y : Q) : PointerEvent :=
  {| pointerId := i; clientX := x; clientY := y |}.

Definition opened_and_zoomed : list Event :=
  [ViewerClick (Some "/media/a.png"%string);
   OverlayClick zoom_in; OverlayClick zoom_in;
   OverlayClick zoom_in; OverlayClick zoom_in].

Definition one_finger_down : View :=
  onPointerDown hypot_dyadic (finger 1 40 60)
    (openOverlay (Some "/media/a.png"%string) initial).

End Lightbox.

(** ** The attachment gallery *)

Module Gallery.
Import JS.

(** An entry of the [attachments] array of an upload response, by the
    fields [renderAttachment] reads; [meta_id] is [String(meta.id)]. *)
Record Meta := {
  meta_id : string;
  meta_name : option string;
  meta_url : option string;
  meta_is_image : bool;
  meta_content_type : option string
}.

(** What [forEach] hands to [addAttachmentFromMeta]: an object, or a value
    [renderAttachment] turns down ([!meta || typeof meta !== "object"]). *)
Inductive Entry :=
| Object (m : Meta)
| NotObject.

(** A rendered [li.attachments-grid__item], by its [data-attachment-id]
    and the parts that follow the entry's name, url and type: the title,
    whether the card carries the viewer triggers, the download link and
    the type badge.  The placeholder text, the timestamp and the delete
    link (its [href] is the subject of [DeleteUrl]) are left out. *)
Record Card := {
  attachmentId : string;
  card_title : string;
  card_viewer : bool;
  card_download : option string;
  card_type : option string
}.

Definition renderAttachment (meta : Entry) : option Card :=
  match meta with
  | NotObject => None
  | Object m =>
      Some {| attachmentId := meta_id m;
              card_title := or_else (meta_name m) "Attachment";
              card_viewer := meta_is_image m && truthy_opt (meta_url m);
              card_download := if truthy_opt (meta_url m) then meta_url m else None;
              card_type := if truthy_opt (meta_content_type m)
                           then meta_content_type m else None |}
  end.

(** The [data-attachments-empty] node. *)
Record EmptyState := {
  hidden : bool;
  textContent : string
}.

(** The two nodes the script looks up under the wrapper; either may be
    missing from the page.  The children of the list are its cards. *)
Record Dom := {
  attachmentsList : option (list Card);
  emptyState : option EmptyState
}.

(** [querySelector('[data-attachment-id="..."]')] followed by [remove()]:
    the first card with the id leaves the list. *)
Fixpoint remove_first (i : string) (cards : list Card) : list Card :=
  match cards with
  | [] => []
  | c :: rest =>
      if String.eqb (attachmentId c) i then rest else c :: remove_first i rest
  end.

Definition has_id (i : string) (cards : list Card) : bool :=
  existsb (fun c => String.eqb (attachmentId c) i) cards.

Section WithLabels.

Variable fallbackEmptyLabel : string.

Definition updateEmptyState (d : Dom) : Dom :=
  match attachmentsList d, emptyState d with
  | Some cards, Some _ =>
      let hasItems := match cards with [] => false | _ :: _ => true end in
      {| attachmentsList := Some cards;
         emptyState := Some {| hidden := hasItems;
                               textContent := fallbackEmptyLabel |} |}
  | _, _ => d
  end.

Definition addAttachmentFromMeta (meta : Entry) (d : Dom) : Dom :=
  match attachmentsList d with
  | None => d
  | Some cards =>
      match renderAttachment meta with
      | None => d
      | Some element =>
          let cards1 := remove_first (attachmentId element) cards in
          let cards2 :=
            match cards1 with
            | first :: _ => element :: cards1
            | [] => cards1 ++ [element]
            end in
          updateEmptyState
            {| attachmentsList := Some cards2; emptyState := emptyState d |}
      end
  end.

End WithLabels.

(** The two sides of the empty-state rule. *)
Definition card_rendered (d : Dom) : bool :=
  match attachmentsList d with
  | Some (_ :: _) => true
  | _ => false
  end.

Definition empty_state_visible (d : Dom) : bool :=
  match emptyState d with
  | Some e => negb (hidden e)
  | None => false
  end.

(** Both nodes are there and the placeholder is hidden exactly when the
    list has a card. *)
Definition in_sync (d : Dom) : Prop :=
  exists cards e,
    d = {| attachmentsList := Some cards; emptyState := Some e |} /\
    hidden e = match cards with [] => false | _ :: _ => true end.

End Gallery.

(** ** The upload queue *)

Module Uploader.
Import JS Gallery.

(** The body of an upload response, by the contract of the endpoint:
    [{attachments: [...], errors: [{filename, errors: [string]}]}], or
    [{error: string}] when the request fails as a whole.  A field is
    [None] when the body lacks it. *)
Record FileErrors := {
  filename : string;
  file_errors : option (list string)
}.

Record Response := {
  error : option string;
  errors : option (list FileErrors);
  attachments : option (list Entry)
}.

(** A queue item node: the classes, the status text and the width of the
    progress bar (a percentage, unset at first).  The [progress] events of
    the request only write that width and are left out. *)
Record QueueItem := {
  item_key : nat;
  item_name : string;
  item_complete : bool;
  item_error : bool;
  item_status : string;
  item_progress : option N
}.

(** The [data-attachment-upload-queue] node: its [hidden] flag and its
    children, by key. *)
Record Queue := {
  queue_hidden : bool;
  queue_children : list nat
}.

(** The page as the uploader sees it.  [items] holds every queue item node
    built so far, attached or not; [timers] the pending timeouts, each with
    the time it is due at and the item its callback removes; [now] is the
    clock, in milliseconds. *)
Record Page := {
  queue : option Queue;
  items : list QueueItem;
  gallery : Dom;
  timers : list (N * nat);
  now : N
}.

Record Labels := {
  uploading : string;
  uploaded : string;
  failed : string;
  fallbackEmptyLabel : string
}.

Definition update_item (k : nat) (f : QueueItem -> QueueItem) (p : Page) : Page :=
  {| queue := queue p;
     items := map (fun it => if Nat.eqb (item_key it) k then f it else it) (items p);
     gallery := gallery p;
     timers := timers p;
     now := now p |}.

(** [response && response.error]. *)
Definition structured_error (response : option Response) : option string :=
  match response with Some r => error r | None => None end.

(** [response.errors[0].errors], when the response has it. *)
Definition first_file_reasons (response : option Response)
    : option (list string) :=
  match response with
  | Some r =>
      match errors r with
      | Some (fe :: _) => file_errors fe
      | _ => None
      end
  | None => None
  end.

Definition is_success (status : N) : bool :=
  ((200 <=? status) && (status <? 300))%N.

Section WithLabels.

Variable uploadLabels : Labels.

Definition createQueueItem (k : nat) (name statusText : string) : QueueItem :=
  {| item_key := k; item_name := name;
     item_complete := false; item_error := false;
     item_status := statusText; item_progress := None |}.

(** The first part of [uploadFile]: the item is built and, when the page
    has a queue, appended to it.  The key of the new item is the number of
    items built before it. *)
Definition uploadFile (name : string) (p : Page) : Page :=
  let k := List.length (items p) in
  {| queue := match queue p with
              | Some q => Some {| queue_hidden := false;
                                  queue_children := queue_children q ++ [k] |}
              | None => None
              end;
     items := items p ++ [createQueueItem k name (uploading uploadLabels)];
     gallery := gallery p;
     timers := timers p;
     now := now p |}.

Definition handleFiles (files : list string) (p : Page) : Page :=
  fold_left (fun acc name => uploadFile name acc) files p.

Definition scheduleQueueRemoval (k : nat) (p : Page) : Page :=
  {| queue := queue p; items := items p; gallery := gallery p;
     timers := timers p ++ [((now p + 2500)%N, k)];
     now := now p |}.

(** The message of a failed upload:
    [(response && response.error) ||
     (response && response.errors && response.errors[0] && response.errors[0].errors
        ? response.errors[0].errors.join(", ") : null) ||
     uploadLabels.failed]. *)
Definition failure_message (response : option Response) : string :=
  or_else (structured_error response)
    (or_else (option_map (join ", ") (first_file_reasons response))
       (failed uploadLabels)).

(** The [load] listener of the request of item [k].  [uploadFile] sets
    [xhr.responseType] to [json], so [xhr.response] is the parsed body, or
    [null] when the reply has no body or one that is not JSON; [response]
    is [None] for a falsy [xhr.response].  The listener then evaluates
    [safeParse(xhr.responseText)], and reading [responseText] of a request
    whose response type is [json] throws an [InvalidStateError]: the
    listener ends on that line, before it has written anything, and the
    page is as it was. *)
Definition onLoad (k : nat) (status : N) (response : option Response)
    (p : Page) : Page :=
  match response with
  | None => p
  | Some r =>
      if is_success status then
        let p1 := update_item k (fun it =>
                    {| item_key := item_key it; item_name := item_name it;
                       item_complete := true; item_error := false;
                       item_status := uploaded uploadLabels;
                       item_progress := Some 100%N |}) p in
        let entries :=
          match attachments r with Some l => l | None => [] end in
        let g := fold_left
                   (fun d meta => addAttachmentFromMeta (fallbackEmptyLabel uploadLabels) meta d)
                   entries (gallery p1) in
        scheduleQueueRemoval k
          {| queue := queue p1; items := items p1; gallery := g;
             timers := timers p1; now := now p1 |}
      else
        let message := failure_message (Some r) in
        update_item k (fun it =>
          {| item_key := item_key it; item_name := item_name it;
             item_complete := item_complete it; item_error := true;
             item_status := message;
             item_progress := Some 100%N |}) p
  end.

(** The [error] listener of the request of item [k]. *)
Definition onError (k : nat) (p : Page) : Page :=
  update_item k (fun it =>
    {| item_key := item_key it; item_name := item_name it;
       item_complete := item_complete it; item_error := true;
       item_status := failed uploadLabels;
       item_progress := Some 100%N |}) p.

End WithLabels.

(** The callback of [scheduleQueueRemoval]: the node leaves its parent,
    and a queue left without children is hidden. *)
Definition remove_item (k : nat) (p : Page) : Page :=
  {| queue := match queue p with
              | Some q =>
                  let children := filter (fun c => negb (Nat.eqb c k)) (queue_children q) in
                  Some {| queue_hidden := match children with
                                          | [] => true
                                          | _ :: _ => queue_hidden q
                                          end;
                          queue_children := children |}
              | None => None
              end;
     items := items p; gallery := gallery p;
     timers := timers p; now := now p |}.

(** The timeouts that are due run in the order they were set; the others
    stay pending. *)
Fixpoint fire (t : N) (pending : list (N * nat)) (p : Page)
    : list (N * nat) * Page :=
  match pending with
  | [] => ([], p)
  | (due, k) :: rest =>
      if (due <=? t)%N then fire t rest (remove_item k p)
      else let '(kept, p') := fire t rest p in ((due, k) :: kept, p')
  end.

(** [dt] milliseconds pass. *)
Definition elapse (dt : N) (p : Page) : Page :=
  let t := (now p + dt)%N in
  let '(kept, p') := fire t (timers p) p in
  {| queue := queue p'; items := items p'; gallery := gallery p';
     timers := kept; now := t |}.

Definition is_attached (k : nat) (p : Page) : bool :=
  match queue p with
  | Some q => existsb (Nat.eqb k) (queue_children q)
  | None => false
  end.

Definition has_timer (k : nat) (p : Page) : bool :=
  existsb (fun t => Nat.eqb (snd t) k) (timers p).

Definition item_of (k : nat) (p : Page) : option QueueItem :=
  find (fun it => Nat.eqb (item_key it) k) (items p).

(** A timeout for item [k] that is due at time [t]. *)
Definition due_for (t : N) (k : nat) (timer : N * nat) : bool :=
  (fst timer <=? t)%N && Nat.eqb (snd timer) k.

(** A concrete page for the examples. *)

Local Open Scope string_scope.

Definition default_labels : Labels :=
  {| uploading := "Uploading...";
     uploaded := "Uploaded";
     failed := "Upload failed";
     fallbackEmptyLabel := "No attachments uploaded yet." |}.

Definition empty_page : Page :=
  {| queue := Some {| queue_hidden := true; queue_children := [] |};
     items := [];
     gallery := {| attachmentsList := Some [];
                   emptyState := Some {| hidden := false;
                                         textContent := "" |} |};
     timers := [];
     now := 0 |}.

(** One file has been picked: item 0 is in the queue, uploading. *)
Definition one_upload : Page := uploadFile default_labels "plan.png" empty_page.

Definition rejected_twice : Response :=
  {| error := None;
     errors := Some [{| filename := "plan.png";
                        file_errors := Some ["File too large.";
                                             "Unsupported file type."] |}];
     attachments := None |}.

Definition refused : Response :=
  {| error := Some "You may not add files to this work order.";
     errors := None;
     attachments := None |}.

Definition stored : Response :=
  {| error := None;
     errors := Some [];
     attachments :=
       Some [Object {| meta_id := "41"; meta_name := Some "plan.png";
                       meta_url := Some "/media/41.png";
                       meta_is_image := true;
                       meta_content_type := Some "image/png" |}] |}.

End Uploader.

(** ** Clicks on the attachment list *)

Module Preview.
Import JS.

(** The [dataset] of a trigger inside a card. *)
Record Trigger := {
  data_src : option string;
  data_name : option string;
  data_external : option string
}.

(** The document preview modal: [docOverlay] is [None] until
    [ensureDocOverlay] has built the node and then holds its [hidden]
    attribute; the frame's [src], its title, and the spinner's [hidden]. *)
Record DocModal := {
  docOverlay : option bool;
  docFrame_src : string;
  docTitle : string;
  docSpinner_hidden : bool
}.

Definition doc_initial : DocModal :=
  {| docOverlay := None; docFrame_src := ""; docTitle := "";
     docSpinner_hidden := false |}.

(** A call of [window.open(url, target)]; the url is [None] when the
    argument is [undefined]. *)
Record WindowOpen := {
  open_url : option string;
  open_target : string
}.

(** The page as [onAttachmentsClick] sees it: the lightbox, the document
    modal, and the browsing contexts opened so far. *)
Record Page := {
  view : Lightbox.View;
  doc : DocModal;
  opened : list WindowOpen
}.

(** [trigger.dataset.external === "1"]. *)
Definition is_external (trigger : Trigger) : bool :=
  match data_external trigger with
  | Some flag => String.eqb flag "1"
  | None => false
  end.

(** A click that reaches the list: its target is not an [HTMLElement], or
    it is one, with the results of the two [closest] lookups. *)
Inductive Click :=
| NotHTMLElement
| OnElement (viewerTrigger previewTrigger : option Trigger).

Section WithLabels.

Variable previewLabel : string.

Definition openDocOverlay (trigger : Trigger) (m : DocModal) : DocModal :=
  match data_src trigger with
  | Some src =>
      if truthy src then
        {| docOverlay := Some false;
           docFrame_src := src;
           docTitle := or_else (data_name trigger) previewLabel;
           docSpinner_hidden := false |}
      else m
  | None => m
  end.

Definition closeDocOverlay (m : DocModal) : DocModal :=
  match docOverlay m with
  | None => m
  | Some _ =>
      {| docOverlay := Some true;
         docFrame_src := "about:blank";
         docTitle := docTitle m;
         docSpinner_hidden := false |}
  end.

Definition onAttachmentsClick (c : Click) (p : Page) : Page :=
  match c with
  | NotHTMLElement => p
  | OnElement (Some viewerTrigger) _ =>
      {| view := Lightbox.openOverlay (data_src viewerTrigger) (view p);
         doc := doc p; opened := opened p |}
  | OnElement None (Some previewTrigger) =>
      if is_external previewTrigger then
        {| view := view p; doc := doc p;
           opened := opened p ++
                     [{| open_url := data_src previewTrigger;
                         open_target := "_blank" |}] |}
      else
        {| view := view p;
           doc := openDocOverlay previewTrigger (doc p);
           opened := opened p |}
  | OnElement None None => p
  end.

End WithLabels.

Definition modal_open (p : Page) : bool :=
  match docOverlay (doc p) with
  | Some false => true
  | _ => false
  end.

Definition fresh_page : Page :=
  {| view := Lightbox.initial; doc := doc_initial; opened := [] |}.

End Preview.

(** ** The [next] parameter of delete links *)

Module DeleteUrl.
Import JS.

(** The parts of a parsed [URL] the function reads, with its
    [searchParams] as the ordered list of pairs. *)
Record URL := {
  pathname : string;
  search : string;
  hash : string;
  searchParams : list (string * string)
}.

(** [URLSearchParams.prototype.has]. *)
Definition sp_has (name : string) (ps : list (string * string)) : bool :=
  existsb (fun kv => String.eqb (fst kv) name) ps.

(** [URLSearchParams.prototype.get]: the value of the first pair. *)
Fixpoint sp_get (name : string) (ps : list (string * string)) : option string :=
  match ps with
  | [] => None
  | (k, v) :: rest => if String.eqb k name then Some v else sp_get name rest
  end.

(** [URLSearchParams.prototype.set]: the first pair of that name takes the
    value and the later ones go; without such a pair one is appended. *)
Fixpoint sp_set (name value : string) (ps : list (string * string))
    : list (string * string) :=
  match ps with
  | [] => [(name, value)]
  | (k, v) :: rest =>
      if String.eqb k name
      then (k, value) :: filter (fun kv => negb (String.eqb (fst kv) name)) rest
      else (k, v) :: sp_set name value rest
  end.

Definition hex_digit (n : N) : ascii :=
  match n with
  | 0 => "0" | 1 => "1" | 2 => "2" | 3 => "3" | 4 => "4" | 5 => "5"
  | 6 => "6" | 7 => "7" | 8 => "8" | 9 => "9" | 10 => "A" | 11 => "B"
  | 12 => "C" | 13 => "D" | 14 => "E" | _ => "F"
  end%N%char.

Definition percent (c : ascii) : string :=
  let n := N_of_ascii c in
  String "%" (String (hex_digit (n / 16)) (String (hex_digit (n mod 16)) "")).

Definition is_alphanumeric (c : ascii) : bool :=
  let n := N_of_ascii c in
  ((48 <=? n) && (n <=? 57) || (65 <=? n) && (n <=? 90) ||
   (97 <=? n) && (n <=? 122))%N.

Definition one_of (chars : string) (c : ascii) : bool :=
  existsb (Ascii.eqb c) (list_ascii_of_string chars).

(** [encodeURIComponent], on the UTF-8 bytes of the string. *)
Fixpoint encodeURIComponent (s : string) : string :=
  match s with
  | EmptyString => EmptyString
  | String c rest =>
      (if is_alphanumeric c || one_of "-_.!~*'()" c
       then String c EmptyString else percent c)
      ++ encodeURIComponent rest
  end%string.

(** The [application/x-www-form-urlencoded] serializer of one string. *)
Fixpoint form_encode (s : string) : string :=
  match s with
  | EmptyString => EmptyString
  | String c rest =>
      (if Ascii.eqb c " " then "+"
       else if is_alphanumeric c || one_of "*-._" c
       then String c EmptyString else percent c)
      ++ form_encode rest
  end%string.

Definition serialize (ps : list (string * string)) : string :=
  join "&" (map (fun kv => form_encode (fst kv) ++ "=" ++ form_encode (snd kv))%string ps).

(** [url.searchParams.set(name, value)]: the list changes and the query of
    the URL is serialized again from it. *)
Definition searchParams_set (name value : string) (u : URL) : URL :=
  let ps := sp_set name value (searchParams u) in
  let query := serialize ps in
  {| pathname := pathname u;
     search := if truthy query then ("?" ++ query)%string else EmptyString;
     hash := hash u;
     searchParams := ps |}.

Section WithWindow.

(** [new URL(url, window.location.origin)], a constructor of the host:
    [None] when it throws. *)
Variable parseURL : string -> option URL.

(** The return target: [data-next-url] of the list, or else the path and
    query of the current page. *)
Variable deleteNext : string.

(** The body of the [try] block once the URL has been parsed. *)
Definition decorateParsed (parsed : URL) : URL :=
  if truthy deleteNext && negb (sp_has "next" (searchParams parsed))
  then searchParams_set "next" deleteNext parsed
  else parsed.

Definition decorateDeleteUrl (url : string) : string :=
  if negb (truthy url) then url
  else
    match parseURL url with
    | Some parsed =>
        let parsed' := decorateParsed parsed in
        (pathname parsed' ++ search parsed' ++ hash parsed')%string
    | None =>
        if includes url "next=" || negb (truthy deleteNext) then url
        else
          let glue : string := if includes url "?" then "&"%string else "?"%string in
          (url ++ glue ++ "next=" ++ encodeURIComponent deleteNext)%string
    end.

End WithWindow.

(** An executable stand-in for the constructor, to run the model on
    concrete links: it reads a path-absolute reference [path?query#fragment]
    written without escapes.  The properties below hold for every parser. *)
Fixpoint split_at (c : ascii) (s : string) : string * option string :=
  match s with
  | EmptyString => (EmptyString, None)
  | String a rest =>
      if Ascii.eqb a c then (EmptyString, Some rest)
      else let '(before, after) := split_at c rest in (String a before, after)
  end.

Fixpoint split_all (fuel : nat) (c : ascii) (s : string) : list string :=
  match fuel with
  | O => [s]
  | S fuel' =>
      match split_at c s with
      | (before, Some after) => before :: split_all fuel' c after
      | (before, None) => [before]
      end
  end.

Definition parse_pair (s : string) : string * string :=
  match split_at "=" s with
  | (k, Some v) => (k, v)
  | (k, None) => (k, EmptyString)
  end.

Definition parse_reference (url : string) : option URL :=
  match url with
  | String "/" _ =>
      let '(front, fragment) := split_at "#" url in
      let '(path, query) := split_at "?" front in
      Some {| pathname := path;
              search := match query with
                        | Some q => if truthy q then String "?" q else EmptyString
                        | None => EmptyString
                        end;
              hash := match fragment with
                      | Some f => if truthy f then String "#" f else EmptyString
                      | None => EmptyString
                      end;
              searchParams :=
                match query with
                | Some q =>
                    map parse_pair
                      (filter truthy (split_all (String.length q) "&" q))
                | None => []
                end |}
  | _ => None
  end.

End DeleteUrl.

(** ** Gestures: what holds of the pointer state *)

Module Gesture.
Import JS Lightbox.

(** The ids of the pointers that are down. *)
Definition pointer_ids (v : View) : list Z := map fst (pointers v).

(** The pointer state is coherent: the ids are distinct, a pinch baseline
    is kept only while two or more pointers are down, no drag is in
    progress when no pointer is down, and the scale the pinch started
    from is a scale the viewer can have. *)
Definition coherent (v : View) : Prop :=
  NoDup (pointer_ids v) /\
  ((List.length (pointers v) < 2)%nat -> initialPinchDistance v = 0) /\
  (pointers v = [] -> isDragging v = false) /\
  1 <= pinchStartScale v <= 5 /\
  (exists k : Z, pinchStartScale v == k # 100).

(** Concrete views for the examples: the overlay opened and zoomed in
    twice; the overlay opened with nothing else done; a pinch that began
    with the pointers 3 px apart and was widened to 4 px. *)
Definition zoomed_twice : View :=
  onOverlayClick zoom_in
    (onOverlayClick zoom_in (openOverlay (Some "/media/a.png"%string) initial)).

Definition just_opened : View :=
  openOverlay (Some "/media/a.png"%string) initial.

Definition pinch_events : list Event :=
  [ViewerClick (Some "/media/a.png"%string);
   PointerDown (finger 1 0 0); PointerDown (finger 2 3 0);
   PointerMove (finger 2 4 0)].

Definition widened_pinch : View :=
  match run hypot_dyadic pinch_events initial with
  | Some v => v
  | None => initial
  end.

End Gesture.

(** ** The gallery: the card of an entry *)

Module Cards.
Import JS Gallery.

(** The card [renderAttachment] builds for an object entry. *)
Definition card_of (m : Meta) : Card :=
  {| attachmentId := meta_id m;
     card_title := or_else (meta_name m) "Attachment";
     card_viewer := meta_is_image m && truthy_opt (meta_url m);
     card_download := if truthy_opt (meta_url m) then meta_url m else None;
     card_type := if truthy_opt (meta_content_type m)
                  then meta_content_type m else None |}.

(** The ids of the cards of the list, in order; none when the list node
    is missing. *)
Definition card_ids (d : Dom) : list string :=
  match attachmentsList d with
  | Some cards => map attachmentId cards
  | None => []
  end.

(** The cards whose id is not [i], in order. *)
Definition others (i : string) (cards : list Card) : list Card :=
  filter (fun c => negb (String.eqb (attachmentId c) i)) cards.

(** A gallery with three cards, for the examples. *)
Definition plain_card (i t : string) : Card :=
  {| attachmentId := i; card_title := t; card_viewer := false;
     card_download := None; card_type := None |}.

Definition three_cards : list Card :=
  [plain_card "7" "a.pdf"; plain_card "41" "old.png"; plain_card "9" "b.pdf"].

Definition meta_with_id (i t : string) : Meta :=
  {| meta_id := i; meta_name := Some t; meta_url := None;
     meta_is_image := false; meta_content_type := None |}.

End Cards.

(** ** The upload queue: progress, and what time leaves in the queue *)

Module Progress.
Import JS Gallery Uploader.

(** [Math.round] on a number that is not negative. *)
Definition Math_round (x : Q) : Z := Qfloor (x + (1 # 2)).

(** [Math.round((event.loaded / event.total) * 100)], for the byte counts
    of a progress event: the counts come as binary64 values, the quotient
    is rounded, then the product, and [Math.round] takes the nearest
    integer of that. *)
Definition percent_of (loaded total : N) : option N :=
  match div64 (round64 (inject_Z (Z.of_N loaded)))
              (round64 (inject_Z (Z.of_N total))) with
  | Some ratio => Some (Z.to_N (Math_round (mul64 ratio 100)))
  | None => None
  end.

(** The [progress] listener of the upload of item [k].  With a total of
    zero the quotient is [NaN] or [Infinity] and the width it would write,
    ["NaN%"] or ["Infinity%"], is no CSS length: the style keeps the width
    it had. *)
Definition onProgress (k : nat) (lengthComputable : bool) (loaded total : N)
    (p : Page) : Page :=
  if lengthComputable then
    match percent_of loaded total with
    | Some percent =>
        update_item k (fun it =>
          {| item_key := item_key it; item_name := item_name it;
             item_complete := item_complete it; item_error := item_error it;
             item_status := item_status it;
             item_progress := Some percent |}) p
    | None => p
    end
  else p.

(** Whether some timeout of the list is due at time [t]. *)
Definition any_due (t : N) (pending : list (N * nat)) : bool :=
  existsb (fun timer => (fst timer <=? t)%N) pending.

(** The children that no timeout due at time [t] removes. *)
Definition survivors (t : N) (pending : list (N * nat)) (children : list nat)
    : list nat :=
  filter (fun c => negb (existsb (due_for t c) pending)) children.

End Progress.

(** ** Utilities *)

Module Util.
Import JS.

Local Open Scope string_scope.

(** Whether the character occurs in the string. *)
Fixpoint has_char (c : ascii) (s : string) : bool :=
  match s with
  | EmptyString => false
  | String a rest => Ascii.eqb a c || has_char c rest
  end.

(** The replacement in [stripTags]: every match of the pattern
    [<[^>]+>] is taken out, reading from left to right.  Outside a match,
    a less-than sign opens one when the next character is not a
    greater-than sign and a greater-than sign comes later: the match then
    runs to the first greater-than sign.  [inside] tells whether the
    reader is within a match. *)
Definition starts_with (c : ascii) (s : string) : bool :=
  match s with
  | String d _ => Ascii.eqb d c
  | EmptyString => false
  end.

Fixpoint strip (inside : bool) (s : string) : string :=
  match s with
  | EmptyString => EmptyString
  | String c rest =>
      if inside then
        if Ascii.eqb c ">" then strip false rest else strip true rest
      else if Ascii.eqb c "<" then
        if negb (starts_with ">" rest) && has_char ">" rest
        then strip true rest
        else String c (strip false rest)
      else String c (strip false rest)
  end.

(** [stripTags(value)]; the value is [None] when it is [undefined]. *)
Definition stripTags (value : option string) : string :=
  match value with
  | Some s => if truthy s then strip false s else ""
  | None => ""
  end.

(** A text the pattern [<[^>]+>] does not match anywhere: each less-than
    sign in it is followed at once by a greater-than sign or by none at
    all. *)
Fixpoint tag_free (s : string) : bool :=
  match s with
  | EmptyString => true
  | String c rest =>
      (if Ascii.eqb c "<"
       then starts_with ">" rest || negb (has_char ">" rest)
       else true) && tag_free rest
  end.

(** The character U+0022. *)
Definition double_quote : ascii := ascii_of_nat 34.

(** The replacement in [escapeSelector] for a browser without
    [CSS.escape]: a backslash goes in front of every double quote and
    every backslash. *)
Fixpoint escape_quotes (s : string) : string :=
  match s with
  | EmptyString => EmptyString
  | String c rest =>
      if Ascii.eqb c double_quote || Ascii.eqb c "\"
      then String "\" (String c (escape_quotes rest))
      else String c (escape_quotes rest)
  end.

(** [escapeSelector(value)]; [css_escape] is [window.CSS.escape] when the
    browser has it. *)
Definition escapeSelector (css_escape : option (string -> string))
    (value : string) : string :=
  match css_escape with
  | Some escape => escape value
  | None => escape_quotes value
  end.

(** The characters that may not stand in a CSS string: line feed, form
    feed and carriage return. *)
Definition is_newline (c : ascii) : bool :=
  Ascii.eqb c (ascii_of_nat 10) || Ascii.eqb c (ascii_of_nat 12) ||
  Ascii.eqb c (ascii_of_nat 13).

(** How the selector parser of the host reads a string that opened with a
    double quote, as far as the characters go that [escape_quotes] deals
    with: a backslash in front of a double quote or a backslash makes that
    character literal, a double quote with no backslash in front ends the
    string, and a line break makes the string a bad one.  The result is
    the text of the string, or [None] for a bad string, for one that does
    not end, and for an escape of another kind. *)
Fixpoint read_css_string (s : string) : option string :=
  match s with
  | EmptyString => None
  | String c rest =>
      if Ascii.eqb c "\" then
        match rest with
        | String d rest' =>
            if Ascii.eqb d double_quote || Ascii.eqb d "\"
            then option_map (String d) (read_css_string rest')
            else None
        | EmptyString => None
        end
      else if Ascii.eqb c double_quote then Some EmptyString
      else if is_newline c then None
      else option_map (String c) (read_css_string rest)
  end.

(** The text up to the first semicolon. *)
Fixpoint until_semicolon (s : string) : string :=
  match s with
  | EmptyString => EmptyString
  | String c rest =>
      if Ascii.eqb c ";" then EmptyString else String c (until_semicolon rest)
  end.

(** The text after a prefix, when the string starts with it. *)
Fixpoint after_prefix (pre s : string) : option string :=
  match pre, s with
  | EmptyString, _ => Some s
  | String a pre', String b s' =>
      if Ascii.eqb a b then after_prefix pre' s' else None
  | String _ _, EmptyString => None
  end.

(** [document.cookie.match(/csrftoken=([^;]+)/)]: the capture of the
    leftmost match, that is of the first place where [csrftoken=] is
    followed by a character other than a semicolon. *)
Fixpoint match_csrftoken (cookie : string) : option string :=
  match cookie with
  | EmptyString => None
  | String _ rest =>
      match after_prefix "csrftoken=" cookie with
      | Some value =>
          match until_semicolon value with
          | EmptyString => match_csrftoken rest
          | captured => Some captured
          end
      | None => match_csrftoken rest
      end
  end.

Section WithDecoder.

(** [decodeURIComponent], a function of the host: [None] when it throws. *)
Variable decodeURIComponent : string -> option string.

(** [getCSRFToken()]: [None] when the decoding throws. *)
Definition getCSRFToken (cookie : string) : option string :=
  match match_csrftoken cookie with
  | Some captured => decodeURIComponent captured
  | None => Some ""
  end.

End WithDecoder.

(** [buildHeaders()], as the list of the headers in the order they are
    set. *)
Definition buildHeaders (csrfToken : string) : list (string * string) :=
  ("X-Requested-With", "XMLHttpRequest")
  :: (if truthy csrfToken then [("X-CSRFToken", csrfToken)] else []).

(** An id with a double quote, a bracket and a backslash in it, for the
    examples. *)
Definition quoted_id : string :=
  String "a" (String double_quote (String "]" (String "\" "b"))).

End Util.

(** ** The page around the overlays: scroll lock, key listeners, focus *)

Module Shell.
Import JS.

Local Open Scope string_scope.

(** A trigger of the list: the node, told apart by a number, with its
    [dataset]. *)
Record Element := {
  element_id : nat;
  dataset : Preview.Trigger
}.

(** The two [keydown] listeners the script puts on the document. *)
Inductive Listener := onKeyDown_listener | onDocKeyDown_listener.

Definition listener_eqb (a b : Listener) : bool :=
  match a, b with
  | onKeyDown_listener, onKeyDown_listener => true
  | onDocKeyDown_listener, onDocKeyDown_listener => true
  | _, _ => false
  end.

(** Where the focus is: on a trigger of the list, or somewhere the script
    does not put it. *)
Inductive Focus :=
| focus_on (el : Element)
| focus_elsewhere.

(** The nodes of the lightbox that [openOverlay] and [closeOverlay]
    write, besides what [Lightbox.View] holds. *)
Record LightboxNodes := {
  image_src : string;
  image_alt : string;
  title_text : string;
  download_href : string;
  spinner_hidden : bool;
  data_active : bool
}.

(** The page: the view and the document modal as before, the nodes of the
    lightbox, the link of the document modal, the [overflow] of the body
    with the value the script saved of it ([None] for [null]), the
    [keydown] listeners on the document in the order they were added, the
    focus, and the triggers remembered for it. *)
Record Page := {
  view : Lightbox.View;
  doc : Preview.DocModal;
  nodes : LightboxNodes;
  doc_download_href : string;
  body_overflow : string;
  initialBodyOverflow : option string;
  keydown : list Listener;
  focused : Focus;
  lastActiveTrigger : option Element;
  lastActiveDocTrigger : option Element
}.

(** [document.addEventListener]: a listener that is on the list already
    is not added again. *)
Definition add_listener (l : Listener) (ls : list Listener) : list Listener :=
  if existsb (listener_eqb l) ls then ls else ls ++ [l].

Definition remove_listener (l : Listener) (ls : list Listener) : list Listener :=
  filter (fun x => negb (listener_eqb l x)) ls.

Definition lightbox_shown (p : Page) : bool :=
  match Lightbox.overlay (view p) with
  | Some false => true
  | _ => false
  end.

Definition doc_shown (p : Page) : bool :=
  match Preview.docOverlay (doc p) with
  | Some false => true
  | _ => false
  end.

(** [openOverlay(trigger)] in full.  The node [querySelector] finds for
    [[data-action=close]] is the first in the overlay, the backdrop, a
    [div] that cannot take the focus: the call of [focus()] on it leaves
    the focus where it is. *)
Definition openOverlay (trigger : Element) (p : Page) : Page :=
  match Preview.data_src (dataset trigger) with
  | Some src =>
      if truthy src then
        {| view := Lightbox.openOverlay (Some src) (view p);
           doc := doc p;
           nodes := {| image_src := src;
                       image_alt := or_else (Preview.data_name (dataset trigger)) "";
                       title_text := or_else (Preview.data_name (dataset trigger)) "";
                       download_href := src;
                       spinner_hidden := false;
                       data_active := true |};
           doc_download_href := doc_download_href p;
           body_overflow := "hidden";
           initialBodyOverflow := Some (body_overflow p);
           keydown := add_listener onKeyDown_listener (keydown p);
           focused := focused p;
           lastActiveTrigger := Some trigger;
           lastActiveDocTrigger := lastActiveDocTrigger p |}
      else p
  | None => p
  end.

Definition closeOverlay (p : Page) : Page :=
  match Lightbox.overlay (view p) with
  | None => p
  | Some _ =>
      {| view := Lightbox.closeOverlay (view p);
         doc := doc p;
         nodes := {| image_src := "";
                     image_alt := image_alt (nodes p);
                     title_text := title_text (nodes p);
                     download_href := download_href (nodes p);
                     spinner_hidden := spinner_hidden (nodes p);
                     data_active := false |};
         doc_download_href := doc_download_href p;
         body_overflow := or_else (initialBodyOverflow p) "";
         initialBodyOverflow := initialBodyOverflow p;
         keydown := remove_listener onKeyDown_listener (keydown p);
         focused := match lastActiveTrigger p with
                    | Some el => focus_on el
                    | None => focused p
                    end;
         lastActiveTrigger := lastActiveTrigger p;
         lastActiveDocTrigger := lastActiveDocTrigger p |}
  end.

Section WithLabels.

Variable previewLabel : string.

(** [openDocOverlay(trigger)] in full; the first [[data-doc-action=close]]
    is the backdrop here too. *)
Definition openDocOverlay (trigger : Element) (p : Page) : Page :=
  match Preview.data_src (dataset trigger) with
  | Some src =>
      if truthy src then
        {| view := view p;
           doc := Preview.openDocOverlay previewLabel (dataset trigger) (doc p);
           nodes := nodes p;
           doc_download_href := src;
           body_overflow := "hidden";
           initialBodyOverflow := Some (body_overflow p);
           keydown := add_listener onDocKeyDown_listener (keydown p);
           focused := focused p;
           lastActiveTrigger := lastActiveTrigger p;
           lastActiveDocTrigger := Some trigger |}
      else p
  | None => p
  end.

Definition closeDocOverlay (p : Page) : Page :=
  match Preview.docOverlay (doc p) with
  | None => p
  | Some _ =>
      {| view := view p;
         doc := Preview.closeDocOverlay (doc p);
         nodes := nodes p;
         doc_download_href := doc_download_href p;
         body_overflow := or_else (initialBodyOverflow p) "";
         initialBodyOverflow := initialBodyOverflow p;
         keydown := remove_listener onDocKeyDown_listener (keydown p);
         focused := match lastActiveDocTrigger p with
                    | Some el => focus_on el
                    | None => focused p
                    end;
         lastActiveTrigger := lastActiveTrigger p;
         lastActiveDocTrigger := lastActiveDocTrigger p |}
  end.

Definition with_view (v : Lightbox.View) (p : Page) : Page :=
  {| view := v; doc := doc p; nodes := nodes p;
     doc_download_href := doc_download_href p;
     body_overflow := body_overflow p;
     initialBodyOverflow := initialBodyOverflow p;
     keydown := keydown p; focused := focused p;
     lastActiveTrigger := lastActiveTrigger p;
     lastActiveDocTrigger := lastActiveDocTrigger p |}.

(** [onKeyDown(event)] in full: [Escape] closes the lightbox, the other
    keys act on the view. *)
Definition onKeyDown (k : Lightbox.Key) (p : Page) : Page :=
  if lightbox_shown p then
    match k with
    | Lightbox.Escape => closeOverlay p
    | _ => with_view (Lightbox.onKeyDown k (view p)) p
    end
  else p.

Definition onDocKeyDown (k : Lightbox.Key) (p : Page) : Page :=
  if doc_shown p then
    match k with
    | Lightbox.Escape => closeDocOverlay p
    | _ => p
    end
  else p.

(** [onOverlayClick(event)] in full. *)
Definition onOverlayClick (a : Lightbox.Action) (p : Page) : Page :=
  match a with
  | Lightbox.close => closeOverlay p
  | _ => with_view (Lightbox.onOverlayClick a (view p)) p
  end.

(** The [data-doc-action] of a click target inside the document modal. *)
Inductive DocAction := doc_close | doc_open | doc_no_action.

Definition onDocOverlayClick (a : DocAction) (p : Page) : Page :=
  match a with
  | doc_close => closeDocOverlay p
  | _ => p
  end.

(** A [keydown] event on the document runs the listeners that are on the
    list, in their order; a listener taken off the list before its turn
    does not run. *)
Definition run_listener (k : Lightbox.Key) (l : Listener) (p : Page) : Page :=
  if existsb (listener_eqb l) (keydown p) then
    match l with
    | onKeyDown_listener => onKeyDown k p
    | onDocKeyDown_listener => onDocKeyDown k p
    end
  else p.

Definition dispatch_keydown (k : Lightbox.Key) (p : Page) : Page :=
  fold_left (fun acc l => run_listener k l acc) (keydown p) p.

(** What the user can do.  A click inside an overlay needs the overlay to
    be shown: a hidden node gets no click.  A click on an external preview
    trigger opens a window and writes nothing of this page.  The [load]
    and [error] listeners of the image and of the frame, which hide the
    spinners, are left out. *)
Inductive Event :=
| ClickViewer (trigger : Element)
| ClickPreview (trigger : Element)
| ClickInLightbox (a : Lightbox.Action)
| ClickInDocModal (a : DocAction)
| KeyDown (k : Lightbox.Key).

Definition step (p : Page) (ev : Event) : Page :=
  match ev with
  | ClickViewer trigger => openOverlay trigger p
  | ClickPreview trigger =>
      if Preview.is_external (dataset trigger) then p
      else openDocOverlay trigger p
  | ClickInLightbox a => if lightbox_shown p then onOverlayClick a p else p
  | ClickInDocModal a => if doc_shown p then onDocOverlayClick a p else p
  | KeyDown k => dispatch_keydown k p
  end.

Definition run (evs : list Event) (p : Page) : Page :=
  fold_left step evs p.

End WithLabels.

(** The page when the script has run: nothing built, nothing saved, no
    listener; the body has the overflow the page gave it. *)
Definition initial (overflow : string) (focus : Focus) : Page :=
  {| view := Lightbox.initial;
     doc := Preview.doc_initial;
     nodes := {| image_src := ""; image_alt := ""; title_text := "";
                 download_href := ""; spinner_hidden := false;
                 data_active := false |};
     doc_download_href := "";
     body_overflow := overflow;
     initialBodyOverflow := None;
     keydown := [];
     focused := focus;
     lastActiveTrigger := None;
     lastActiveDocTrigger := None |}.

(** The listeners are the ones of the overlays that are shown, each once;
    the body does not scroll while an overlay is shown; and with both
    shown the saved overflow is the lock itself. *)
Definition locked (p : Page) : Prop :=
  NoDup (keydown p) /\
  (In onKeyDown_listener (keydown p) <-> lightbox_shown p = true) /\
  (In onDocKeyDown_listener (keydown p) <-> doc_shown p = true) /\
  (lightbox_shown p = true \/ doc_shown p = true -> body_overflow p = "hidden") /\
  (lightbox_shown p = true -> doc_shown p = true ->
   initialBodyOverflow p = Some "hidden").

(** Two triggers for the examples. *)
Definition image_trigger : Element :=
  {| element_id := 1;
     dataset := {| Preview.data_src := Some "/media/41.png";
                   Preview.data_name := Some "plan.png";
                   Preview.data_external := None |} |}.

Definition pdf_trigger : Element :=
  {| element_id := 2;
     dataset := {| Preview.data_src := Some "/media/lease.pdf";
                   Preview.data_name := None;
                   Preview.data_external := None |} |}.

End Shell.

(** * Properties *)

(** ** Rounding and comparison of numbers *)

Module JSFacts.
Import JS.

Lemma truthy_true (s : string) : truthy s = true <-> s <> EmptyString.
Proof. destruct s; simpl; split; congruence. Qed.

Lemma Qltb_lt (x y : Q) : Qltb x y = true <-> x < y.
Proof. unfold Qltb, Qlt. apply Z.ltb_lt. Qed.

Lemma Qltb_ge (x y : Q) : Qltb x y = false <-> y <= x.
Proof. unfold Qltb, Qle. apply Z.ltb_ge. Qed.

Lemma toFixed2_hundredth (x : Q) :
  toFixed2 x == inject_Z (Qfloor (x * 100 + (1 # 2))) / 100.
Proof.
  unfold toFixed2. rewrite (Qmake_Qdiv _ 100). reflexivity.
Qed.

Lemma toFixed2_range (x : Q) : 1 <= x <= 5 -> 1 <= toFixed2 x <= 5.
Proof.
  intros [Hlo Hhi]. unfold toFixed2.
  assert (L : (100 <= Qfloor (x * 100 + (1 # 2)))%Z).
  { change 100%Z with (Qfloor (inject_Z 100)) at 1.
    apply Qfloor_resp_le. unfold inject_Z. lra. }
  assert (U : (Qfloor (x * 100 + (1 # 2)) <= 500)%Z).
  { change 500%Z with (Qfloor (1001 # 2)).
    apply Qfloor_resp_le. lra. }
  unfold Qle; cbn [Qnum Qden]. lia.
Qed.

(** The rounding moves a value by at most half a hundredth. *)
Lemma toFixed2_near (x : Q) :
  x - (1 # 200) < toFixed2 x /\ toFixed2 x <= x + (1 # 200).
Proof.
  rewrite toFixed2_hundredth.
  pose proof (Qfloor_le (x * 100 + (1 # 2))) as Hle.
  pose proof (Qlt_floor (x * 100 + (1 # 2))) as Hlt.
  rewrite inject_Z_plus in Hlt. change (inject_Z 1) with 1 in Hlt.
  set (n := inject_Z (Qfloor (x * 100 + (1 # 2)))) in *.
  split.
  - apply Qlt_shift_div_l; lra.
  - apply Qle_shift_div_r; lra.
Qed.

(** On a multiple of a hundredth the rounding is the identity. *)
Lemma toFixed2_fixed (k : Z) : toFixed2 (Qmake k 100) == Qmake k 100.
Proof.
  unfold toFixed2.
  assert (E : Qfloor ((k # 100) * 100 + (1 # 2)) = k).
  { assert (E1 : (k # 100) * 100 + (1 # 2) == inject_Z k + (1 # 2)).
    { rewrite (Qmake_Qdiv k 100). field. }
    rewrite E1.
    pose proof (Qfloor_le (inject_Z k + (1 # 2))) as Hle.
    pose proof (Qlt_floor (inject_Z k + (1 # 2))) as Hlt.
    rewrite inject_Z_plus in Hlt. change (inject_Z 1) with 1 in Hlt.
    assert (A : inject_Z (Qfloor (inject_Z k + (1 # 2))) < inject_Z (k + 1)).
    { rewrite inject_Z_plus. change (inject_Z 1) with 1. lra. }
    assert (B : inject_Z k < inject_Z (Qfloor (inject_Z k + (1 # 2)) + 1)).
    { rewrite inject_Z_plus. change (inject_Z 1) with 1. lra. }
    rewrite <- Zlt_Qlt in A, B. lia. }
  rewrite E. reflexivity.
Qed.

(** *** Binary64 rounding *)

Lemma round_half_even_comp (x y : Q) : x == y -> round_half_even x = round_half_even y.
Proof.
  intros H. unfold round_half_even.
  rewrite (Qfloor_comp x y H).
  rewrite (Qcompare_comp (x - inject_Z (Qfloor y)) (y - inject_Z (Qfloor y))
             (ltac:(rewrite H; reflexivity)) (1 # 2) (1 # 2) (Qeq_refl _)).
  reflexivity.
Qed.

Lemma round_half_even_cases (x : Q) :
  (round_half_even x = Qfloor x /\ x - inject_Z (Qfloor x) <= 1 # 2) \/
  (round_half_even x = (Qfloor x + 1)%Z /\ 1 # 2 <= x - inject_Z (Qfloor x)).
Proof.
  unfold round_half_even.
  destruct (Qcompare_spec (x - inject_Z (Qfloor x)) (1 # 2)) as [H | H | H].
  - destruct (Z.even (Qfloor x)); [left | right]; split; try reflexivity; lra.
  - left. split; [reflexivity | lra].
  - right. split; [reflexivity | lra].
Qed.

Lemma round_half_even_near (x : Q) :
  x - (1 # 2) <= inject_Z (round_half_even x) <= x + (1 # 2).
Proof.
  pose proof (Qfloor_le x) as L. pose proof (Qlt_floor x) as U.
  rewrite inject_Z_plus in U. change (inject_Z 1) with 1 in U.
  destruct (round_half_even_cases x) as [[-> H] | [-> H]].
  - lra.
  - rewrite inject_Z_plus. change (inject_Z 1) with 1. lra.
Qed.

Lemma round_half_even_integer (n : Z) : round_half_even (inject_Z n) = n.
Proof.
  unfold round_half_even. rewrite Qfloor_Z.
  destruct (Qcompare_spec (inject_Z n - inject_Z n) (1 # 2)) as [H | H | H];
    [lra | reflexivity | lra].
Qed.

Lemma round_half_even_monotone (x y : Q) :
  x <= y -> (round_half_even x <= round_half_even y)%Z.
Proof.
  intros H.
  pose proof (Qfloor_resp_le x y H) as F.
  destruct (Z.eq_dec (Qfloor x) (Qfloor y)) as [E | E].
  - unfold round_half_even. rewrite E.
    destruct (Qcompare_spec (x - inject_Z (Qfloor y)) (1 # 2)) as [A | A | A];
      destruct (Qcompare_spec (y - inject_Z (Qfloor y)) (1 # 2)) as [B | B | B];
      destruct (Z.even (Qfloor y)); try lia; lra.
  - destruct (round_half_even_cases x) as [[-> _] | [-> _]];
      destruct (round_half_even_cases y) as [[-> _] | [-> _]]; lia.
Qed.

Lemma two_nonzero : ~ (2 : Q) == 0.
Proof. intros H. discriminate H. Qed.

Lemma pow2_pos (e : Z) : 0 < 2 ^ e.
Proof. apply Qpower_0_lt. reflexivity. Qed.

Lemma pow2_succ (e : Z) : 2 ^ (e + 1) == 2 * 2 ^ e.
Proof. rewrite (Qpower_plus 2 e 1 two_nonzero). change (2 ^ 1) with 2. ring. Qed.

Lemma pow2_le (e e' : Z) : (e <= e')%Z -> 2 ^ e <= 2 ^ e'.
Proof. intros H. apply Qpower_le_compat_l; [exact H | discriminate]. Qed.

Lemma pow2_lt_inv (e e' : Z) : 2 ^ e < 2 ^ e' -> (e < e')%Z.
Proof. intros H. apply (Qpower_lt_compat_l_inv 2); [exact H | reflexivity]. Qed.

Lemma pow2_log2 (n : Z) :
  (0 < n)%Z -> 2 ^ Z.log2 n <= inject_Z n /\ inject_Z n < 2 * 2 ^ Z.log2 n.
Proof.
  intros H. destruct (Z.log2_spec n H) as [L U].
  pose proof (Z.log2_nonneg n) as P.
  rewrite <- pow2_succ.
  change (2 : Q) with (inject_Z 2).
  rewrite <- !Zpower_Qpower by lia.
  rewrite <- Zle_Qle, <- Zlt_Qlt. split; [exact L | exact U].
Qed.

Lemma floor_log2_spec (x : Q) :
  0 < x -> 2 ^ floor_log2 x <= x /\ x < 2 ^ (floor_log2 x + 1).
Proof.
  intros Hx.
  assert (Hn : (0 < Qnum x)%Z).
  { unfold Qlt in Hx. cbn in Hx. lia. }
  destruct (pow2_log2 (Qnum x) Hn) as [NL NU].
  destruct (pow2_log2 (QDen x) (eq_refl : (0 < QDen x)%Z)) as [DL DU].
  assert (HD : 0 < inject_Z (QDen x)) by (rewrite <- (Zlt_Qlt 0); reflexivity).
  assert (X : x * inject_Z (QDen x) == inject_Z (Qnum x)).
  { destruct x as [n d]. unfold Qeq. cbn. rewrite Pos.mul_1_r. ring. }
  set (a := Z.log2 (Qnum x)) in *. set (b := Z.log2 (QDen x)) in *.
  pose proof (pow2_pos (a - b)) as EP. pose proof (pow2_pos b) as BP.
  assert (EB : 2 ^ (a - b) * 2 ^ b == 2 ^ a).
  { rewrite <- (Qpower_plus 2 (a - b) b two_nonzero).
    replace (a - b + b)%Z with a by lia. reflexivity. }
  assert (L : 2 ^ (a - b) * inject_Z (QDen x) < 2 * (2 ^ (a - b) * 2 ^ b)).
  { setoid_replace (2 * (2 ^ (a - b) * 2 ^ b)) with (2 ^ (a - b) * (2 * 2 ^ b)) by ring.
    apply Qmult_lt_l; assumption. }
  assert (U : 2 ^ (a - b) * 2 ^ b <= 2 ^ (a - b) * inject_Z (QDen x)).
  { apply Qmult_le_l; assumption. }
  assert (Low : 2 ^ (a - b) < 2 * x).
  { apply (Qmult_lt_r _ _ (inject_Z (QDen x)) HD).
    setoid_replace (2 * x * inject_Z (QDen x)) with (2 * (x * inject_Z (QDen x))) by ring.
    rewrite X. lra. }
  assert (Up : x < 2 * 2 ^ (a - b)).
  { apply (Qmult_lt_r _ _ (inject_Z (QDen x)) HD).
    setoid_replace (2 * 2 ^ (a - b) * inject_Z (QDen x))
      with (2 * (2 ^ (a - b) * inject_Z (QDen x))) by ring.
    rewrite X. lra. }
  unfold floor_log2. fold a. fold b.
  destruct (Qle_bool (2 ^ (a - b)) x) eqn:T.
  - apply Qle_bool_iff in T. rewrite pow2_succ. split; [exact T | exact Up].
  - assert (T' : x < 2 ^ (a - b)).
    { apply Qnot_le_lt. intros C. apply Qle_bool_iff in C. congruence. }
    replace (a - b - 1 + 1)%Z with (a - b)%Z by lia.
    split; [| exact T'].
    pose proof (pow2_succ (a - b - 1)) as S.
    replace (a - b - 1 + 1)%Z with (a - b)%Z in S by lia.
    lra.
Qed.

Lemma floor_log2_unique (x : Q) (e : Z) :
  2 ^ e <= x -> x < 2 ^ (e + 1) -> floor_log2 x = e.
Proof.
  intros L U.
  assert (Hx : 0 < x) by (pose proof (pow2_pos e); lra).
  destruct (floor_log2_spec x Hx) as [L' U'].
  assert (A : (e < floor_log2 x + 1)%Z) by (apply pow2_lt_inv; lra).
  assert (B : (floor_log2 x < e + 1)%Z) by (apply pow2_lt_inv; lra).
  lia.
Qed.

Lemma floor_log2_monotone (x y : Q) :
  0 < x -> x <= y -> (floor_log2 x <= floor_log2 y)%Z.
Proof.
  intros Hx Hxy.
  destruct (floor_log2_spec x Hx) as [L _].
  destruct (floor_log2_spec y ltac:(lra)) as [_ U].
  assert (A : (floor_log2 x < floor_log2 y + 1)%Z) by (apply pow2_lt_inv; lra).
  lia.
Qed.

Lemma floor_log2_comp (x y : Q) : 0 < x -> x == y -> floor_log2 x = floor_log2 y.
Proof.
  intros Hx E. destruct (floor_log2_spec x Hx) as [L U].
  symmetry. apply floor_log2_unique; rewrite <- E; assumption.
Qed.

Lemma ulp_pos (x : Q) : 0 < ulp x.
Proof. apply pow2_pos. Qed.

Lemma ulp_scaled (x : Q) (m : Z) :
  inject_Z (2 ^ m) * ulp x == 2 ^ (Z.max (floor_log2 x) (-1022) - 52 + m) \/ (m < 0)%Z.
Proof.
  destruct (Z.ltb_spec m 0) as [H | H]; [right; exact H | left].
  unfold ulp. rewrite (Zpower_Qpower 2 m H). change (inject_Z 2) with 2.
  rewrite (Qpower_plus 2 _ m two_nonzero). ring.
Qed.

Lemma round64_pos_near (x : Q) :
  x - ulp x * (1 # 2) <= round64_pos x /\ round64_pos x <= x + ulp x * (1 # 2).
Proof.
  pose proof (ulp_pos x) as U.
  destruct (round_half_even_near (x / ulp x)) as [L H].
  unfold round64_pos.
  assert (E : x / ulp x * ulp x == x) by (field; lra).
  split.
  - apply (Qmult_le_compat_r _ _ (ulp x)) in L; lra.
  - apply (Qmult_le_compat_r _ _ (ulp x)) in H; lra.
Qed.

Lemma round64_pos_upper (x : Q) :
  0 < x -> round64_pos x <= 2 ^ (Z.max (floor_log2 x) (-1022) + 1).
Proof.
  intros Hx. destruct (floor_log2_spec x Hx) as [_ Up].
  pose proof (ulp_pos x) as U.
  set (e := Z.max (floor_log2 x) (-1022)).
  destruct (ulp_scaled x 53) as [S | S]; [| lia]. fold e in S.
  replace (e - 52 + 53)%Z with (e + 1)%Z in S by lia.
  assert (B : x <= 2 ^ (e + 1)).
  { pose proof (pow2_le (floor_log2 x + 1) (e + 1) ltac:(lia)). lra. }
  assert (Q : x / ulp x <= inject_Z (2 ^ 53)).
  { apply (Qmult_le_r _ _ (ulp x) U).
    setoid_replace (x / ulp x * ulp x) with x by (field; lra). lra. }
  apply round_half_even_monotone in Q. rewrite round_half_even_integer in Q.
  rewrite Zle_Qle in Q. unfold round64_pos.
  apply (Qmult_le_compat_r _ _ (ulp x)) in Q; lra.
Qed.

Lemma round64_pos_lower (x : Q) :
  0 < x -> (-1022 <= floor_log2 x)%Z -> 2 ^ floor_log2 x <= round64_pos x.
Proof.
  intros Hx Hn. destruct (floor_log2_spec x Hx) as [Lo _].
  pose proof (ulp_pos x) as U.
  destruct (ulp_scaled x 52) as [S | S]; [| lia].
  rewrite Z.max_l in S by lia.
  replace (floor_log2 x - 52 + 52)%Z with (floor_log2 x) in S by lia.
  assert (Q : inject_Z (2 ^ 52) <= x / ulp x).
  { apply (Qmult_le_r _ _ (ulp x) U).
    setoid_replace (x / ulp x * ulp x) with x by (field; lra). lra. }
  apply round_half_even_monotone in Q. rewrite round_half_even_integer in Q.
  rewrite Zle_Qle in Q. unfold round64_pos.
  apply (Qmult_le_compat_r _ _ (ulp x)) in Q; lra.
Qed.

Lemma round64_pos_monotone (x y : Q) :
  0 < x -> x <= y -> round64_pos x <= round64_pos y.
Proof.
  intros Hx Hxy.
  assert (Hy : 0 < y) by lra.
  pose proof (floor_log2_monotone x y Hx Hxy) as M.
  destruct (Z.eq_dec (Z.max (floor_log2 x) (-1022)) (Z.max (floor_log2 y) (-1022)))
    as [E | E].
  - assert (U : ulp x = ulp y) by (unfold ulp; rewrite E; reflexivity).
    unfold round64_pos. rewrite U. pose proof (ulp_pos y) as P.
    apply Qmult_le_compat_r; [| lra].
    rewrite <- Zle_Qle. apply round_half_even_monotone.
    apply (Qmult_le_r _ _ (ulp y) P).
    setoid_replace (x / ulp y * ulp y) with x by (field; lra).
    setoid_replace (y / ulp y * ulp y) with y by (field; lra).
    exact Hxy.
  - pose proof (round64_pos_upper x Hx) as A.
    pose proof (round64_pos_lower y Hy ltac:(lia)) as B.
    pose proof (pow2_le (Z.max (floor_log2 x) (-1022) + 1) (floor_log2 y) ltac:(lia)).
    lra.
Qed.

Lemma round64_comp (x y : Q) : x == y -> round64 x = round64 y.
Proof. intros H. unfold round64. rewrite (Qred_complete x y H). reflexivity. Qed.

Lemma Qnum_pos (x : Q) : 0 < x -> exists p, Qnum x = Zpos p.
Proof.
  unfold Qlt. cbn. destruct (Qnum x) as [| p | p]; intros H; try lia.
  exists p. reflexivity.
Qed.

Lemma round64_positive (x : Q) : 0 < x -> round64 x = round64_pos (Qred x).
Proof.
  intros H. unfold round64.
  assert (H' : 0 < Qred x) by (rewrite Qred_correct; exact H).
  destruct (Qnum_pos _ H') as [p ->]. reflexivity.
Qed.

Lemma round64_zero (x : Q) : x == 0 -> round64 x = 0.
Proof. intros H. rewrite (round64_comp x 0 H). reflexivity. Qed.

Lemma round64_pos_nonneg (x : Q) : 0 < x -> 0 <= round64_pos x.
Proof.
  intros H. pose proof (ulp_pos x) as U. unfold round64_pos.
  apply Qmult_le_0_compat; [| lra].
  change 0 with (inject_Z 0). rewrite <- Zle_Qle.
  rewrite <- (round_half_even_integer 0). apply round_half_even_monotone.
  change (inject_Z 0) with 0.
  apply Qle_shift_div_l; lra.
Qed.

Lemma round64_nonneg (x : Q) : 0 <= x -> 0 <= round64 x.
Proof.
  intros H. destruct (Qle_lt_or_eq _ _ H) as [P | E].
  - rewrite (round64_positive x P). apply round64_pos_nonneg.
    rewrite Qred_correct. exact P.
  - rewrite (round64_zero x); [lra | symmetry; exact E].
Qed.

Lemma round64_monotone (x y : Q) : 0 <= x -> x <= y -> round64 x <= round64 y.
Proof.
  intros Hx Hxy. destruct (Qle_lt_or_eq _ _ Hx) as [P | E].
  - rewrite (round64_positive x P), (round64_positive y ltac:(lra)).
    apply round64_pos_monotone; rewrite !Qred_correct; assumption.
  - rewrite (round64_zero x) by (symmetry; exact E).
    apply round64_nonneg. lra.
Qed.

(** Up to 8 a rounding moves a value by 2^-50 at most. *)
Lemma round64_near (x : Q) :
  1 <= x -> x <= 8 ->
  x - (1 # 1125899906842624) <= round64 x /\ round64 x <= x + (1 # 1125899906842624).
Proof.
  intros L U.
  rewrite (round64_positive x ltac:(lra)).
  assert (P : 0 < Qred x) by (rewrite Qred_correct; lra).
  destruct (round64_pos_near (Qred x)) as [A B].
  pose proof (Qred_correct x) as R.
  assert (F : (floor_log2 (Qred x) < 4)%Z).
  { destruct (floor_log2_spec _ P) as [Lo _].
    apply pow2_lt_inv. change (2 ^ 4) with (16 # 1). lra. }
  assert (V : ulp (Qred x) <= 2 ^ (-49)).
  { unfold ulp. apply pow2_le. lia. }
  assert (W : 2 ^ (-49) * (1 # 2) == 1 # 1125899906842624) by reflexivity.
  lra.
Qed.

Lemma round64_one (x : Q) : x == 1 -> round64 x == 1.
Proof. intros H. rewrite (round64_comp x 1 H). vm_compute. reflexivity. Qed.

Lemma round64_hundred (x : Q) : x == 100 -> round64 x == 100.
Proof. intros H. rewrite (round64_comp x 100 H). vm_compute. reflexivity. Qed.

End JSFacts.

(** ** The lightbox: range and grid of the scale *)

Module LightboxSpec.
Import JS JSFacts Lightbox.

Lemma toFixed2_comp (x y : Q) : x == y -> toFixed2 x = toFixed2 y.
Proof.
  intros E. unfold toFixed2. f_equal.
  apply Qfloor_comp. rewrite E. reflexivity.
Qed.

Lemma toFixed2_on_grid (x : Q) (k : Z) : x == k # 100 -> toFixed2 x == x.
Proof.
  intros E. rewrite (toFixed2_comp _ _ E), toFixed2_fixed. symmetry. exact E.
Qed.

Lemma clamp_range (x : Q) : 1 <= clamp x <= 5.
Proof.
  unfold clamp, MAX_SCALE, MIN_SCALE.
  destruct (Q.max_spec 1 x) as [[? E] | [? E]];
    destruct (Q.min_spec 5 (Qmax 1 x)) as [[? E'] | [? E']]; split; lra.
Qed.

Lemma scale_setScale (next : Q) (keepPan : bool) (v : View) :
  scale (setScale next keepPan v) = toFixed2 (clamp next).
Proof. unfold setScale. destruct (negb keepPan && _); reflexivity. Qed.

Lemma Inv_same_scale (v v' : View) : scale v' = scale v -> Inv v -> Inv v'.
Proof. unfold Inv, in_range, on_grid. intros ->. trivial. Qed.

Lemma Inv_initial : Inv initial.
Proof. split; [split; simpl; lra | exists 100%Z; reflexivity]. Qed.

Lemma Inv_setScale (next : Q) (keepPan : bool) (v : View) :
  Inv (setScale next keepPan v).
Proof.
  unfold Inv, in_range, on_grid. rewrite scale_setScale. split.
  - apply toFixed2_range, clamp_range.
  - eexists. reflexivity.
Qed.

Lemma Inv_stepZoom (delta : Q) (v : View) : Inv (stepZoom delta v).
Proof. apply Inv_setScale. Qed.

Lemma Inv_resetTransform (v : View) : Inv (resetTransform v).
Proof. split; [split; simpl; lra | exists 100%Z; reflexivity]. Qed.

Create HintDb lightbox_inv discriminated.

#[local] Hint Resolve Inv_initial Inv_setScale Inv_stepZoom
  Inv_resetTransform : lightbox_inv.

Lemma Inv_closeOverlay (v : View) : Inv v -> Inv (closeOverlay v).
Proof.
  unfold closeOverlay. destruct (overlay v); [apply Inv_same_scale; reflexivity | trivial].
Qed.

Lemma Inv_openOverlay (src : option string) (v : View) :
  Inv v -> Inv (openOverlay src v).
Proof.
  unfold openOverlay. destruct (truthy_opt src); [intros _ | trivial].
  apply (Inv_same_scale (resetTransform v)); [reflexivity | apply Inv_resetTransform].
Qed.

Lemma Inv_onOverlayClick (a : Action) (v : View) :
  Inv v -> Inv (onOverlayClick a v).
Proof.
  destruct a; simpl; auto using Inv_closeOverlay with lightbox_inv.
Qed.

Lemma Inv_onKeyDown (k : Key) (v : View) : Inv v -> Inv (onKeyDown k v).
Proof.
  unfold onKeyDown. destruct (overlay v) as [[|]|]; trivial.
  destruct k; auto using Inv_closeOverlay with lightbox_inv.
Qed.

Lemma Inv_onWheel (dy cx cy : Q) (rect : DOMRect) (v : View) :
  Inv (onWheel dy cx cy rect v).
Proof.
  unfold onWheel. destruct (Qltb (scale v) _).
  - apply (Inv_same_scale (stepZoom ((if Qltb dy 0 then 1 else -1) * SCALE_STEP) v));
      [reflexivity | apply Inv_setScale].
  - apply Inv_setScale.
Qed.

Lemma Inv_onPointerUp (e : PointerEvent) (v : View) :
  Inv v -> Inv (onPointerUp e v).
Proof.
  apply Inv_same_scale. unfold onPointerUp.
  destruct (List.length _ <? 2)%nat; reflexivity.
Qed.

Section AnyHypot.

Variable hypot : Q -> Q -> Q.

Lemma Inv_onPointerDown (e : PointerEvent) (v : View) :
  Inv v -> Inv (onPointerDown hypot e v).
Proof.
  apply Inv_same_scale. unfold onPointerDown.
  destruct (List.length _ =? 1)%nat; [reflexivity |].
  destruct (map_values _) as [| a [| b [| c l]]]; reflexivity.
Qed.

(** The guard of the pinch branch keeps the divisor away from zero. *)
Lemma guarded_div (a d : Q) :
  Qltb 0 d = true -> div64 a d = Some (round64 (a / d)).
Proof.
  intros H. apply Qltb_lt in H. unfold div64.
  destruct (Qeq_bool d 0) eqn:E; [| reflexivity].
  apply Qeq_bool_iff in E. lra.
Qed.

Lemma onPointerMove_total (e : PointerEvent) (v : View) :
  exists v', onPointerMove hypot e v = Some v'.
Proof.
  unfold onPointerMove. destruct (negb _); [eexists; reflexivity |].
  destruct (map_values _) as [| a [| b [| c l]]]; try (eexists; reflexivity).
  - destruct (isDragging _); eexists; reflexivity.
  - destruct (Qltb 0 _) eqn:G; [| eexists; reflexivity].
    rewrite (guarded_div _ _ G). eexists; reflexivity.
Qed.

Lemma Inv_onPointerMove (e : PointerEvent) (v v' : View) :
  onPointerMove hypot e v = Some v' -> Inv v -> Inv v'.
Proof.
  unfold onPointerMove. destruct (negb _); [intros [= <-]; trivial |].
  destruct (map_values _) as [| a [| b [| c l]]].
  - intros [= <-]. apply Inv_same_scale. reflexivity.
  - destruct (isDragging _); intros [= <-]; apply Inv_same_scale; reflexivity.
  - destruct (Qltb 0 _); [| intros [= <-]; apply Inv_same_scale; reflexivity].
    destruct (div64 _ _); [| discriminate].
    intros [= <-] _. apply Inv_setScale.
  - intros [= <-]. apply Inv_same_scale. reflexivity.
Qed.

Lemma step_total (v : View) (ev : Event) : exists v', step hypot v ev = Some v'.
Proof.
  destruct ev; simpl; try (eexists; reflexivity). apply onPointerMove_total.
Qed.

Lemma Inv_step (v v' : View) (ev : Event) :
  step hypot v ev = Some v' -> Inv v -> Inv v'.
Proof.
  destruct ev; simpl; try (intros [= <-]);
    auto using Inv_openOverlay, Inv_onOverlayClick, Inv_onKeyDown,
      Inv_onWheel, Inv_onPointerDown, Inv_onPointerUp.
  apply Inv_onPointerMove.
Qed.

Lemma run_Inv (evs : list Event) (v : View) :
  Inv v -> exists v', run hypot evs v = Some v' /\ Inv v'.
Proof.
  revert v. induction evs as [| ev evs IH]; intros v H; simpl.
  - exists v. split; [reflexivity | exact H].
  - destruct (step_total v ev) as [v1 E]. rewrite E.
    apply IH. exact (Inv_step _ _ _ E H).
Qed.

(** C1.  Whatever sequence of events the viewer receives (clicks on the
    toolbar, keys, wheel ticks, pointer gestures with their pinch updates,
    opening and closing), it ends in a view whose scale lies in [1, 5];
    and from that view the reset action, by the toolbar button or by the
    key 0 while the overlay is shown, gives scale 1 and pan (0, 0). *)
Theorem scale_stays_clamped_and_reset_restores (evs : list Event) :
  exists v,
    run hypot evs initial = Some v /\
    1 <= scale v <= 5 /\
    (let r := onOverlayClick reset v in
     scale r == 1 /\ panX r == 0 /\ panY r == 0) /\
    (let r := onKeyDown Zero (set_overlay (Some false) v) in
     scale r == 1 /\ panX r == 0 /\ panY r == 0) /\
    (let r := resetTransform v in
     scale r == 1 /\ panX r == 0 /\ panY r == 0).
Proof.
  destruct (run_Inv evs initial Inv_initial) as [v [E [R _]]].
  exists v. split; [exact E |]. split; [exact R |].
  simpl. repeat split; reflexivity.
Qed.

(** *** Wheel ticks *)

Lemma grid_shift (k : Z) (d : Z) : (k # 100) + (d # 100) == (k + d) # 100.
Proof. unfold Qeq, Qplus; cbn [Qnum Qden]. lia. Qed.

Lemma stepZoom_in_scale (v : View) :
  Inv v -> scale (stepZoom (1 * SCALE_STEP) v) == Qmin 5 (scale v + (1 # 4)).
Proof.
  intros [[Hlo Hhi] [k Hk]]. unfold stepZoom. rewrite scale_setScale.
  assert (C : clamp (scale v + 1 * SCALE_STEP) == Qmin 5 (scale v + (1 # 4))).
  { unfold clamp, MAX_SCALE, MIN_SCALE, SCALE_STEP.
    destruct (Q.max_spec 1 (scale v + 1 * (1 # 4))) as [[? E] | [? E]];
    destruct (Q.min_spec 5 (Qmax 1 (scale v + 1 * (1 # 4)))) as [[? E1] | [? E1]];
    destruct (Q.min_spec 5 (scale v + (1 # 4))) as [[? E2] | [? E2]]; lra. }
  rewrite <- C.
  destruct (Q.min_spec 5 (scale v + (1 # 4))) as [[? E] | [? E]].
  - apply (toFixed2_on_grid _ 500). rewrite C, E. reflexivity.
  - apply (toFixed2_on_grid _ (k + 25)). rewrite C, E, Hk, <- grid_shift. apply Qplus_comp; reflexivity.
Qed.

Lemma stepZoom_out_scale (v : View) :
  Inv v -> scale (stepZoom (-1 * SCALE_STEP) v) == Qmax 1 (scale v - (1 # 4)).
Proof.
  intros [[Hlo Hhi] [k Hk]]. unfold stepZoom. rewrite scale_setScale.
  assert (C : clamp (scale v + -1 * SCALE_STEP) == Qmax 1 (scale v - (1 # 4))).
  { unfold clamp, MAX_SCALE, MIN_SCALE, SCALE_STEP.
    destruct (Q.max_spec 1 (scale v + -1 * (1 # 4))) as [[? E] | [? E]];
    destruct (Q.min_spec 5 (Qmax 1 (scale v + -1 * (1 # 4)))) as [[? E1] | [? E1]];
    destruct (Q.max_spec 1 (scale v - (1 # 4))) as [[? E2] | [? E2]]; lra. }
  rewrite <- C.
  destruct (Q.max_spec 1 (scale v - (1 # 4))) as [[? E] | [? E]].
  - apply (toFixed2_on_grid _ (k + -25)).
    rewrite C, E, <- grid_shift, <- Hk. unfold Qminus. apply Qplus_comp; reflexivity.
  - apply (toFixed2_on_grid _ 100). rewrite C, E. reflexivity.
Qed.

Lemma pan_setScale (next : Q) (v : View) :
  let v1 := setScale next false v in
  if Qeq_bool (scale v1) 1
  then panX v1 = 0 /\ panY v1 = 0
  else panX v1 = panX v /\ panY v1 = panY v.
Proof.
  cbv zeta. rewrite scale_setScale. unfold setScale, MIN_SCALE. simpl negb. 
  rewrite andb_true_l.
  destruct (Qeq_bool (toFixed2 (clamp next)) 1); split; reflexivity.
Qed.

Lemma scale_onWheel (dy cx cy : Q) (rect : DOMRect) (v : View) :
  scale (onWheel dy cx cy rect v) =
  scale (stepZoom ((if Qltb dy 0 then 1 else -1) * SCALE_STEP) v).
Proof. unfold onWheel. destruct (Qltb (scale v) _); reflexivity. Qed.

(** C6, as the code has it.  On a reachable view a wheel tick steps the
    scale by a quarter in the wheel direction, within [1, 5]: upwards when
    [deltaY] is negative, downwards otherwise.  The pan moves by 5% of the
    cursor's offset from the centre of the image exactly when the tick made
    the scale grow, that is on an upward tick below the maximum; on every
    other tick there is no nudge: the pan is what the zoom step left, set to
    (0, 0) when the scale is 1 and unchanged otherwise. *)
Theorem wheel_steps_scale_and_nudges_only_when_growing (evs : list Event) :
  exists v,
    run hypot evs initial = Some v /\
    forall (deltaY cX cY : Q) (rect : DOMRect),
      let v' := onWheel deltaY cX cY rect v in
      let offsetX := cX - (rect_left rect + rect_width rect / 2) in
      let offsetY := cY - (rect_top rect + rect_height rect / 2) in
      (deltaY < 0 -> scale v' == Qmin 5 (scale v + (1 # 4))) /\
      (0 <= deltaY -> scale v' == Qmax 1 (scale v - (1 # 4))) /\
      (scale v < scale v' <-> deltaY < 0 /\ scale v < 5) /\
      (scale v < scale v' ->
         panX v' == panX v + offsetX * (5 # 100) /\
         panY v' == panY v + offsetY * (5 # 100)) /\
      (scale v' <= scale v ->
         if Qeq_bool (scale v') 1
         then panX v' == 0 /\ panY v' == 0
         else panX v' == panX v /\ panY v' == panY v).
Proof.
  destruct (run_Inv evs initial Inv_initial) as [v [E HI]].
  exists v. split; [exact E |]. intros dy cx cy rect v' ox oy.
  pose proof (scale_onWheel dy cx cy rect v) as S. fold v' in S.
  pose proof (stepZoom_in_scale v HI) as Sin.
  pose proof (stepZoom_out_scale v HI) as Sout.
  destruct HI as [[Hlo Hhi] _].
  assert (Up : dy < 0 -> scale v' == Qmin 5 (scale v + (1 # 4))).
  { intros H. apply Qltb_lt in H. rewrite S, H. exact Sin. }
  assert (Down : 0 <= dy -> scale v' == Qmax 1 (scale v - (1 # 4))).
  { intros H. apply Qltb_ge in H. rewrite S, H. exact Sout. }
  assert (Grow : scale v < scale v' <-> dy < 0 /\ scale v < 5).
  { destruct (Qlt_le_dec dy 0) as [H | H].
    - specialize (Up H).
      destruct (Q.min_spec 5 (scale v + (1 # 4))) as [[? M] | [? M]];
        split; [intros ?; split; lra | intros [_ ?]; lra
               | intros ?; split; lra | intros [_ ?]; lra].
    - specialize (Down H).
      destruct (Q.max_spec 1 (scale v - (1 # 4))) as [[? M] | [? M]];
        split; intros; lra. }
  split; [exact Up |]. split; [exact Down |]. split; [exact Grow |].
  pose proof (pan_setScale (scale v + (if Qltb dy 0 then 1 else -1) * SCALE_STEP) v) as P.
  cbv zeta in P. fold (stepZoom ((if Qltb dy 0 then 1 else -1) * SCALE_STEP) v) in P.
  rewrite <- S in P.
  split.
  - intros G.
    assert (N1 : Qeq_bool (scale v') 1 = false).
    { destruct (Qeq_bool (scale v') 1) eqn:B; [| reflexivity].
      apply Qeq_bool_iff in B. lra. }
    rewrite N1 in P. destruct P as [Px Py].
    assert (T : Qltb (scale v)
                  (scale (stepZoom ((if Qltb dy 0 then 1 else -1) * SCALE_STEP) v)) = true).
    { apply Qltb_lt. rewrite <- S. exact G. }
    subst v'. unfold onWheel. rewrite T. cbn [panX panY set_transform].
    rewrite Px, Py. split; reflexivity.
  - intros G.
    assert (T : Qltb (scale v)
                  (scale (stepZoom ((if Qltb dy 0 then 1 else -1) * SCALE_STEP) v)) = false).
    { apply Qltb_ge. rewrite <- S. exact G. }
    assert (V : v' = stepZoom ((if Qltb dy 0 then 1 else -1) * SCALE_STEP) v).
    { subst v'. unfold onWheel. rewrite T. reflexivity. }
    rewrite <- V in P.
    destruct (Qeq_bool (scale v') 1); destruct P as [-> ->]; split; reflexivity.
Qed.

(** *** The grid of hundredths *)

Lemma hundredth_inject (k : Z) : k # 100 == inject_Z k * (1 # 100).
Proof. unfold Qeq, Qmult, inject_Z; cbn [Qnum Qden]. lia. Qed.

(** C8.  [setScale] stores the clamped value rounded to two decimals: the
    stored scale is an integer multiple of 0.01 within half a hundredth of
    the clamped value.  So is the scale after any sequence of events.  A
    pinch update stores the rounded, clamped product of the scale at the
    start of the pinch and the ratio of the distances, not the product
    itself; quotient and product are the binary64 ones the script
    computes. *)
Theorem scale_is_quantised_to_hundredths (evs : list Event) :
  (forall (next : Q) (keepPan : bool) (v : View),
     let v' := setScale next keepPan v in
     scale v' = toFixed2 (clamp next) /\
     (exists k : Z, scale v' == inject_Z k * (1 # 100)) /\
     clamp next - (1 # 200) < scale v' /\ scale v' <= clamp next + (1 # 200)) /\
  (exists (v : View) (k : Z),
     run hypot evs initial = Some v /\ scale v == inject_Z k * (1 # 100)) /\
  (forall (v : View) (e a b : PointerEvent),
     map_has (pointerId e) (pointers v) = true ->
     map_values (map_set (pointerId e) e (pointers v)) = [a; b] ->
     0 < initialPinchDistance v ->
     exists v',
       onPointerMove hypot e v = Some v' /\
       scale v' =
       toFixed2 (clamp (mul64 (round64 (pinchStartScale v))
                          (round64 (distanceBetween hypot a b
                                    / initialPinchDistance v))))).
Proof.
  split; [| split].
  - intros next keepPan v v'. subst v'. rewrite scale_setScale.
    split; [reflexivity |]. split.
    + eexists. apply hundredth_inject.
    + apply toFixed2_near.
  - destruct (run_Inv evs initial Inv_initial) as [v [E [_ [k Hk]]]].
    exists v, k. split; [exact E |]. rewrite Hk. apply hundredth_inject.
  - intros v e a b Hhas Hvals Hpos.
    unfold onPointerMove. rewrite Hhas. simpl negb. cbv iota.
    rewrite Hvals.
    change (initialPinchDistance (set_pointers _ v)) with (initialPinchDistance v).
    change (pinchStartScale (set_pointers _ v)) with (pinchStartScale v).
    apply Qltb_lt in Hpos. rewrite Hpos, (guarded_div _ _ Hpos).
    eexists. split; [reflexivity |]. apply scale_setScale.
Qed.

(** *** A pinch that starts at distance zero *)

Lemma moves_keep_scale_without_baseline (moves : list PointerEvent) (w : View) :
  initialPinchDistance w <= 0 ->
  exists w',
    run hypot (map PointerMove moves) w = Some w' /\
    scale w' = scale w /\
    initialPinchDistance w' = initialPinchDistance w.
Proof.
  revert w. induction moves as [| m moves IH]; intros w Hz; simpl.
  - exists w. auto.
  - assert (S : exists w1, onPointerMove hypot m w = Some w1 /\
                  scale w1 = scale w /\
                  initialPinchDistance w1 = initialPinchDistance w).
    { unfold onPointerMove. destruct (negb _); [exists w; auto |].
      destruct (map_values _) as [| a [| b [| c l]]].
      - eexists; split; [reflexivity | split; reflexivity].
      - destruct (isDragging _); eexists; (split; [reflexivity | split; reflexivity]).
      - change (initialPinchDistance (set_pointers _ w)) with (initialPinchDistance w).
        destruct (Qltb 0 (initialPinchDistance w)) eqn:G.
        + apply Qltb_lt in G. lra.
        + eexists; split; [reflexivity | split; reflexivity].
      - eexists; split; [reflexivity | split; reflexivity]. }
    destruct S as [w1 [E1 [S1 D1]]]. rewrite E1.
    destruct (IH w1) as [w' [E' [S' D']]]; [rewrite D1; exact Hz |].
    exists w'. split; [exact E' |]. split; congruence.
Qed.

(** C9.  When a second pointer goes down on the coordinates of the one
    already active, the pinch baseline is the distance 0; the pointer moves
    that follow, however many, leave the scale as it was, because the ratio
    is computed only under the guard [initialPinchDistance > 0].  By the
    same guard no pointer move, in any state, evaluates a quotient by
    zero. *)
Theorem pinch_from_coincident_pointers_keeps_scale
    (hypot_zero : forall dx dy : Q, dx == 0 -> dy == 0 -> hypot dx dy == 0)
    (v : View) (i : Z) (a e : PointerEvent)
    (Hone : pointers v = [(i, a)])
    (Hnew : pointerId e <> i)
    (Hx : clientX e == clientX a)
    (Hy : clientY e == clientY a)
    (moves : list PointerEvent) :
  let v1 := onPointerDown hypot e v in
  map_values (pointers v1) = [a; e] /\
  initialPinchDistance v1 == 0 /\
  (exists v2,
     run hypot (map PointerMove moves) v1 = Some v2 /\ scale v2 = scale v) /\
  (forall (w : View) (m : PointerEvent),
     exists w', onPointerMove hypot m w = Some w').
Proof.
  assert (D : onPointerDown hypot e v =
              set_gesture [(i, a); (pointerId e, e)] (isDragging v)
                (dragStartX v) (dragStartY v) (distanceBetween hypot a e)
                (scale v) v).
  { unfold onPointerDown. rewrite Hone. cbn [map_set].
    destruct (Z.eqb_spec (pointerId e) i) as [Heq | _]; [contradiction |].
    reflexivity. }
  cbv zeta. rewrite D. cbn [pointers initialPinchDistance set_gesture map_values map snd].
  assert (Z0 : distanceBetween hypot a e == 0).
  { unfold distanceBetween. apply hypot_zero; lra. }
  split; [reflexivity |]. split; [exact Z0 |]. split.
  - destruct (moves_keep_scale_without_baseline moves
                (set_gesture [(i, a); (pointerId e, e)] (isDragging v)
                   (dragStartX v) (dragStartY v) (distanceBetween hypot a e)
                   (scale v) v)) as [v2 [E2 [S2 _]]].
    + cbn [initialPinchDistance set_gesture]. lra.
    + exists v2. split; [exact E2 | exact S2].
  - intros w m. apply onPointerMove_total.
Qed.

End AnyHypot.

(** *** The model run on concrete gestures *)

Lemma hypot_dyadic_zero (dx dy : Q) :
  dx == 0 -> dy == 0 -> hypot_dyadic dx dy == 0.
Proof.
  intros Hx Hy. unfold hypot_dyadic.
  assert (E : (dx * dx + dy * dy) * inject_Z (2 ^ 52) == 0).
  { rewrite Hx, Hy. reflexivity. }
  rewrite (Qfloor_comp _ _ E). reflexivity.
Qed.

Example zoomed_four_steps :
  exists v, run hypot_dyadic opened_and_zoomed initial = Some v /\
            scale v == 2 /\ panX v == 0 /\ panY v == 0.
Proof. eexists. split; [vm_compute; reflexivity |]. vm_compute. auto. Qed.

Example zoom_in_saturates :
  exists v, run hypot_dyadic (repeat (KeyDown Plus) 30)
              (openOverlay (Some "/media/a.png"%string) initial) = Some v /\
            scale v == 5.
Proof. eexists. split; [vm_compute; reflexivity |]. vm_compute. auto. Qed.

Example wheel_up_nudges :
  exists v, run hypot_dyadic (opened_and_zoomed ++ [Wheel (-100) 150 50 square_rect])
              initial = Some v /\
            scale v == 9 # 4 /\ panX v == 5 /\ panY v == 0.
Proof. eexists. split; [vm_compute; reflexivity |]. vm_compute. auto. Qed.

Example pinch_is_rounded :
  exists v, run hypot_dyadic
              [ViewerClick (Some "/media/a.png"%string);
               PointerDown (finger 1 0 0); PointerDown (finger 2 3 0);
               PointerMove (finger 2 4 0)] initial = Some v /\
            initialPinchDistance v == 3 /\
            scale v == 133 # 100 /\ ~ scale v == 4 # 3.
Proof.
  eexists. split; [vm_compute; reflexivity |].
  vm_compute. repeat split; discriminate.
Qed.

(** Two fingers 200 px apart move to 201 px apart: the binary64 quotient
    lies below 1.005, and the scale stays at 1.00, where the quotient of
    the reals, 1.005, would have been rounded up to 1.01. *)
Example pinch_ratio_is_the_binary64_one :
  exists v, run hypot_dyadic
              [ViewerClick (Some "/media/a.png"%string);
               PointerDown (finger 1 0 0); PointerDown (finger 2 200 0);
               PointerMove (finger 2 201 0)] initial = Some v /\
            initialPinchDistance v == 200 /\
            scale v == 1 /\
            round64 (201 # 200) < 201 # 200 /\
            toFixed2 (clamp (1 * (201 # 200))) == 101 # 100.
Proof.
  eexists. split; [vm_compute; reflexivity |].
  vm_compute. repeat split.
Qed.

(** C6, the claim as the specification words it, fails on a downward
    tick: at scale 2 with the cursor 100 px right of the centre of the
    image, the tick takes the scale to 1.75 and leaves the pan at 0, not
    at the 5 px a nudge of 5% would give. *)
Lemma wheel_down_tick_has_no_nudge :
  exists v,
    run hypot_dyadic opened_and_zoomed initial = Some v /\
    let v' := onWheel 100 150 50 square_rect v in
    scale v == 2 /\ scale v' == 7 # 4 /\
    panX v' == 0 /\
    ~ panX v' == panX v + (150 - (rect_left square_rect + rect_width square_rect / 2)) * (5 # 100).
Proof.
  eexists. split; [vm_compute; reflexivity |].
  vm_compute. repeat split; discriminate.
Qed.

Lemma pinch_from_coincident_pointers_witness :
  let v1 := onPointerDown hypot_dyadic (finger 2 40 60) one_finger_down in
  map_values (pointers v1) = [finger 1 40 60; finger 2 40 60] /\
  initialPinchDistance v1 == 0 /\
  (exists v2,
     run hypot_dyadic
       (map PointerMove [finger 2 90 60; finger 1 10 20; finger 2 300 400]) v1
       = Some v2 /\
     scale v2 = scale one_finger_down) /\
  (forall (w : View) (m : PointerEvent),
     exists w', onPointerMove hypot_dyadic m w = Some w').
Proof.
  apply (pinch_from_coincident_pointers_keeps_scale hypot_dyadic
           hypot_dyadic_zero one_finger_down 1 (finger 1 40 60) (finger 2 40 60)).
  - reflexivity.
  - simpl. lia.
  - reflexivity.
  - reflexivity.
Defined.

End LightboxSpec.

(** ** The gallery: empty state and merge by id *)

Module GallerySpec.
Import JS Gallery.

Section AnyLabel.

Variable label : string.

Lemma in_sync_exclusive (d : Dom) :
  in_sync d -> xorb (card_rendered d) (empty_state_visible d) = true.
Proof.
  intros [cards [e [-> H]]]. unfold card_rendered, empty_state_visible. simpl.
  rewrite H. destruct cards; reflexivity.
Qed.

Lemma updateEmptyState_in_sync (cards : list Card) (e : EmptyState) :
  in_sync (updateEmptyState label
             {| attachmentsList := Some cards; emptyState := Some e |}).
Proof.
  unfold updateEmptyState. simpl. eexists _, _. split; reflexivity.
Qed.

Lemma addAttachmentFromMeta_in_sync (meta : Entry) (d : Dom) :
  in_sync d -> in_sync (addAttachmentFromMeta label meta d).
Proof.
  intros H. pose proof H as [cards [e [-> _]]].
  unfold addAttachmentFromMeta. simpl.
  destruct (renderAttachment meta) as [element |]; [| exact H].
  apply updateEmptyState_in_sync.
Qed.

Lemma merge_all_in_sync (entries : list Entry) (d : Dom) :
  in_sync d ->
  in_sync (fold_left (fun acc meta => addAttachmentFromMeta label meta acc) entries d).
Proof.
  revert d. induction entries as [| meta entries IH]; intros d H; simpl.
  - exact H.
  - apply IH, addAttachmentFromMeta_in_sync, H.
Qed.

(** C2.  On a page that has the list and the placeholder, whatever cards
    and whatever [hidden] flag the server rendered: after the initial
    [updateEmptyState] and after each entry merged by
    [addAttachmentFromMeta], either a card is rendered or the placeholder
    is visible, and not both. *)
Theorem cards_or_placeholder_never_both
    (cards : list Card) (e : EmptyState) (entries : list Entry) :
  let initialised :=
    updateEmptyState label
      {| attachmentsList := Some cards; emptyState := Some e |} in
  let d :=
    fold_left (fun acc meta => addAttachmentFromMeta label meta acc)
      entries initialised in
  xorb (card_rendered d) (empty_state_visible d) = true /\
  (card_rendered d = true /\ empty_state_visible d = false \/
   card_rendered d = false /\ empty_state_visible d = true).
Proof.
  cbv zeta.
  pose proof (in_sync_exclusive _
                (merge_all_in_sync entries _ (updateEmptyState_in_sync cards e))) as X.
  split; [exact X |].
  destruct (card_rendered _), (empty_state_visible _); simpl in X;
    try discriminate; auto.
Qed.

(** *** Merge by id *)

Lemma remove_first_absent (i : string) (cards : list Card) :
  has_id i cards = false -> remove_first i cards = cards.
Proof.
  induction cards as [| c cards IH]; simpl; [reflexivity |].
  destruct (String.eqb (attachmentId c) i); simpl; [discriminate |].
  intros H. rewrite IH by exact H. reflexivity.
Qed.

Lemma remove_first_present (i : string) (cards : list Card) :
  has_id i cards = true ->
  exists before old after,
    cards = before ++ old :: after /\
    attachmentId old = i /\
    has_id i before = false /\
    remove_first i cards = before ++ after.
Proof.
  induction cards as [| c cards IH]; simpl; [discriminate |].
  destruct (String.eqb (attachmentId c) i) eqn:E; simpl.
  - intros _. exists [], c, cards. apply String.eqb_eq in E. auto.
  - intros H. destruct (IH H) as [before [old [after [-> [Hid [Hb Hr]]]]]].
    exists (c :: before), old, after. simpl. rewrite E, Hr. auto.
Qed.

Lemma insert_at_front (element : Card) (cards : list Card) :
  match cards with
  | first :: _ => element :: cards
  | [] => cards ++ [element]
  end = element :: cards.
Proof. destruct cards; reflexivity. Qed.

Lemma addAttachmentFromMeta_cards (m : Meta) (cards : list Card)
    (e : option EmptyState) :
  exists element,
    renderAttachment (Object m) = Some element /\
    attachmentId element = meta_id m /\
    attachmentsList
      (addAttachmentFromMeta label (Object m)
         {| attachmentsList := Some cards; emptyState := e |})
    = Some (element :: remove_first (meta_id m) cards).
Proof.
  eexists. split; [reflexivity |]. split; [reflexivity |].
  unfold addAttachmentFromMeta. cbn [attachmentsList renderAttachment attachmentId emptyState].
  rewrite insert_at_front. unfold updateEmptyState. cbn [attachmentsList emptyState].
  destruct e; reflexivity.
Qed.

End AnyLabel.

End GallerySpec.

(** ** The upload queue: removal timers, failure messages, merging *)

Module UploaderSpec.
Import JS Gallery Uploader.

Lemma is_attached_remove_item (k k' : nat) (p : Page) :
  is_attached k (remove_item k' p) = is_attached k p && negb (Nat.eqb k' k).
Proof.
  unfold is_attached, remove_item. destruct (queue p) as [q |]; [| reflexivity].
  cbn [queue queue_children].
  induction (queue_children q) as [| c cs IH]; [reflexivity |].
  cbn [filter existsb].
  destruct (Nat.eqb_spec c k') as [-> | Hc]; cbn [negb].
  - rewrite IH. destruct (Nat.eqb_spec k k') as [-> | Hk].
    + rewrite Nat.eqb_refl. cbn. rewrite andb_false_r. reflexivity.
    + reflexivity.
  - cbn [existsb]. rewrite IH.
    destruct (Nat.eqb_spec k c) as [-> | Hk]; [| reflexivity].
    destruct (Nat.eqb_spec k' c) as [-> | _]; [contradiction | reflexivity].
Qed.

Lemma is_attached_fire (t : N) (pending : list (N * nat)) (p : Page) (k : nat) :
  is_attached k (snd (fire t pending p)) =
  is_attached k p && negb (existsb (due_for t k) pending).
Proof.
  revert p. induction pending as [| [due k'] rest IH]; intros p; cbn [fire existsb].
  - cbn. rewrite andb_true_r. reflexivity.
  - unfold due_for at 1. cbn [fst snd].
    destruct (due <=? t)%N; cbn [andb].
    + rewrite IH, is_attached_remove_item.
      destruct (Nat.eqb k' k); cbn [negb orb].
      * rewrite !andb_false_r. reflexivity.
      * rewrite andb_true_r. reflexivity.
    + specialize (IH p). destruct (fire t rest p) as [kept p']. exact IH.
Qed.

Lemma is_attached_elapse (dt : N) (p : Page) (k : nat) :
  is_attached k (elapse dt p) =
  is_attached k p && negb (existsb (due_for (now p + dt) k) (timers p)).
Proof.
  rewrite <- is_attached_fire. unfold elapse.
  destruct (fire (now p + dt) (timers p) p) as [kept p']. reflexivity.
Qed.

Lemma no_timer_none_due (t : N) (k : nat) (p : Page) :
  has_timer k p = false -> existsb (due_for t k) (timers p) = false.
Proof.
  unfold has_timer. induction (timers p) as [| tm rest IH]; cbn [existsb]; [reflexivity |].
  intros H. apply orb_false_iff in H. destruct H as [H1 H2].
  unfold due_for at 1. rewrite H1, andb_false_r. exact (IH H2).
Qed.

Lemma item_of_update (k : nat) (f : QueueItem -> QueueItem) (p : Page)
    (it : QueueItem) :
  (forall x, item_key (f x) = item_key x) ->
  item_of k p = Some it -> item_of k (update_item k f p) = Some (f it).
Proof.
  intros Hkey. unfold item_of, update_item. cbn [items].
  induction (items p) as [| x xs IH]; cbn [find map]; [discriminate |].
  destruct (Nat.eqb (item_key x) k) eqn:E.
  - intros [= ->]. rewrite Hkey, E. reflexivity.
  - rewrite E. exact IH.
Qed.

Section AnyLabels.

Variable labels : Labels.

Lemma onLoad_failure (k : nat) (status : N) (response : option Response)
    (p : Page) :
  is_success status = false ->
  queue (onLoad labels k status response p) = queue p /\
  timers (onLoad labels k status response p) = timers p /\
  now (onLoad labels k status response p) = now p /\
  gallery (onLoad labels k status response p) = gallery p.
Proof.
  intros H. unfold onLoad. destruct response as [r |]; [rewrite H |]; repeat split.
Qed.

Lemma onLoad_success (k : nat) (status : N) (response : Response) (p : Page) :
  is_success status = true ->
  queue (onLoad labels k status (Some response) p) = queue p /\
  timers (onLoad labels k status (Some response) p)
    = timers p ++ [((now p + 2500)%N, k)] /\
  now (onLoad labels k status (Some response) p) = now p.
Proof. intros H. unfold onLoad. rewrite H. repeat split. Qed.


Lemma is_attached_queue (k : nat) (p p' : Page) :
  queue p' = queue p -> is_attached k p' = is_attached k p.
Proof. unfold is_attached. intros ->. reflexivity. Qed.

(** C3, as the code has it.  For an item that sits in the queue with no
    removal pending, and a reply that carries a JSON body: a 2xx reply
    marks the item complete and sets a timeout of 2500 ms, and the item is
    in the queue as long as less than 2500 ms have passed and out of it
    from then on; a reply with another status marks it as an error, sets
    no timeout, and the item stays in the queue however much time passes;
    so it is after a network error. *)
Theorem complete_item_leaves_after_2500ms_error_item_stays
    (p : Page) (k : nat) (it : QueueItem) (status : N)
    (response : Response) (dt : N)
    (Hitem : item_of k p = Some it)
    (Hattached : is_attached k p = true)
    (Hnone : has_timer k p = false) :
  (is_success status = true ->
     let p' := onLoad labels k status (Some response) p in
     (exists it', item_of k p' = Some it' /\
                  item_complete it' = true /\ item_error it' = false) /\
     timers p' = timers p ++ [((now p + 2500)%N, k)] /\
     is_attached k (elapse dt p') = (dt <? 2500)%N) /\
  (is_success status = false ->
     let p' := onLoad labels k status (Some response) p in
     (exists it', item_of k p' = Some it' /\ item_error it' = true) /\
     timers p' = timers p /\
     is_attached k (elapse dt p') = true) /\
  (let p' := onError labels k p in
   (exists it', item_of k p' = Some it' /\ item_error it' = true) /\
   timers p' = timers p /\
   is_attached k (elapse dt p') = true).
Proof.
  split; [| split].
  - intros Hs p'. subst p'.
    destruct (onLoad_success k status response p Hs) as [Hq [Ht Hn]].
    split; [| split; [exact Ht |]].
    + unfold onLoad. rewrite Hs. unfold item_of, scheduleQueueRemoval. cbn [items].
      eexists. split.
      * apply (item_of_update k _ p it); [reflexivity | exact Hitem].
      * split; reflexivity.
    + rewrite is_attached_elapse, Ht, Hn, (is_attached_queue k _ _ Hq), Hattached.
      rewrite existsb_app, (no_timer_none_due _ k p Hnone).
      cbn [existsb orb andb]. unfold due_for. cbn [fst snd].
      rewrite Nat.eqb_refl, andb_true_r, orb_false_r.
      destruct (N.leb_spec (now p + 2500) (now p + dt)) as [H | H];
        destruct (N.ltb_spec dt 2500) as [H' | H']; cbn [negb]; try reflexivity; lia.
  - intros Hs p'. subst p'.
    destruct (onLoad_failure k status (Some response) p Hs) as [Hq [Ht [Hn _]]].
    split; [| split; [exact Ht |]].
    + unfold onLoad. rewrite Hs. eexists. split.
      * apply (item_of_update k _ p it); [reflexivity | exact Hitem].
      * reflexivity.
    + rewrite is_attached_elapse, Ht, (is_attached_queue k _ _ Hq), Hattached.
      rewrite (no_timer_none_due _ k _ Hnone). reflexivity.
  - cbv zeta. split; [| split; [reflexivity |]].
    + eexists. split.
      * apply (item_of_update k _ p it); [reflexivity | exact Hitem].
      * reflexivity.
    + rewrite is_attached_elapse. change (timers (onError labels k p)) with (timers p).
      rewrite (no_timer_none_due _ k p Hnone).
      change (is_attached k (onError labels k p)) with (is_attached k p).
      rewrite Hattached. reflexivity.
Qed.

(** *** The message of a failed upload *)

Lemma or_else_truthy (o : option string) (d s : string) :
  o = Some s -> s <> EmptyString -> or_else o d = s.
Proof. intros -> H. destruct s; [contradiction | reflexivity]. Qed.

Lemma or_else_falsy (o : option string) (d : string) :
  truthy_opt o = false -> or_else o d = d.
Proof. destruct o as [[| c s] |]; simpl; intros H; (discriminate || reflexivity). Qed.

(** C4, as the code has it.  When the reply carries a JSON body and its
    status is not 2xx, the item is marked as an error and its status text
    is: the [error] field of the body when it is a non-empty string;
    otherwise the validation messages of the first entry of [errors], all
    of them, joined by a comma and a space, when that text is not empty
    (with a single message it is that message); otherwise the label for a
    failed upload. *)
Theorem failure_message_priority
    (p : Page) (k : nat) (it : QueueItem) (status : N)
    (response : Response)
    (Hitem : item_of k p = Some it)
    (Hfail : is_success status = false) :
  let message := failure_message labels (Some response) in
  (exists it',
     item_of k (onLoad labels k status (Some response) p) = Some it' /\
     item_error it' = true /\ item_status it' = message) /\
  (forall e : string,
     error response = Some e -> e <> EmptyString -> message = e) /\
  (forall reasons : list string,
     truthy_opt (error response) = false ->
     first_file_reasons (Some response) = Some reasons ->
     join ", " reasons <> EmptyString ->
     message = join ", " reasons) /\
  (forall reason : string,
     truthy_opt (error response) = false ->
     first_file_reasons (Some response) = Some [reason] ->
     reason <> EmptyString ->
     message = reason) /\
  (truthy_opt (error response) = false ->
   match first_file_reasons (Some response) with
   | Some reasons => join ", " reasons = EmptyString
   | None => True
   end ->
   message = failed labels).
Proof.
  cbv zeta. unfold failure_message. cbn [structured_error].
  split; [| split; [| split; [| split]]].
  - unfold onLoad. rewrite Hfail. eexists. split.
    + apply (item_of_update k _ p it); [reflexivity | exact Hitem].
    + split; reflexivity.
  - intros e He Hne. apply or_else_truthy; assumption.
  - intros reasons Hs Hr Hne. rewrite (or_else_falsy _ _ Hs), Hr.
    apply or_else_truthy; [reflexivity | exact Hne].
  - intros reason Hs Hr Hne. rewrite (or_else_falsy _ _ Hs), Hr.
    apply or_else_truthy; [reflexivity | exact Hne].
  - intros Hs Hr. rewrite (or_else_falsy _ _ Hs).
    destruct (first_file_reasons (Some response)) as [reasons |]; [| reflexivity].
    cbn [option_map]. rewrite Hr. reflexivity.
Qed.

(** *** Merging the entries of a response *)

(** C5.  A 2xx response merges every entry of its [attachments] array into
    the gallery with [addAttachmentFromMeta], in order.  Merging an entry
    puts its card at the front of the list and takes out the first card
    that had the same id: when no card had the id the list is the old one
    with the new card in front; when one had, the old card is gone and the
    new one stands in front of the others. *)
Theorem upload_entries_are_upserted_by_id :
  (forall (k : nat) (status : N) (response : option Response) (p : Page),
     is_success status = true ->
     gallery (onLoad labels k status response p) =
     fold_left
       (fun d meta => addAttachmentFromMeta (fallbackEmptyLabel labels) meta d)
       (match response with
        | Some r => match attachments r with Some l => l | None => [] end
        | None => []
        end)
       (gallery p)) /\
  (forall (m : Meta) (cards : list Card) (e : option EmptyState),
     exists element,
       renderAttachment (Object m) = Some element /\
       attachmentId element = meta_id m /\
       attachmentsList
         (addAttachmentFromMeta (fallbackEmptyLabel labels) (Object m)
            {| attachmentsList := Some cards; emptyState := e |})
       = Some (element :: remove_first (meta_id m) cards) /\
       (has_id (meta_id m) cards = false ->
        remove_first (meta_id m) cards = cards) /\
       (has_id (meta_id m) cards = true ->
        exists before old after,
          cards = before ++ old :: after /\
          attachmentId old = meta_id m /\
          has_id (meta_id m) before = false /\
          remove_first (meta_id m) cards = before ++ after)).
Proof.
  split.
  - intros k status response p Hs. unfold onLoad.
    destruct response as [r |]; [rewrite Hs |]; reflexivity.
  - intros m cards e.
    destruct (GallerySpec.addAttachmentFromMeta_cards (fallbackEmptyLabel labels) m cards e)
      as [element [Hr [Hid Hl]]].
    exists element. split; [exact Hr |]. split; [exact Hid |]. split; [exact Hl |].
    split.
    + apply GallerySpec.remove_first_absent.
    + apply GallerySpec.remove_first_present.
Qed.

End AnyLabels.

(** *** The model run on a concrete page *)

Local Open Scope string_scope.

Example upload_then_success :
  let p := elapse 2500 (onLoad default_labels 0 201 (Some stored) one_upload) in
  is_attached 0 one_upload = true /\
  is_attached 0 p = false /\
  option_map queue_hidden (queue p) = Some true /\
  card_rendered (gallery p) = true /\
  empty_state_visible (gallery p) = false.
Proof. vm_compute. repeat split. Qed.

(** C3, the claim as the specification words it, fails for the error
    status: the item of an upload the server turns down with status 403
    and a JSON body carries the error class, no timeout is pending for
    it, and it is in the queue 2.5 s later and an hour later; so is the
    item of an upload that ends in a network error. *)
Lemma error_item_is_not_removed :
  let p := onLoad default_labels 0 403 (Some refused) one_upload in
  let p' := onError default_labels 0 one_upload in
  (option_map item_error (item_of 0 p) = Some true /\
   timers p = [] /\
   is_attached 0 (elapse 2500 p) = true /\
   is_attached 0 (elapse 3600000 p) = true) /\
  (option_map item_error (item_of 0 p') = Some true /\
   timers p' = [] /\
   is_attached 0 (elapse 2500 p') = true /\
   is_attached 0 (elapse 3600000 p') = true).
Proof. vm_compute. repeat split. Qed.

Lemma complete_item_leaves_after_2500ms_witness :
  (let p' := onLoad default_labels 0 201 (Some stored) one_upload in
   (exists it', item_of 0 p' = Some it' /\
                item_complete it' = true /\ item_error it' = false) /\
   timers p' = (timers one_upload ++ [((now one_upload + 2500)%N, 0%nat)])%list /\
   is_attached 0 (elapse 2499 p') = (2499 <? 2500)%N) /\
  (is_success 201 = false ->
   let p' := onLoad default_labels 0 201 (Some stored) one_upload in
   (exists it', item_of 0 p' = Some it' /\ item_error it' = true) /\
   timers p' = timers one_upload /\
   is_attached 0 (elapse 2499 p') = true) /\
  (let p' := onError default_labels 0 one_upload in
   (exists it', item_of 0 p' = Some it' /\ item_error it' = true) /\
   timers p' = timers one_upload /\
   is_attached 0 (elapse 2499 p') = true).
Proof.
  destruct (complete_item_leaves_after_2500ms_error_item_stays default_labels
              one_upload 0
              (createQueueItem 0 "plan.png" "Uploading...")
              201 stored 2499
              eq_refl eq_refl eq_refl) as [Hs [Hf He]].
  split; [exact (Hs eq_refl) |]. split; [exact Hf | exact He].
Defined.

(** C4, the claim as the specification words it, fails when the first
    file was turned down for two reasons: the status text is the two
    messages joined, not the first of them. *)
Lemma failure_message_joins_all_reasons :
  let p := onLoad default_labels 0 400 (Some rejected_twice) one_upload in
  option_map item_status (item_of 0 p)
    = Some "File too large., Unsupported file type."%string /\
  option_map item_status (item_of 0 p) <> Some "File too large."%string.
Proof. vm_compute. split; [reflexivity | discriminate]. Qed.

Lemma failure_message_priority_witness :
  let message := failure_message default_labels (Some rejected_twice) in
  (exists it',
     item_of 0 (onLoad default_labels 0 400 (Some rejected_twice) one_upload)
       = Some it' /\
     item_error it' = true /\ item_status it' = message) /\
  message = "File too large., Unsupported file type."%string.
Proof.
  destruct (failure_message_priority default_labels one_upload 0
              (createQueueItem 0 "plan.png" "Uploading...")
              400 rejected_twice eq_refl eq_refl)
    as [Hitem [_ [Hjoin _]]].
  split; [exact Hitem |].
  apply (Hjoin ["File too large."; "Unsupported file type."]%string);
    [reflexivity | reflexivity | discriminate].
Defined.

Example structured_error_wins :
  failure_message default_labels
    (Some {| error := Some "Forbidden"; errors := errors rejected_twice;
             attachments := None |}) = "Forbidden"%string /\
  failure_message default_labels
    (Some {| error := None; errors := None; attachments := None |})
    = "Upload failed"%string /\
  failure_message default_labels
    (Some {| error := Some ""; errors := Some []; attachments := None |})
    = "Upload failed"%string.
Proof. vm_compute. repeat split. Qed.

Example second_upload_of_an_id_moves_to_front :
  let card (i t : string) :=
    {| attachmentId := i; card_title := t; card_viewer := false;
       card_download := None; card_type := None |} in
  let d := {| attachmentsList := Some [card "7" "a.pdf"; card "41" "old.png"; card "9" "b.pdf"];
              emptyState := Some {| hidden := true; textContent := "" |} |} in
  option_map (map attachmentId)
    (attachmentsList
       (gallery (onLoad default_labels 0 200 (Some stored)
                   {| queue := None; items := []; gallery := d;
                      timers := []; now := 0 |})))
  = Some ["41"; "7"; "9"]%string.
Proof. vm_compute. reflexivity. Qed.

End UploaderSpec.

(** ** Preview triggers *)

Module PreviewSpec.
Import JS Preview.

Section AnyLabel.

Variable previewLabel : string.

(** C7.  A click on a document preview trigger (one that does not sit
    inside a viewer trigger): when the trigger's [external] flag is "1",
    one call of [window.open] with the trigger's URL and the target
    [_blank] is made, and the document modal and the lightbox are left as
    they were; when the flag is anything else, no window is opened and the
    trigger goes to [openDocOverlay], which shows the document modal on
    the trigger's URL.  ([openDocOverlay] ignores a trigger that carries
    no URL.) *)
Theorem external_preview_opens_window_otherwise_modal
    (t : Trigger) (p : Page) :
  let p' := onAttachmentsClick previewLabel (OnElement None (Some t)) p in
  (data_external t = Some "1"%string ->
     opened p' = opened p ++ [{| open_url := data_src t; open_target := "_blank" |}] /\
     doc p' = doc p /\ view p' = view p) /\
  (data_external t <> Some "1"%string ->
     opened p' = opened p /\
     view p' = view p /\
     doc p' = openDocOverlay previewLabel t (doc p) /\
     forall src : string,
       data_src t = Some src -> src <> EmptyString ->
       modal_open p' = true /\
       docFrame_src (doc p') = src /\
       docTitle (doc p') = or_else (data_name t) previewLabel).
Proof.
  cbv zeta. unfold onAttachmentsClick, is_external.
  split.
  - intros ->. rewrite String.eqb_refl. auto.
  - intros Hne.
    assert (E : match data_external t with
                | Some flag => String.eqb flag "1"
                | None => false
                end = false).
    { destruct (data_external t) as [flag |]; [| reflexivity].
      destruct (String.eqb_spec flag "1") as [-> | _]; [contradiction | reflexivity]. }
    rewrite E. cbn [doc opened view].
    split; [reflexivity |]. split; [reflexivity |]. split; [reflexivity |].
    intros src Hsrc Hnonempty. unfold modal_open, openDocOverlay. cbn [doc].
    rewrite Hsrc. destruct src; [contradiction |]. repeat split.
Qed.

End AnyLabel.

(** *** The model run on concrete triggers *)

Local Open Scope string_scope.

Example external_trigger_opens_a_window :
  let t := {| data_src := Some "https://view.example/doc?id=3";
              data_name := Some "lease.docx"; data_external := Some "1" |} in
  let p' := onAttachmentsClick "Preview" (OnElement None (Some t)) fresh_page in
  opened p' = [{| open_url := Some "https://view.example/doc?id=3";
                  open_target := "_blank" |}] /\
  modal_open p' = false.
Proof. vm_compute. split; reflexivity. Qed.

Example plain_trigger_opens_the_modal :
  let t := {| data_src := Some "/media/lease.pdf";
              data_name := None; data_external := None |} in
  let p' := onAttachmentsClick "Preview" (OnElement None (Some t)) fresh_page in
  opened p' = []%list /\ modal_open p' = true /\
  docFrame_src (doc p') = "/media/lease.pdf" /\ docTitle (doc p') = "Preview".
Proof. vm_compute. repeat split. Qed.

(** The guard of [openDocOverlay]: a trigger that has neither the flag
    nor a URL opens nothing. *)
Example preview_trigger_without_url_opens_nothing :
  let t := {| data_src := None; data_name := Some "lease.pdf";
              data_external := None |} in
  let p' := onAttachmentsClick "Preview" (OnElement None (Some t)) fresh_page in
  is_external t = false /\
  modal_open p' = false /\
  opened p' = []%list.
Proof. vm_compute. repeat split. Qed.

End PreviewSpec.

(** ** Delete links *)

Module DeleteUrlSpec.
Import JS DeleteUrl.

Local Open Scope string_scope.

Lemma sp_set_absent (name value : string) (ps : list (string * string)) :
  sp_has name ps = false -> sp_set name value ps = (ps ++ [(name, value)])%list.
Proof.
  induction ps as [| [k v] rest IH]; cbn [sp_has existsb sp_set app fst]; [reflexivity |].
  destruct (String.eqb k name); [discriminate |].
  cbn [orb]. intros H. rewrite (IH H). reflexivity.
Qed.

Lemma sp_get_app_absent (name value : string) (ps : list (string * string)) :
  sp_has name ps = false -> sp_get name (ps ++ [(name, value)]) = Some value.
Proof.
  induction ps as [| [k v] rest IH]; cbn [sp_has existsb sp_get app fst].
  - rewrite String.eqb_refl. reflexivity.
  - destruct (String.eqb k name); [discriminate | exact IH].
Qed.

Lemma sp_get_app_other (name other value : string) (ps : list (string * string)) :
  other <> name ->
  sp_get other (ps ++ [(name, value)]) = sp_get other ps.
Proof.
  intros Hne. induction ps as [| [k v] rest IH]; cbn [sp_get app].
  - destruct (String.eqb_spec name other) as [-> | _]; [contradiction | reflexivity].
  - destruct (String.eqb k other); [reflexivity | exact IH].
Qed.

Lemma append_nonempty_l (a b : string) : a <> "" -> a ++ b <> "".
Proof. destruct a; [contradiction | discriminate]. Qed.

Lemma join_nonempty (sep : string) (l : list string) :
  l <> [] -> Forall (fun x => x <> "") l -> join sep l <> "".
Proof.
  unfold join. destruct l as [| x [| y l]]; [contradiction | |]; intros _ H;
    inversion H; subst; cbn [String.concat]; [assumption |].
  apply append_nonempty_l. assumption.
Qed.

Lemma serialize_nonempty (ps : list (string * string)) :
  ps <> [] -> serialize ps <> "".
Proof.
  intros H. unfold serialize. apply join_nonempty.
  - destruct ps; [contradiction | discriminate].
  - apply Forall_forall. intros x Hx. apply in_map_iff in Hx.
    destruct Hx as [[k v] [<- _]]. cbn [fst snd].
    destruct (form_encode k); discriminate.
Qed.

Section AnyWindow.

Variable parseURL : string -> option URL.
Variable deleteNext : string.

(** C10.  A link that already has a [next] parameter keeps it: the parsed
    URL is not touched and comes back as its path, query and fragment;
    on the fallback path (the constructor threw) a link that contains
    [next=] comes back as it was given.  The return target is set only
    where [next] was absent: it is then appended as the value of [next],
    the other parameters keep their values, and whenever the parsed URL is
    changed at all it had no [next] before. *)
Theorem existing_next_is_never_overwritten (url : string) :
  (forall parsed : URL,
     parseURL url = Some parsed ->
     sp_has "next" (searchParams parsed) = true ->
     decorateParsed deleteNext parsed = parsed /\
     sp_get "next" (searchParams (decorateParsed deleteNext parsed))
       = sp_get "next" (searchParams parsed) /\
     (url <> "" ->
      decorateDeleteUrl parseURL deleteNext url = pathname parsed ++ search parsed ++ hash parsed)) /\
  (parseURL url = None ->
   includes url "next=" = true ->
   decorateDeleteUrl parseURL deleteNext url = url) /\
  (forall parsed : URL,
     parseURL url = Some parsed ->
     sp_has "next" (searchParams parsed) = false ->
     deleteNext <> "" ->
     let parsed' := decorateParsed deleteNext parsed in
     searchParams parsed' = (searchParams parsed ++ [("next", deleteNext)])%list /\
     sp_get "next" (searchParams parsed') = Some deleteNext /\
     (forall other : string,
        other <> "next" ->
        sp_get other (searchParams parsed') = sp_get other (searchParams parsed)) /\
     search parsed' = "?" ++ serialize (searchParams parsed') /\
     (url <> "" ->
      decorateDeleteUrl parseURL deleteNext url = pathname parsed ++ search parsed' ++ hash parsed)) /\
  (parseURL url = None ->
   includes url "next=" = false ->
   deleteNext <> "" ->
   decorateDeleteUrl parseURL deleteNext url =
   if truthy url
   then url ++ (if includes url "?" then "&" else "?") ++ "next="
            ++ encodeURIComponent deleteNext
   else url) /\
  (forall parsed : URL,
     decorateParsed deleteNext parsed <> parsed ->
     sp_has "next" (searchParams parsed) = false).
Proof.
  split; [| split; [| split; [| split]]].
  - intros parsed Hp Hhas.
    assert (E : decorateParsed deleteNext parsed = parsed).
    { unfold decorateParsed. rewrite Hhas, andb_false_r. reflexivity. }
    split; [exact E |]. split; [rewrite E; reflexivity |].
    intros Hne. unfold decorateDeleteUrl.
    destruct url; [contradiction |]. cbn [truthy negb]. rewrite Hp, E. reflexivity.
  - intros Hp Hinc. unfold decorateDeleteUrl.
    destruct (negb (truthy url)); [reflexivity |].
    rewrite Hp, Hinc. reflexivity.
  - intros parsed Hp Hhas Hnext parsed'.
    assert (E : parsed' = searchParams_set "next" deleteNext parsed).
    { subst parsed'. unfold decorateParsed. rewrite Hhas.
      destruct deleteNext; [contradiction | reflexivity]. }
    assert (P : searchParams parsed'
                = (searchParams parsed ++ [("next", deleteNext)])%list).
    { rewrite E. cbn [searchParams_set searchParams].
      apply sp_set_absent, Hhas. }
    split; [exact P |].
    split; [rewrite P; apply sp_get_app_absent, Hhas |].
    split; [intros other Ho; rewrite P; apply sp_get_app_other, Ho |].
    assert (S : search parsed' = "?" ++ serialize (searchParams parsed')).
    { rewrite P. rewrite E. cbn [searchParams_set search].
      rewrite (sp_set_absent _ _ _ Hhas).
      pose proof (serialize_nonempty (searchParams parsed ++ [("next", deleteNext)])) as N.
      destruct (serialize (searchParams parsed ++ [("next", deleteNext)])).
      - exfalso. apply N; [| reflexivity]. destruct (searchParams parsed); discriminate.
      - reflexivity. }
    split; [exact S |].
    intros Hne. unfold decorateDeleteUrl.
    destruct url; [contradiction |]. cbn [truthy negb]. rewrite Hp.
    fold parsed'. rewrite E at 1 3. reflexivity.
  - intros Hp Hinc Hnext. unfold decorateDeleteUrl.
    destruct (truthy url); cbn [negb]; [| reflexivity].
    rewrite Hp, Hinc. destruct deleteNext; [contradiction | reflexivity].
  - intros parsed Hchg. unfold decorateParsed in Hchg.
    destruct (sp_has "next" (searchParams parsed)); [| reflexivity].
    rewrite andb_false_r in Hchg. contradiction.
Qed.

End AnyWindow.

(** *** The model run on concrete links *)

Example next_is_added_when_absent :
  decorateDeleteUrl parse_reference "/work-orders/7/"
    "/work-orders/7/attachments/3/delete/"
  = "/work-orders/7/attachments/3/delete/?next=%2Fwork-orders%2F7%2F".
Proof. vm_compute. reflexivity. Qed.

Example next_is_kept_when_present :
  decorateDeleteUrl parse_reference "/work-orders/7/"
    "/work-orders/7/attachments/3/delete/?next=/buildings/2/&lang=bg"
  = "/work-orders/7/attachments/3/delete/?next=/buildings/2/&lang=bg".
Proof. vm_compute. reflexivity. Qed.

Example other_parameters_survive :
  decorateDeleteUrl parse_reference "/work-orders/7/?tab=files"
    "/work-orders/7/attachments/3/delete/?lang=bg#top"
  = "/work-orders/7/attachments/3/delete/?lang=bg&next=%2Fwork-orders%2F7%2F%3Ftab%3Dfiles#top".
Proof. vm_compute. reflexivity. Qed.

Example fallback_appends_or_keeps :
  let throws := fun _ : string => @None URL in
  decorateDeleteUrl throws "/work-orders/7/" "delete/?lang=bg"
    = "delete/?lang=bg&next=%2Fwork-orders%2F7%2F" /\
  decorateDeleteUrl throws "/work-orders/7/" "delete/?next=/x/"
    = "delete/?next=/x/" /\
  decorateDeleteUrl throws "/work-orders/7/" "" = "".
Proof. vm_compute. repeat split. Qed.

End DeleteUrlSpec.

(** ** Gestures: drag, pinch and the zoom buttons *)

Module GestureSpec.
Import JS JSFacts Lightbox LightboxSpec Gesture.

Lemma map_has_In (k : Z) (m : PointerMap) :
  map_has k m = true <-> In k (map fst m).
Proof.
  induction m as [| [k' e'] m IH]; cbn [map_has map fst In].
  - split; [discriminate | contradiction].
  - rewrite orb_true_iff, IH, Z.eqb_eq. intuition congruence.
Qed.

Lemma map_set_ids (k : Z) (e : PointerEvent) (m : PointerMap) :
  map fst (map_set k e m) =
  if map_has k m then map fst m else map fst m ++ [k].
Proof.
  induction m as [| [k' e'] m IH]; cbn [map_set map_has map fst app]; [reflexivity |].
  destruct (Z.eqb_spec k k') as [-> | Hne]; cbn [orb map fst]; [reflexivity |].
  rewrite IH. destruct (map_has k m); reflexivity.
Qed.

Lemma map_set_length (k : Z) (e : PointerEvent) (m : PointerMap) :
  List.length (map_set k e m) =
  if map_has k m then List.length m else S (List.length m).
Proof.
  rewrite <- (length_map fst), map_set_ids.
  destruct (map_has k m); [apply length_map |].
  rewrite length_app, length_map. cbn. lia.
Qed.

Lemma map_set_NoDup (k : Z) (e : PointerEvent) (m : PointerMap) :
  NoDup (map fst m) -> NoDup (map fst (map_set k e m)).
Proof.
  intros H. rewrite map_set_ids. destruct (map_has k m) eqn:E; [exact H |].
  apply NoDup_app; [exact H | repeat constructor; intros [] | ].
  intros x Hx [<- | []]. apply map_has_In in Hx. congruence.
Qed.

Lemma map_delete_incl (k : Z) (m : PointerMap) (x : Z) :
  In x (map fst (map_delete k m)) -> In x (map fst m).
Proof.
  induction m as [| [k' e'] m IH]; cbn [map_delete map fst]; [trivial |].
  destruct (k =? k')%Z; cbn [map fst In]; intuition.
Qed.

Lemma map_delete_NoDup (k : Z) (m : PointerMap) :
  NoDup (map fst m) -> NoDup (map fst (map_delete k m)).
Proof.
  induction m as [| [k' e'] m IH]; cbn [map_delete map fst]; [trivial |].
  intros H. inversion H as [| ? ? Hn Hd]; subst.
  destruct (k =? k')%Z; [exact Hd |]. cbn [map fst]. constructor.
  - intros Hin. apply Hn. exact (map_delete_incl _ _ _ Hin).
  - exact (IH Hd).
Qed.

(** *** The pointer state stays coherent *)

Lemma coherent_same (v v' : View) :
  pointers v' = pointers v ->
  isDragging v' = isDragging v ->
  initialPinchDistance v' = initialPinchDistance v ->
  pinchStartScale v' = pinchStartScale v ->
  coherent v -> coherent v'.
Proof.
  unfold coherent, pointer_ids. intros -> -> -> ->. trivial.
Qed.

Lemma coherent_initial : coherent initial.
Proof.
  unfold coherent, pointer_ids. cbn. repeat split; try constructor; try lra.
  exists 100%Z. reflexivity.
Qed.

Lemma coherent_setScale (next : Q) (keepPan : bool) (v : View) :
  coherent v -> coherent (setScale next keepPan v).
Proof.
  apply coherent_same; unfold setScale; destruct (negb keepPan && _); reflexivity.
Qed.

Lemma coherent_closeOverlay (v : View) : coherent v -> coherent (closeOverlay v).
Proof.
  unfold closeOverlay. destruct (overlay v); [intros _ | trivial].
  unfold coherent, pointer_ids. cbn. repeat split; try constructor; try lra.
  exists 100%Z. reflexivity.
Qed.

Lemma coherent_openOverlay (src : option string) (v : View) :
  coherent v -> coherent (openOverlay src v).
Proof.
  unfold openOverlay. destruct (truthy_opt src); [| trivial].
  apply coherent_same; reflexivity.
Qed.

Lemma coherent_onOverlayClick (a : Action) (v : View) :
  coherent v -> coherent (onOverlayClick a v).
Proof.
  destruct a; cbn [onOverlayClick]; trivial;
    first [apply coherent_closeOverlay | apply coherent_setScale
          | apply coherent_same; reflexivity].
Qed.

Lemma coherent_onKeyDown (k : Key) (v : View) :
  coherent v -> coherent (onKeyDown k v).
Proof.
  unfold onKeyDown. destruct (overlay v) as [[|] |]; trivial.
  destruct k; trivial;
    first [apply coherent_closeOverlay | apply coherent_setScale
          | apply coherent_same; reflexivity].
Qed.

Lemma coherent_onWheel (dy cx cy : Q) (rect : DOMRect) (v : View) :
  coherent v -> coherent (onWheel dy cx cy rect v).
Proof.
  intros H. unfold onWheel. destruct (Qltb (scale v) _).
  - apply (coherent_same (stepZoom ((if Qltb dy 0 then 1 else -1) * SCALE_STEP) v));
      try reflexivity.
    apply coherent_setScale, H.
  - apply coherent_setScale, H.
Qed.

Lemma coherent_onPointerUp (e : PointerEvent) (v : View) :
  Inv v -> coherent v -> coherent (onPointerUp e v).
Proof.
  intros [R G] [Hd [Hb [He [Hr Hg]]]]. unfold onPointerUp, coherent, pointer_ids.
  set (ps := map_delete (pointerId e) (pointers v)).
  assert (Nd : NoDup (map fst ps)) by (apply map_delete_NoDup, Hd).
  destruct (Nat.ltb_spec (List.length ps) 2) as [Hlt | Hge];
    cbn [pointers initialPinchDistance isDragging pinchStartScale set_gesture].
  - repeat split; trivial.
    + intros E. rewrite E. reflexivity.
    + apply R.
    + apply R.
  - repeat split; trivial; try apply Hr.
    + intros Hlt. lia.
    + intros E. rewrite E in Hge. cbn in Hge. lia.
Qed.

Section AnyHypot.

Variable hypot : Q -> Q -> Q.

Lemma coherent_onPointerDown (e : PointerEvent) (v : View) :
  Inv v -> coherent v -> coherent (onPointerDown hypot e v).
Proof.
  intros [R G] [Hd [Hb [He [Hr Hg]]]]. unfold onPointerDown, coherent, pointer_ids.
  set (ps := map_set (pointerId e) e (pointers v)).
  assert (Nd : NoDup (map fst ps)) by (apply map_set_NoDup, Hd).
  assert (Hlen : List.length ps =
                 if map_has (pointerId e) (pointers v)
                 then List.length (pointers v) else S (List.length (pointers v)))
    by apply map_set_length.
  assert (Hne : ps <> []).
  { intros E. rewrite E in Hlen. destruct (map_has _ _) eqn:Hh; [| discriminate].
    destruct (pointers v); [discriminate | discriminate]. }
  destruct (Nat.eqb_spec (List.length ps) 1) as [H1 | H1];
    cbn [pointers initialPinchDistance isDragging pinchStartScale set_gesture].
  - repeat split; trivial; try apply Hr.
    + intros _. apply Hb. destruct (map_has _ _); lia.
    + intros E. contradiction.
  - destruct (map_values ps) as [| a [| b [| c l]]] eqn:Hv;
      unfold set_pointers;
      cbn [pointers initialPinchDistance isDragging pinchStartScale set_gesture];
      unfold map_values in Hv;
      assert (Hl : List.length ps = List.length (map snd ps)) by (symmetry; apply length_map);
      rewrite Hv in Hl; cbn [List.length] in Hl.
    + destruct ps; [contradiction | discriminate].
    + contradiction.
    + repeat split; trivial; try apply R; try lia.
      intros E. contradiction.
    + repeat split; trivial; try apply Hr; try lia.
      intros E. contradiction.
Qed.

Lemma coherent_onPointerMove (e : PointerEvent) (v v' : View) :
  onPointerMove hypot e v = Some v' -> coherent v -> coherent v'.
Proof.
  unfold onPointerMove. destruct (map_has (pointerId e) (pointers v)) eqn:Hh;
    cbn [negb]; [| intros [= <-]; trivial].
  intros Hrun [Hd [Hb [He [Hr Hg]]]].
  set (ps := map_set (pointerId e) e (pointers v)) in *.
  assert (Hlen : List.length ps = List.length (pointers v)).
  { unfold ps. rewrite map_set_length, Hh. reflexivity. }
  assert (C1 : coherent (set_pointers ps v)).
  { unfold coherent, pointer_ids, set_pointers.
    cbn [pointers initialPinchDistance isDragging pinchStartScale set_gesture].
    repeat split; trivial; try apply Hr.
    - apply map_set_NoDup, Hd.
    - rewrite Hlen. exact Hb.
    - intros E. rewrite E in Hlen. destruct (pointers v); [auto | discriminate]. }
  destruct (map_values ps) as [| a [| b [| c l]]].
  - injection Hrun as <-. exact C1.
  - destruct (isDragging _); injection Hrun as <-; [| exact C1].
    revert C1. apply coherent_same; reflexivity.
  - destruct (Qltb 0 _); [| injection Hrun as <-; exact C1].
    destruct (div64 _ _); [| discriminate]. injection Hrun as <-.
    apply coherent_setScale, C1.
  - injection Hrun as <-. exact C1.
Qed.

Lemma coherent_step (v v' : View) (ev : Event) :
  step hypot v ev = Some v' -> Inv v -> coherent v -> coherent v'.
Proof.
  destruct ev; cbn [step]; try (intros [= <-] HI);
    auto using coherent_openOverlay, coherent_onOverlayClick, coherent_onKeyDown,
      coherent_onWheel, coherent_onPointerDown, coherent_onPointerUp.
  intros H _. exact (coherent_onPointerMove _ _ _ H).
Qed.

Lemma run_coherent (evs : list Event) (v : View) :
  Inv v -> coherent v ->
  exists v', run hypot evs v = Some v' /\ Inv v' /\ coherent v'.
Proof.
  revert v. induction evs as [| ev evs IH]; intros v HI HC; cbn [run].
  - exists v. auto.
  - destruct (step_total hypot v ev) as [v1 E]. rewrite E.
    apply IH; [exact (Inv_step hypot _ _ _ E HI) | exact (coherent_step _ _ _ E HI HC)].
Qed.

(** X1.  After any sequence of events the pointer state is coherent: the
    ids of the pointers that are down are distinct; a pinch baseline
    distance is kept only while two or more pointers are down; no drag is
    in progress when no pointer is down; and the scale the pinch started
    from lies in [1, 5] on the grid of hundredths. *)
Theorem pointer_state_stays_coherent (evs : list Event) :
  exists v,
    run hypot evs initial = Some v /\
    NoDup (pointer_ids v) /\
    ((List.length (pointers v) < 2)%nat -> initialPinchDistance v = 0) /\
    (pointers v = [] -> isDragging v = false) /\
    1 <= pinchStartScale v <= 5 /\
    (exists k : Z, pinchStartScale v == k # 100).
Proof.
  destruct (run_coherent evs initial Inv_initial coherent_initial) as [v [E [_ C]]].
  exists v. split; [exact E | exact C].
Qed.

(** *** Drag *)

Lemma drag_step (w : View) (id : Z) (p0 x : PointerEvent) :
  pointers w = [(id, p0)] -> pointerId x = id ->
  onPointerMove hypot x w =
  Some (if isDragging w
        then set_transform (scale w) (clientX x - dragStartX w)
               (clientY x - dragStartY w) (set_pointers [(id, x)] w)
        else set_pointers [(id, x)] w).
Proof.
  intros Hp Hid. unfold onPointerMove. rewrite Hp, Hid.
  cbn [map_has map_set map_values map snd]. rewrite Z.eqb_refl. cbn [orb negb].
  cbn [isDragging set_pointers set_gesture]. destruct (isDragging w); reflexivity.
Qed.

Lemma drag_run (moves : list PointerEvent) (m : PointerEvent) (w : View)
    (id : Z) (p0 : PointerEvent) :
  pointers w = [(id, p0)] -> isDragging w = true ->
  (forall x, In x (moves ++ [m]) -> pointerId x = id) ->
  exists w',
    run hypot (map PointerMove (moves ++ [m])) w = Some w' /\
    scale w' = scale w /\
    panX w' = clientX m - dragStartX w /\
    panY w' = clientY m - dragStartY w.
Proof.
  revert w p0. induction moves as [| x moves IH]; intros w p0 Hp Hd Hid.
  - cbn [app map run step].
    rewrite (drag_step w id p0 m Hp) by (apply Hid; left; reflexivity).
    rewrite Hd. eexists. split; [reflexivity |]. repeat split.
  - cbn [app map run step].
    rewrite (drag_step w id p0 x Hp) by (apply Hid; left; reflexivity).
    rewrite Hd.
    destruct (IH (set_transform (scale w) (clientX x - dragStartX w)
                    (clientY x - dragStartY w) (set_pointers [(id, x)] w)) x)
      as [w' [E [S [Px Py]]]]; try reflexivity.
    + exact Hd.
    + intros y Hy. apply Hid. right. exact Hy.
    + exists w'. split; [exact E |]. split; [exact S |]. split; assumption.
Qed.

(** X2.  Drag to pan.  With no pointer down and the image zoomed in
    (scale above 1), a pointer that goes down and then moves, however many
    times, leaves the pan displaced by exactly the pointer's displacement
    from where it went down; the scale is not touched. *)
Theorem drag_pans_by_the_pointer_displacement
    (v : View) (e : PointerEvent) (moves : list PointerEvent) (m : PointerEvent)
    (Hnone : pointers v = [])
    (Hzoomed : 1 < scale v)
    (Hsame : forall x, In x (moves ++ [m]) -> pointerId x = pointerId e) :
  exists v',
    run hypot (PointerDown e :: map PointerMove (moves ++ [m])) v = Some v' /\
    panX v' == panX v + (clientX m - clientX e) /\
    panY v' == panY v + (clientY m - clientY e) /\
    scale v' = scale v.
Proof.
  assert (D : onPointerDown hypot e v =
              set_gesture [(pointerId e, e)] true
                (clientX e - panX v) (clientY e - panY v)
                (initialPinchDistance v) (pinchStartScale v) v).
  { unfold onPointerDown. rewrite Hnone. cbn [map_set List.length Nat.eqb].
    apply Qltb_lt in Hzoomed. rewrite Hzoomed. reflexivity. }
  cbn [run step]. rewrite D.
  destruct (drag_run moves m
              (set_gesture [(pointerId e, e)] true
                 (clientX e - panX v) (clientY e - panY v)
                 (initialPinchDistance v) (pinchStartScale v) v)
              (pointerId e) e) as [v' [E [S [Px Py]]]]; try reflexivity.
  - exact Hsame.
  - exists v'. split; [exact E |]. rewrite Px, Py.
    cbn [dragStartX dragStartY set_gesture].
    split; [ring | split; [ring | exact S]].
Qed.

Lemma idle_pointer_run (moves : list PointerEvent) (w : View) (id : Z)
    (p0 : PointerEvent) :
  pointers w = [(id, p0)] -> isDragging w = false ->
  exists w',
    run hypot (map PointerMove moves) w = Some w' /\
    scale w' = scale w /\ panX w' = panX w /\ panY w' = panY w.
Proof.
  revert w p0. induction moves as [| x moves IH]; intros w p0 Hp Hd.
  - exists w. cbn. auto.
  - cbn [map run step].
    destruct (Z.eq_dec (pointerId x) id) as [Hid | Hid].
    + rewrite (drag_step w id p0 x Hp Hid), Hd.
      destruct (IH (set_pointers [(id, x)] w) x) as [w' [E R]];
        [reflexivity | exact Hd |].
      exists w'. split; [exact E | exact R].
    + assert (U : onPointerMove hypot x w = Some w).
      { unfold onPointerMove. rewrite Hp. cbn [map_has].
        destruct (Z.eqb_spec (pointerId x) id); [contradiction | reflexivity]. }
      rewrite U. exact (IH w p0 Hp Hd).
Qed.

(** X3.  No drag at scale 1.  With no pointer down and the image at its
    natural size (scale not above 1), a pointer that goes down does not
    start a drag: whatever pointer moves follow, the pan and the scale stay
    as they were. *)
Theorem no_drag_unless_zoomed
    (v : View) (e : PointerEvent) (moves : list PointerEvent)
    (Hnone : pointers v = [])
    (Hflat : scale v <= 1) :
  exists v',
    run hypot (PointerDown e :: map PointerMove moves) v = Some v' /\
    isDragging (onPointerDown hypot e v) = false /\
    panX v' = panX v /\ panY v' = panY v /\ scale v' = scale v.
Proof.
  assert (D : onPointerDown hypot e v =
              set_gesture [(pointerId e, e)] false
                (clientX e - panX v) (clientY e - panY v)
                (initialPinchDistance v) (pinchStartScale v) v).
  { unfold onPointerDown. rewrite Hnone. cbn [map_set List.length Nat.eqb].
    apply Qltb_ge in Hflat. rewrite Hflat. reflexivity. }
  cbn [run step]. rewrite D.
  destruct (idle_pointer_run moves
              (set_gesture [(pointerId e, e)] false
                 (clientX e - panX v) (clientY e - panY v)
                 (initialPinchDistance v) (pinchStartScale v) v)
              (pointerId e) e) as [v' [E [S [Px Py]]]]; try reflexivity.
  exists v'. split; [exact E |]. split; [reflexivity |]. auto.
Qed.

(** *** One mode at a time *)

(** X4.  A pointer move acts in one mode at most.  It changes the scale
    only while exactly two pointers are down (pinch), and the pan only
    while exactly one pointer is down and a drag is in progress; so a pinch
    never moves the pan, a drag never zooms, and with three or more
    pointers down a move changes neither.  The number of pointers that are
    down is not changed by a move. *)
Theorem pointer_move_acts_in_one_mode (e : PointerEvent) (v : View) :
  exists v',
    onPointerMove hypot e v = Some v' /\
    List.length (pointers v') = List.length (pointers v) /\
    (List.length (pointers v) <> 2%nat -> scale v' = scale v) /\
    (List.length (pointers v) <> 1%nat \/ isDragging v = false ->
     panX v' = panX v /\ panY v' = panY v).
Proof.
  unfold onPointerMove.
  destruct (map_has (pointerId e) (pointers v)) eqn:Hh; cbn [negb].
  2: { exists v. auto. }
  set (ps := map_set (pointerId e) e (pointers v)).
  assert (Hlen : List.length ps = List.length (pointers v)).
  { unfold ps. rewrite map_set_length, Hh. reflexivity. }
  assert (Hv : List.length (map_values ps) = List.length (pointers v)).
  { unfold map_values. rewrite length_map. exact Hlen. }
  destruct (map_values ps) as [| a [| b [| c l]]]; cbn [List.length] in Hv.
  - eexists. split; [reflexivity |]. cbn. auto.
  - cbn [isDragging set_pointers set_gesture].
    destruct (isDragging v) eqn:Hd; eexists; (split; [reflexivity |]); cbn;
      (split; [exact Hlen |]); (split; [reflexivity |]).
    + intros [Hc | Hc]; [lia | discriminate].
    + auto.
  - cbn [initialPinchDistance pinchStartScale set_pointers set_gesture].
    destruct (Qltb 0 (initialPinchDistance v)) eqn:G.
    + rewrite (guarded_div _ _ G). eexists. split; [reflexivity |].
      unfold setScale. cbn [negb andb].
      cbn [pointers panX panY scale set_transform set_gesture].
      split; [exact Hlen |]. split; [intros Hc; lia | auto].
    + eexists. split; [reflexivity |]. cbn. auto.
  - eexists. split; [reflexivity |]. cbn. auto.
Qed.

(** *** Round trips *)

Lemma clamp_id (x : Q) : 1 <= x <= 5 -> clamp x == x.
Proof.
  intros [Hlo Hhi]. unfold clamp, MAX_SCALE, MIN_SCALE.
  destruct (Q.max_spec 1 x) as [[? E] | [? E]];
    destruct (Q.min_spec 5 (Qmax 1 x)) as [[? E'] | [? E']]; lra.
Qed.

Lemma setScale_on_grid_in_range (x : Q) (k : Z) (keepPan : bool) (v : View) :
  x == k # 100 -> 1 <= x <= 5 -> scale (setScale x keepPan v) == x.
Proof.
  intros Hk Hr. rewrite scale_setScale.
  assert (C : clamp x == k # 100) by (rewrite clamp_id; assumption).
  rewrite (toFixed2_on_grid _ k C). apply clamp_id, Hr.
Qed.

(** A value within 2^-49 of a hundredth in the range rounds to that
    hundredth. *)
Lemma toFixed2_clamp_near (x y : Q) (k : Z) :
  x == k # 100 -> 1 <= x <= 5 ->
  x - (1 # 562949953421312) <= y -> y <= x + (1 # 562949953421312) ->
  toFixed2 (clamp y) == x.
Proof.
  intros Hk [Hlo Hhi] L U.
  assert (C : x - (1 # 562949953421312) <= clamp y /\ clamp y <= x + (1 # 562949953421312)).
  { unfold clamp, MAX_SCALE, MIN_SCALE.
    destruct (Q.max_spec 1 y) as [[? E] | [? E]];
      destruct (Q.min_spec 5 (Qmax 1 y)) as [[? E'] | [? E']]; split; lra. }
  destruct C as [CL CU].
  assert (X : x * 100 == inject_Z k).
  { rewrite Hk, (Qmake_Qdiv k 100). field. }
  assert (F : Qfloor (clamp y * 100 + (1 # 2)) = k).
  { pose proof (Qfloor_le (clamp y * 100 + (1 # 2))) as Hle.
    pose proof (Qlt_floor (clamp y * 100 + (1 # 2))) as Hlt.
    rewrite inject_Z_plus in Hlt. change (inject_Z 1) with 1 in Hlt.
    assert (A : inject_Z (Qfloor (clamp y * 100 + (1 # 2))) < inject_Z (k + 1)).
    { rewrite inject_Z_plus. change (inject_Z 1) with 1. lra. }
    assert (B : inject_Z k < inject_Z (Qfloor (clamp y * 100 + (1 # 2)) + 1)).
    { rewrite inject_Z_plus. change (inject_Z 1) with 1. lra. }
    rewrite <- Zlt_Qlt in A, B. lia. }
  unfold toFixed2. rewrite F. symmetry. exact Hk.
Qed.

(** The scale a pinch starts from, read back unchanged: the binary64
    value nearest to a hundredth of the range, times one, prints as that
    hundredth. *)
Lemma pinch_product_at_ratio_one (x ratio : Q) (k : Z) :
  x == k # 100 -> 1 <= x <= 5 -> ratio == 1 ->
  toFixed2 (clamp (mul64 (round64 x) (round64 ratio))) == x.
Proof.
  intros Hk [Hlo Hhi] Hr.
  pose proof (round64_one ratio Hr) as R1. unfold mul64.
  rewrite (round64_comp (round64 x * round64 ratio) (round64 x))
    by (rewrite R1; ring).
  destruct (round64_near x Hlo ltac:(lra)) as [A B].
  assert (One : 1 <= round64 x).
  { pose proof (round64_one 1 (Qeq_refl 1)) as O.
    pose proof (round64_monotone 1 x ltac:(lra) Hlo). lra. }
  destruct (round64_near (round64 x) One ltac:(lra)) as [A' B'].
  apply (toFixed2_clamp_near x _ k Hk (conj Hlo Hhi)); lra.
Qed.

(** X5.  A pinch is relative to its start.  In a reachable state with a
    pinch under way (baseline distance above zero), a move that brings the
    two pointers back to the baseline distance sets the scale to the scale
    the pinch started from, and leaves the pan alone. *)
Theorem pinch_back_at_baseline_restores_scale
    (evs : list Event) (v : View) (e a b : PointerEvent)
    (Hreach : run hypot evs initial = Some v)
    (Hdown : map_has (pointerId e) (pointers v) = true)
    (Htwo : map_values (map_set (pointerId e) e (pointers v)) = [a; b])
    (Hbase : 0 < initialPinchDistance v)
    (Hback : distanceBetween hypot a b == initialPinchDistance v) :
  exists v',
    onPointerMove hypot e v = Some v' /\
    scale v' == pinchStartScale v /\
    panX v' = panX v /\ panY v' = panY v.
Proof.
  destruct (run_coherent evs initial Inv_initial coherent_initial)
    as [v0 [E [_ C]]].
  rewrite Hreach in E. injection E as <-.
  destruct C as [_ [_ [_ [Hr [k Hk]]]]].
  unfold onPointerMove. rewrite Hdown. cbn [negb]. rewrite Htwo.
  cbn [initialPinchDistance pinchStartScale set_pointers set_gesture].
  pose proof Hbase as G. apply Qltb_lt in G. rewrite G, (guarded_div _ _ G).
  eexists. split; [reflexivity |]. split.
  - rewrite scale_setScale.
    apply (pinch_product_at_ratio_one _ _ k Hk Hr).
    rewrite Hback. field. lra.
  - unfold setScale. cbn. auto.
Qed.

Lemma stepZoom_on_grid (v : View) (delta : Q) (d : Z) :
  Inv v -> delta == d # 100 -> 1 <= scale v + delta <= 5 ->
  scale (stepZoom delta v) == scale v + delta.
Proof.
  intros [_ [k Hk]] Hd Hr. unfold stepZoom.
  apply (setScale_on_grid_in_range _ (k + d)); [| exact Hr].
  rewrite Hk, Hd. apply grid_shift.
Qed.

Lemma pan_stepZoom (delta : Q) (v : View) :
  if Qeq_bool (scale (stepZoom delta v)) 1
  then panX (stepZoom delta v) = 0 /\ panY (stepZoom delta v) = 0
  else panX (stepZoom delta v) = panX v /\ panY (stepZoom delta v) = panY v.
Proof. exact (pan_setScale (scale v + delta) v). Qed.

(** X6.  The zoom buttons undo each other.  In a reachable state below
    the last step to the maximum (scale at most 4.75), zoom-in followed by
    zoom-out gives back the scale, and the pan as well unless the scale is
    1, where the pan ends at (0, 0); above the first step (scale at least
    1.25), zoom-out followed by zoom-in gives back the scale. *)
Theorem zoom_in_and_zoom_out_undo_each_other (evs : list Event) :
  exists v,
    run hypot evs initial = Some v /\
    (scale v <= 19 # 4 ->
     let v2 := onOverlayClick zoom_out (onOverlayClick zoom_in v) in
     scale v2 == scale v /\
     (1 < scale v -> panX v2 = panX v /\ panY v2 = panY v) /\
     (scale v == 1 -> panX v2 = 0 /\ panY v2 = 0)) /\
    (5 # 4 <= scale v ->
     scale (onOverlayClick zoom_in (onOverlayClick zoom_out v)) == scale v).
Proof.
  destruct (run_Inv hypot evs initial Inv_initial) as [v [E HI]].
  exists v. split; [exact E |].
  pose proof HI as [[Hlo Hhi] _].
  cbn [onOverlayClick]. split.
  - intros Hmax. cbv zeta.
    assert (S1 : scale (stepZoom SCALE_STEP v) == scale v + (1 # 4)).
    { apply (stepZoom_on_grid v SCALE_STEP 25 HI); [reflexivity |].
      unfold SCALE_STEP. lra. }
    assert (S2 : scale (stepZoom (- SCALE_STEP) (stepZoom SCALE_STEP v)) == scale v).
    { rewrite (stepZoom_on_grid _ (- SCALE_STEP) (-25) (Inv_stepZoom _ _));
        [| reflexivity |]; rewrite S1; unfold SCALE_STEP; lra. }
    split; [exact S2 |].
    pose proof (pan_stepZoom SCALE_STEP v) as P1.
    pose proof (pan_stepZoom (- SCALE_STEP) (stepZoom SCALE_STEP v)) as P2.
    assert (N1 : Qeq_bool (scale (stepZoom SCALE_STEP v)) 1 = false).
    { destruct (Qeq_bool (scale (stepZoom SCALE_STEP v)) 1) eqn:B; [| reflexivity].
      apply Qeq_bool_iff in B. lra. }
    rewrite N1 in P1. destruct P1 as [P1x P1y].
    split.
    + intros Hgt.
      assert (N2 : Qeq_bool (scale (stepZoom (- SCALE_STEP) (stepZoom SCALE_STEP v))) 1 = false).
      { destruct (Qeq_bool _ 1) eqn:B; [| reflexivity].
        apply Qeq_bool_iff in B. lra. }
      rewrite N2 in P2. destruct P2 as [P2x P2y]. split; congruence.
    + intros Heq.
      assert (N2 : Qeq_bool (scale (stepZoom (- SCALE_STEP) (stepZoom SCALE_STEP v))) 1 = true).
      { apply Qeq_bool_iff. lra. }
      rewrite N2 in P2. exact P2.
  - intros Hmin.
    assert (S1 : scale (stepZoom (- SCALE_STEP) v) == scale v - (1 # 4)).
    { rewrite (stepZoom_on_grid v (- SCALE_STEP) (-25) HI);
        [| reflexivity |]; unfold SCALE_STEP; lra. }
    rewrite (stepZoom_on_grid _ SCALE_STEP 25 (Inv_stepZoom _ _));
      [| reflexivity |]; rewrite S1; unfold SCALE_STEP; lra.
Qed.

(** *** The drag anchor *)

(** X23.  The drag anchor is taken once, when the first pointer goes
    down.  With the image zoomed in and no pointer down: a first pointer
    goes down, a second one joins it, the first one is lifted, and the
    second one moves.  The pan then is the old pan displaced by the way
    from where the first pointer went down to where the second one is
    now: neither the second pointer going down nor the first one going up
    sets a new anchor.  The scale is as it was. *)
Theorem remaining_pointer_drags_from_the_first_anchor
    (v : View) (first second lifted moved : PointerEvent)
    (Hnone : pointers v = [])
    (Hzoomed : 1 < scale v)
    (Hids : pointerId second <> pointerId first)
    (Hlift : pointerId lifted = pointerId first)
    (Hmove : pointerId moved = pointerId second) :
  exists v',
    run hypot [PointerDown first; PointerDown second;
               PointerUp lifted; PointerMove moved] v = Some v' /\
    panX v' == panX v + (clientX moved - clientX first) /\
    panY v' == panY v + (clientY moved - clientY first) /\
    scale v' = scale v /\
    map_values (pointers v') = [moved].
Proof.
  cbn [run step]. unfold onPointerDown at 2. rewrite Hnone.
  cbn [map_set List.length Nat.eqb]. apply Qltb_lt in Hzoomed. rewrite Hzoomed.
  unfold onPointerDown. cbn [pointers set_gesture map_set].
  destruct (Z.eqb_spec (pointerId second) (pointerId first)) as [E | _];
    [contradiction |].
  cbn [List.length Nat.eqb map_values map snd scale isDragging dragStartX dragStartY].
  unfold onPointerUp. cbn [pointers set_gesture map_delete]. rewrite Hlift.
  rewrite Z.eqb_refl. cbn [List.length Nat.ltb Nat.leb Nat.eqb].
  cbn [scale isDragging dragStartX dragStartY initialPinchDistance pinchStartScale set_gesture].
  unfold onPointerMove. cbn [pointers set_gesture map_has]. rewrite Hmove.
  rewrite Z.eqb_refl. cbn [orb negb map_set]. rewrite Z.eqb_refl.
  cbn [map_values map snd isDragging set_pointers set_gesture scale dragStartX dragStartY].
  eexists. split; [reflexivity |].
  cbn [panX panY scale pointers set_transform set_gesture map_values map snd].
  split; [ring | split; [ring | split; reflexivity]].
Qed.

End AnyHypot.

(** *** The gestures on concrete input *)

Lemma drag_pans_by_the_pointer_displacement_witness :
  exists v',
    run hypot_dyadic
      (PointerDown (finger 1 10 10)
       :: map PointerMove ([finger 1 20 15] ++ [finger 1 40 5])) zoomed_twice
      = Some v' /\
    panX v' == panX zoomed_twice + (clientX (finger 1 40 5) - clientX (finger 1 10 10)) /\
    panY v' == panY zoomed_twice + (clientY (finger 1 40 5) - clientY (finger 1 10 10)) /\
    scale v' = scale zoomed_twice.
Proof.
  apply (drag_pans_by_the_pointer_displacement hypot_dyadic zoomed_twice
           (finger 1 10 10) [finger 1 20 15] (finger 1 40 5)).
  - reflexivity.
  - vm_compute. reflexivity.
  - intros x [<- | [<- | []]]; reflexivity.
Defined.

Lemma no_drag_unless_zoomed_witness :
  exists v',
    run hypot_dyadic
      (PointerDown (finger 1 10 10)
       :: map PointerMove [finger 1 20 15; finger 1 40 5]) just_opened
      = Some v' /\
    isDragging (onPointerDown hypot_dyadic (finger 1 10 10) just_opened) = false /\
    panX v' = panX just_opened /\ panY v' = panY just_opened /\
    scale v' = scale just_opened.
Proof.
  apply (no_drag_unless_zoomed hypot_dyadic just_opened (finger 1 10 10)
           [finger 1 20 15; finger 1 40 5]).
  - reflexivity.
  - vm_compute. discriminate.
Defined.

Lemma pinch_back_at_baseline_restores_scale_witness :
  scale widened_pinch == 133 # 100 /\
  exists v',
    onPointerMove hypot_dyadic (finger 2 3 0) widened_pinch = Some v' /\
    scale v' == pinchStartScale widened_pinch /\
    panX v' = panX widened_pinch /\ panY v' = panY widened_pinch.
Proof.
  split; [vm_compute; reflexivity |].
  apply (pinch_back_at_baseline_restores_scale hypot_dyadic pinch_events
           widened_pinch (finger 2 3 0) (finger 1 0 0) (finger 2 3 0)).
  - vm_compute. reflexivity.
  - reflexivity.
  - reflexivity.
  - vm_compute. reflexivity.
  - vm_compute. reflexivity.
Defined.

Lemma remaining_pointer_drags_from_the_first_anchor_witness :
  exists v',
    run hypot_dyadic [PointerDown (finger 1 10 10); PointerDown (finger 2 200 10);
                      PointerUp (finger 1 12 11); PointerMove (finger 2 205 10)]
      zoomed_twice = Some v' /\
    panX v' == panX zoomed_twice + (clientX (finger 2 205 10) - clientX (finger 1 10 10)) /\
    panY v' == panY zoomed_twice + (clientY (finger 2 205 10) - clientY (finger 1 10 10)) /\
    scale v' = scale zoomed_twice /\
    map_values (pointers v') = [finger 2 205 10].
Proof.
  apply (remaining_pointer_drags_from_the_first_anchor hypot_dyadic zoomed_twice
           (finger 1 10 10) (finger 2 200 10) (finger 1 12 11) (finger 2 205 10)).
  - reflexivity.
  - vm_compute. reflexivity.
  - cbn. lia.
  - reflexivity.
  - reflexivity.
Defined.

End GestureSpec.

(** ** The gallery: what a merge does to the list *)

Module CardsSpec.
Import JS Gallery GallerySpec Cards.

Lemma renderAttachment_card_of (m : Meta) :
  renderAttachment (Object m) = Some (card_of m).
Proof. reflexivity. Qed.

Lemma remove_first_head (c : Card) (cards : list Card) :
  remove_first (attachmentId c) (c :: cards) = cards.
Proof. cbn [remove_first]. rewrite String.eqb_refl. reflexivity. Qed.

Lemma merged_list (label : string) (m : Meta) (cards : list Card)
    (e : option EmptyState) :
  attachmentsList
    (addAttachmentFromMeta label (Object m)
       {| attachmentsList := Some cards; emptyState := e |})
  = Some (card_of m :: remove_first (meta_id m) cards).
Proof.
  destruct (addAttachmentFromMeta_cards label m cards e) as [el [Hr [_ Hl]]].
  rewrite renderAttachment_card_of in Hr. injection Hr as <-. exact Hl.
Qed.

Lemma remove_first_length (i : string) (cards : list Card) :
  List.length (remove_first i cards) =
  if has_id i cards then pred (List.length cards) else List.length cards.
Proof.
  induction cards as [| c cards IH]; cbn [remove_first has_id existsb List.length];
    [reflexivity |].
  destruct (String.eqb (attachmentId c) i); cbn [orb List.length]; [reflexivity |].
  rewrite IH. fold (has_id i cards).
  destruct (has_id i cards) eqn:H; [| reflexivity].
  destruct cards; [discriminate | reflexivity].
Qed.

Lemma remove_first_incl (i : string) (cards : list Card) (x : string) :
  In x (map attachmentId (remove_first i cards)) -> In x (map attachmentId cards).
Proof.
  induction cards as [| c cards IH]; cbn [remove_first map]; [trivial |].
  destruct (String.eqb (attachmentId c) i); cbn [map In]; intuition.
Qed.

Lemma remove_first_NoDup (i : string) (cards : list Card) :
  NoDup (map attachmentId cards) ->
  NoDup (map attachmentId (remove_first i cards)) /\
  ~ In i (map attachmentId (remove_first i cards)).
Proof.
  induction cards as [| c cards IH]; cbn [remove_first map].
  - intros _. split; [constructor | intros []].
  - intros H. inversion H as [| ? ? Hn Hd]; subst.
    destruct (String.eqb_spec (attachmentId c) i) as [<- | Hne].
    + split; assumption.
    + destruct (IH Hd) as [N1 N2]. cbn [map]. split.
      * constructor; [| exact N1].
        intros Hin. apply Hn. exact (remove_first_incl _ _ _ Hin).
      * intros [Heq | Hin]; [contradiction | exact (N2 Hin)].
Qed.

Lemma others_remove_first (i : string) (cards : list Card) :
  others i (remove_first i cards) = others i cards.
Proof.
  unfold others. induction cards as [| c cards IH]; cbn [remove_first filter];
    [reflexivity |].
  destruct (String.eqb (attachmentId c) i) eqn:E; cbn [negb filter]; [reflexivity |].
  rewrite E. cbn [negb]. rewrite IH. reflexivity.
Qed.

Section AnyLabel.

Variable label : string.

Lemma merge_object_form (m : Meta) (cards : list Card) (e : option EmptyState) :
  addAttachmentFromMeta label (Object m)
    {| attachmentsList := Some cards; emptyState := e |}
  = {| attachmentsList := Some (card_of m :: remove_first (meta_id m) cards);
       emptyState := match e with
                     | Some _ => Some {| hidden := true; textContent := label |}
                     | None => None
                     end |}.
Proof.
  unfold addAttachmentFromMeta.
  cbn [attachmentsList emptyState renderAttachment attachmentId].
  rewrite insert_at_front. unfold updateEmptyState.
  cbn [attachmentsList emptyState]. destruct e; reflexivity.
Qed.

(** X7.  Merging an entry is idempotent: merging the same entry a second
    time, object or not, list node present or not, leaves the page as the
    first merge left it. *)
Theorem merging_twice_is_merging_once (meta : Entry) (d : Dom) :
  addAttachmentFromMeta label meta (addAttachmentFromMeta label meta d)
  = addAttachmentFromMeta label meta d.
Proof.
  destruct d as [[cards |] e]; [| reflexivity].
  destruct meta as [m |]; [| reflexivity].
  rewrite !merge_object_form.
  assert (H : forall l, remove_first (meta_id m) (card_of m :: l) = l)
    by (intros l; apply (remove_first_head (card_of m))).
  rewrite H. destruct e; reflexivity.
Qed.

(** X8.  A merge keeps one card per id.  After merging an object entry
    into a list, the list holds a card of that id; it has one card more
    when the id was new and as many as before when it was not; and when
    the ids of the list were distinct they still are. *)
Theorem merge_keeps_one_card_per_id (m : Meta) (cards : list Card)
    (e : option EmptyState) :
  exists cards',
    attachmentsList
      (addAttachmentFromMeta label (Object m)
         {| attachmentsList := Some cards; emptyState := e |}) = Some cards' /\
    has_id (meta_id m) cards' = true /\
    List.length cards' =
      (if has_id (meta_id m) cards then List.length cards
       else S (List.length cards)) /\
    (NoDup (map attachmentId cards) -> NoDup (map attachmentId cards')).
Proof.
  eexists. split; [apply merged_list |]. split; [| split].
  - cbn [has_id existsb card_of attachmentId]. rewrite String.eqb_refl. reflexivity.
  - cbn [List.length]. rewrite remove_first_length.
    destruct (has_id (meta_id m) cards) eqn:H; [| reflexivity].
    destruct cards; [discriminate | reflexivity].
  - intros H. destruct (remove_first_NoDup (meta_id m) cards H) as [N1 N2].
    cbn [map]. constructor; assumption.
Qed.

(** X9.  A merge touches the card of that id only: the cards of the other
    ids are the same cards, in the same order, before and after. *)
Theorem merge_leaves_the_other_cards (m : Meta) (cards : list Card)
    (e : option EmptyState) :
  exists cards',
    attachmentsList
      (addAttachmentFromMeta label (Object m)
         {| attachmentsList := Some cards; emptyState := e |}) = Some cards' /\
    others (meta_id m) cards' = others (meta_id m) cards.
Proof.
  eexists. split; [apply merged_list |].
  unfold others at 1. cbn [filter card_of attachmentId].
  rewrite String.eqb_refl. cbn [negb]. apply others_remove_first.
Qed.

(** X10.  A batch lands in reverse.  When the entries of a response are
    objects with distinct ids, none of them in the list yet, merging them
    in the order of the response puts their cards in front of the old
    cards in the reverse order: the last entry of the response is the
    first card. *)
Theorem batch_of_new_entries_lands_reversed
    (ms : list Meta) (cards : list Card) (e : option EmptyState)
    (Hdistinct : NoDup (map meta_id ms))
    (Hnew : forall m, In m ms -> has_id (meta_id m) cards = false) :
  attachmentsList
    (fold_left (fun d meta => addAttachmentFromMeta label meta d)
       (map Object ms) {| attachmentsList := Some cards; emptyState := e |})
  = Some (rev (map card_of ms) ++ cards).
Proof.
  revert cards e Hdistinct Hnew.
  induction ms as [| m ms IH]; intros cards e Hd Hnew.
  - reflexivity.
  - cbn [map fold_left]. inversion Hd as [| ? ? Hn Hd']; subst.
    assert (A : addAttachmentFromMeta label (Object m)
                  {| attachmentsList := Some cards; emptyState := e |}
                = {| attachmentsList := Some (card_of m :: cards);
                     emptyState := match e with
                                   | Some _ => Some {| hidden := true; textContent := label |}
                                   | None => None
                                   end |}).
    { rewrite merge_object_form,
        (remove_first_absent _ _ (Hnew m (or_introl eq_refl))). reflexivity. }
    rewrite A, IH; [| exact Hd' |].
    + cbn [map rev]. rewrite <- app_assoc. reflexivity.
    + intros m' Hin. cbn [has_id existsb card_of attachmentId].
      fold (has_id (meta_id m') cards). rewrite (Hnew m' (or_intror Hin)), orb_false_r.
      destruct (String.eqb_spec (meta_id m) (meta_id m')) as [Heq | _]; [| reflexivity].
      exfalso. apply Hn. rewrite Heq. apply in_map, Hin.
Qed.

End AnyLabel.

(** *** Merges on a concrete list *)

Local Open Scope string_scope.

Lemma batch_of_new_entries_lands_reversed_witness :
  attachmentsList
    (fold_left (fun d meta => addAttachmentFromMeta "No attachments" meta d)
       (map Object [meta_with_id "50" "x.png"; meta_with_id "51" "y.png"])
       {| attachmentsList := Some three_cards; emptyState := None |})
  = Some ((rev (map card_of [meta_with_id "50" "x.png"; meta_with_id "51" "y.png"])
           ++ three_cards)%list).
Proof.
  apply (batch_of_new_entries_lands_reversed "No attachments"
           [meta_with_id "50" "x.png"; meta_with_id "51" "y.png"] three_cards None).
  - repeat constructor; cbn; intuition discriminate.
  - intros m [<- | [<- | []]]; reflexivity.
Defined.

Example batch_order_on_three_cards :
  card_ids
    (fold_left (fun d meta => addAttachmentFromMeta "No attachments" meta d)
       (map Object [meta_with_id "50" "x.png"; meta_with_id "51" "y.png";
                    meta_with_id "41" "new.png"])
       {| attachmentsList := Some three_cards; emptyState := None |})
  = ["41"; "51"; "50"; "7"; "9"]%list.
Proof. vm_compute. reflexivity. Qed.

End CardsSpec.

(** ** The upload queue: items, progress and the passing of time *)

Module QueueSpec.
Import JS JSFacts Gallery Uploader UploaderSpec Progress.

Lemma item_of_update_other (k k' : nat) (f : QueueItem -> QueueItem) (p : Page) :
  (forall x, item_key (f x) = item_key x) ->
  k' <> k ->
  item_of k' (update_item k f p) = item_of k' p.
Proof.
  intros Hkey Hne. unfold item_of, update_item. cbn [items].
  induction (items p) as [| x xs IH]; cbn [find map]; [reflexivity |].
  destruct (Nat.eqb_spec (item_key x) k) as [Hk | Hk].
  - rewrite Hkey. destruct (Nat.eqb_spec (item_key x) k'); [congruence | exact IH].
  - destruct (Nat.eqb (item_key x) k'); [reflexivity | exact IH].
Qed.

Section AnyLabels.

Variable labels : Labels.

(** X11.  Every file gets a queue item of its own.  Handing a list of
    files to the uploader appends one item per file, in the order of the
    files, each named after its file, keyed by its position among all the
    items built so far and showing the uploading label with no class and
    no width; the queue, when the page has one, gets the new items as its
    last children and is shown when there is at least one file.  Nothing
    else changes, and an empty list changes nothing at all. *)
Theorem every_file_gets_its_own_item (files : list string) (p : Page) :
  let p' := handleFiles labels files p in
  let n := List.length (items p) in
  (exists fresh,
     items p' = items p ++ fresh /\
     map item_key fresh = seq n (List.length files) /\
     map item_name fresh = files /\
     Forall (fun it => item_status it = uploading labels /\
                       item_complete it = false /\ item_error it = false /\
                       item_progress it = None) fresh) /\
  queue p' =
    match queue p with
    | Some q =>
        Some {| queue_hidden := match files with
                                | [] => queue_hidden q
                                | _ :: _ => false
                                end;
                queue_children := queue_children q ++ seq n (List.length files) |}
    | None => None
    end /\
  gallery p' = gallery p /\ timers p' = timers p /\ now p' = now p /\
  (files = [] -> p' = p).
Proof.
  cbv zeta. revert p. induction files as [| f files IH]; intros p.
  - cbn [handleFiles fold_left List.length seq]. split.
    + exists []. rewrite app_nil_r. repeat split. constructor.
    + split; [| auto]. destruct (queue p) as [[h c] |]; [| reflexivity].
      cbn. rewrite app_nil_r. reflexivity.
  - change (handleFiles labels (f :: files) p)
      with (handleFiles labels files (uploadFile labels f p)).
    destruct (IH (uploadFile labels f p)) as [[fresh [Hi [Hk [Hn Hf]]]] [Hq [Hg [Ht [Hw _]]]]].
    assert (L : List.length (items (uploadFile labels f p)) = S (List.length (items p))).
    { cbn [uploadFile items]. rewrite length_app. cbn. lia. }
    rewrite L in Hk, Hq. split.
    + exists (createQueueItem (List.length (items p)) f (uploading labels) :: fresh).
      split; [| split; [| split]].
      * rewrite Hi. cbn [uploadFile items]. rewrite <- app_assoc. reflexivity.
      * cbn [map List.length seq createQueueItem item_key]. rewrite Hk. reflexivity.
      * cbn [map createQueueItem item_name]. rewrite Hn. reflexivity.
      * constructor; [cbn; auto | exact Hf].
    + split; [| split; [exact Hg | split; [exact Ht | split; [exact Hw | discriminate]]]].
      rewrite Hq. cbn [uploadFile queue].
      destruct (queue p) as [[h c] |]; [| reflexivity].
      cbn [queue_hidden queue_children List.length seq].
      rewrite <- app_assoc. destruct files; reflexivity.
Qed.

(** X12.  Uploads do not touch each other's rows.  The load listener, the
    error listener and the progress listener of one item leave every other
    item as it was, and leave the queue and its children as they were. *)
Theorem listeners_touch_their_own_item_only
    (k : nat) (status : N) (response : option Response)
    (computable : bool) (loaded total : N) (p : Page) :
  (forall k', k' <> k ->
     item_of k' (onLoad labels k status response p) = item_of k' p /\
     item_of k' (onError labels k p) = item_of k' p /\
     item_of k' (onProgress k computable loaded total p) = item_of k' p) /\
  queue (onLoad labels k status response p) = queue p /\
  queue (onError labels k p) = queue p /\
  queue (onProgress k computable loaded total p) = queue p /\
  List.length (items (onLoad labels k status response p)) = List.length (items p).
Proof.
  split; [| split; [| split; [| split]]].
  - intros k' Hne. split; [| split].
    + unfold onLoad. destruct response as [r |]; [| reflexivity].
      destruct (is_success status).
      * unfold scheduleQueueRemoval, item_of. cbn [items].
        apply (item_of_update_other k k' _ p); [reflexivity | exact Hne].
      * apply item_of_update_other; [reflexivity | exact Hne].
    + apply item_of_update_other; [reflexivity | exact Hne].
    + unfold onProgress. destruct computable; [| reflexivity].
      destruct (percent_of loaded total); [| reflexivity].
      apply item_of_update_other; [reflexivity | exact Hne].
  - unfold onLoad. destruct response as [r |]; [| reflexivity].
    destruct (is_success status); reflexivity.
  - reflexivity.
  - unfold onProgress. destruct computable; [| reflexivity].
    destruct (percent_of loaded total); reflexivity.
  - unfold onLoad. destruct response as [r |]; [| reflexivity].
    destruct (is_success status); cbn; apply length_map.
Qed.

(** *** A reply without a JSON body *)


(** *** Progress *)

Lemma count_positive (t : N) :
  (0 < t)%N -> 1 <= round64 (inject_Z (Z.of_N t)).
Proof.
  intros H.
  assert (T : 1 <= inject_Z (Z.of_N t)).
  { change 1 with (inject_Z 1). rewrite <- Zle_Qle. lia. }
  pose proof (round64_one 1 (Qeq_refl 1)) as O.
  pose proof (round64_monotone 1 _ ltac:(lra) T). lra.
Qed.

Lemma count_nonneg (a : N) : 0 <= inject_Z (Z.of_N a).
Proof. change 0 with (inject_Z 0). rewrite <- Zle_Qle. lia. Qed.

Lemma percent_of_positive_total (loaded total : N) :
  (0 < total)%N ->
  percent_of loaded total =
  Some (Z.to_N (Math_round
     (mul64 (round64 (round64 (inject_Z (Z.of_N loaded))
                      / round64 (inject_Z (Z.of_N total)))) 100))).
Proof.
  intros H. unfold percent_of, div64.
  destruct (Qeq_bool (round64 (inject_Z (Z.of_N total))) 0) eqn:E; [| reflexivity].
  apply Qeq_bool_iff in E. pose proof (count_positive total H). lra.
Qed.

Lemma ratio_nonneg (a t : N) :
  (0 < t)%N ->
  0 <= round64 (inject_Z (Z.of_N a)) / round64 (inject_Z (Z.of_N t)).
Proof.
  intros Ht. pose proof (count_positive t Ht) as T.
  pose proof (round64_nonneg _ (count_nonneg a)) as A.
  apply Qle_shift_div_l; lra.
Qed.

Lemma ratio_monotone (a b t : N) :
  (0 < t)%N -> (a <= b)%N ->
  mul64 (round64 (round64 (inject_Z (Z.of_N a))
                  / round64 (inject_Z (Z.of_N t)))) 100
  <= mul64 (round64 (round64 (inject_Z (Z.of_N b))
                     / round64 (inject_Z (Z.of_N t)))) 100.
Proof.
  intros Ht Hab. pose proof (count_positive t Ht) as T.
  assert (AB : inject_Z (Z.of_N a) <= inject_Z (Z.of_N b)) by (rewrite <- Zle_Qle; lia).
  pose proof (round64_monotone _ _ (count_nonneg a) AB) as R.
  pose proof (ratio_nonneg a t Ht) as N0.
  assert (D : round64 (inject_Z (Z.of_N a)) / round64 (inject_Z (Z.of_N t))
              <= round64 (inject_Z (Z.of_N b)) / round64 (inject_Z (Z.of_N t))).
  { unfold Qdiv. apply Qmult_le_compat_r; [exact R |].
    apply Qinv_le_0_compat. lra. }
  pose proof (round64_monotone _ _ N0 D) as R'.
  pose proof (round64_nonneg _ N0) as N1.
  unfold mul64. apply round64_monotone; lra.
Qed.

Lemma ratio_full (t : N) :
  (0 < t)%N ->
  mul64 (round64 (round64 (inject_Z (Z.of_N t))
                  / round64 (inject_Z (Z.of_N t)))) 100 == 100.
Proof.
  intros Ht. pose proof (count_positive t Ht) as T.
  assert (O : round64 (round64 (inject_Z (Z.of_N t))
                       / round64 (inject_Z (Z.of_N t))) == 1).
  { apply round64_one. field. lra. }
  unfold mul64. apply round64_hundred. rewrite O. reflexivity.
Qed.

Lemma ratio_zero (t : N) :
  mul64 (round64 (round64 (inject_Z (Z.of_N 0))
                  / round64 (inject_Z (Z.of_N t)))) 100 == 0.
Proof.
  assert (O : round64 (round64 (inject_Z (Z.of_N 0))
                       / round64 (inject_Z (Z.of_N t))) = 0).
  { apply round64_zero. change (round64 (inject_Z (Z.of_N 0))) with 0.
    unfold Qdiv. apply Qmult_0_l. }
  unfold mul64. rewrite O. rewrite (round64_zero (0 * 100)); reflexivity.
Qed.

Lemma Math_round_integer (n : Z) : Math_round (inject_Z n) = n.
Proof.
  unfold Math_round.
  pose proof (Qfloor_le (inject_Z n + (1 # 2))) as Hle.
  pose proof (Qlt_floor (inject_Z n + (1 # 2))) as Hlt.
  rewrite inject_Z_plus in Hlt. change (inject_Z 1) with 1 in Hlt.
  assert (A : inject_Z (Qfloor (inject_Z n + (1 # 2))) < inject_Z (n + 1)).
  { rewrite inject_Z_plus. change (inject_Z 1) with 1. lra. }
  assert (B : inject_Z n < inject_Z (Qfloor (inject_Z n + (1 # 2)) + 1)).
  { rewrite inject_Z_plus. change (inject_Z 1) with 1. lra. }
  rewrite <- Zlt_Qlt in A, B. lia.
Qed.

Lemma Math_round_monotone (x y : Q) : x <= y -> (Math_round x <= Math_round y)%Z.
Proof. intros H. unfold Math_round. apply Qfloor_resp_le. lra. Qed.

(** X13.  The progress bar stays within its track.  For a progress event
    with a positive total and no more bytes sent than the total, the
    width written is a whole percentage between 0 and 100: 0 when nothing
    is sent, 100 when all is, and never smaller for more bytes sent.  An
    event whose length is not computable, or whose total is zero, leaves
    the page as it was. *)
Theorem progress_width_is_a_percentage
    (k : nat) (loaded total : N) (p : Page)
    (Hpos : (0 < total)%N) (Hle : (loaded <= total)%N) :
  exists percent,
    percent_of loaded total = Some percent /\
    (percent <= 100)%N /\
    percent_of 0 total = Some 0%N /\
    percent_of total total = Some 100%N /\
    (forall more percent',
       (loaded <= more)%N -> percent_of more total = Some percent' ->
       (percent <= percent')%N) /\
    (forall it, item_of k p = Some it ->
       exists it', item_of k (onProgress k true loaded total p) = Some it' /\
                   item_progress it' = Some percent /\
                   item_status it' = item_status it) /\
    onProgress k false loaded total p = p /\
    onProgress k true loaded 0 p = p.
Proof.
  rewrite !(percent_of_positive_total _ total Hpos).
  eexists. split; [reflexivity |].
  assert (Full : Math_round
                   (mul64 (round64 (round64 (inject_Z (Z.of_N total))
                                    / round64 (inject_Z (Z.of_N total)))) 100)
                 = 100%Z).
  { unfold Math_round.
    rewrite (Qfloor_comp _ (inject_Z 100 + (1 # 2)))
      by (rewrite (ratio_full total Hpos); reflexivity).
    apply (Math_round_integer 100). }
  assert (Nonneg : forall a : N,
            (0 <= Math_round
                    (mul64 (round64 (round64 (inject_Z (Z.of_N a))
                                     / round64 (inject_Z (Z.of_N total)))) 100))%Z).
  { intros a. unfold Math_round.
    change 0%Z with (Qfloor (inject_Z 0)). apply Qfloor_resp_le.
    pose proof (ratio_monotone 0 a total Hpos (N.le_0_l _)) as R.
    rewrite (ratio_zero total) in R.
    change (inject_Z 0) with 0. lra. }
  split; [| split; [| split; [| split; [| split; [| split]]]]].
  - pose proof (Math_round_monotone _ _ (ratio_monotone loaded total total Hpos Hle)) as M.
    rewrite Full in M. lia.
  - unfold Math_round.
    rewrite (Qfloor_comp _ (inject_Z 0 + (1 # 2)))
      by (rewrite (ratio_zero total); reflexivity).
    reflexivity.
  - rewrite Full. reflexivity.
  - intros more percent' Hmore Hp.
    rewrite (percent_of_positive_total _ total Hpos) in Hp. injection Hp as <-.
    apply Z2N.inj_le; [apply Nonneg | apply Nonneg |].
    apply Math_round_monotone, ratio_monotone; assumption.
  - intros it Hit. unfold onProgress.
    rewrite (percent_of_positive_total _ total Hpos).
    eexists. split; [apply (item_of_update k _ p it); [reflexivity | exact Hit] |].
    split; reflexivity.
  - reflexivity.
  - reflexivity.
Qed.

(** *** What time leaves in the queue *)

Lemma filter_twice (f g : nat -> bool) (l : list nat) :
  filter f (filter g l) = filter (fun x => g x && f x) l.
Proof.
  induction l as [| x l IH]; cbn [filter]; [reflexivity |].
  destruct (g x); cbn [andb filter]; [| exact IH].
  destruct (f x); rewrite IH; reflexivity.
Qed.

Lemma survivors_cons_due (t due : N) (k : nat) (rest : list (N * nat))
    (children : list nat) :
  (due <=? t)%N = true ->
  survivors t ((due, k) :: rest) children =
  survivors t rest (filter (fun c => negb (Nat.eqb c k)) children).
Proof.
  intros Hd. unfold survivors. rewrite filter_twice. apply filter_ext.
  intros c. cbn [existsb]. unfold due_for at 1. cbn [fst snd].
  rewrite Hd, (Nat.eqb_sym k c). cbn [andb].
  destruct (Nat.eqb c k); reflexivity.
Qed.

Lemma survivors_cons_later (t due : N) (k : nat) (rest : list (N * nat))
    (children : list nat) :
  (due <=? t)%N = false ->
  survivors t ((due, k) :: rest) children = survivors t rest children.
Proof.
  intros Hd. unfold survivors. apply filter_ext. intros c.
  cbn [existsb]. unfold due_for at 1. cbn [fst snd]. rewrite Hd. reflexivity.
Qed.

Lemma survivors_none_due (t : N) (pending : list (N * nat)) (children : list nat) :
  any_due t pending = false -> survivors t pending children = children.
Proof.
  intros H. unfold survivors.
  assert (E : forall c, existsb (due_for t c) pending = false).
  { intros c. unfold any_due in H.
    induction pending as [| tm rest IH]; cbn [existsb] in *; [reflexivity |].
    apply orb_false_iff in H. destruct H as [H1 H2].
    unfold due_for at 1. rewrite H1. cbn [andb orb]. exact (IH H2). }
  induction children as [| c cs IH]; cbn [filter]; [reflexivity |].
  rewrite E. cbn [negb]. rewrite IH. reflexivity.
Qed.

Lemma survivors_nil_of_nil (t : N) (pending : list (N * nat)) :
  survivors t pending [] = [].
Proof. reflexivity. Qed.

Lemma survivors_incl_nonempty (t : N) (pending : list (N * nat))
    (children : list nat) :
  survivors t pending children <> [] -> children <> [].
Proof. intros H E. apply H. rewrite E. reflexivity. Qed.

Lemma fire_queue (t : N) (pending : list (N * nat)) (p : Page) :
  queue (snd (fire t pending p)) =
  match queue p with
  | Some q =>
      Some {| queue_hidden :=
                match survivors t pending (queue_children q) with
                | [] => if any_due t pending then true else queue_hidden q
                | _ :: _ => queue_hidden q
                end;
              queue_children := survivors t pending (queue_children q) |}
  | None => None
  end.
Proof.
  revert p. induction pending as [| [due k] rest IH]; intros p.
  - cbn [fire snd any_due existsb]. destruct (queue p) as [[h c] |]; [| reflexivity].
    cbn [queue_children queue_hidden]. unfold survivors. cbn [existsb negb].
    assert (F : filter (fun _ : nat => true) c = c)
      by (induction c as [| x xs IHc]; cbn; [| rewrite IHc]; reflexivity).
    rewrite F. destruct c; reflexivity.
  - cbn [fire]. destruct (due <=? t)%N eqn:Hd.
    + rewrite IH. unfold remove_item. cbn [queue].
      destruct (queue p) as [[h c] |]; [| reflexivity].
      cbn [queue_children queue_hidden].
      rewrite (survivors_cons_due t due k rest c Hd).
      cbn [any_due existsb fst]. rewrite Hd. cbn [orb].
      set (c1 := filter (fun x => negb (Nat.eqb x k)) c).
      destruct (survivors t rest c1) as [| s ss] eqn:S.
      * fold (any_due t rest). destruct (any_due t rest) eqn:A; [reflexivity |].
        rewrite (survivors_none_due t rest c1 A) in S. rewrite S. reflexivity.
      * assert (N : c1 <> []).
        { apply (survivors_incl_nonempty t rest). rewrite S. discriminate. }
        destruct c1; [contradiction | reflexivity].
    + specialize (IH p). destruct (fire t rest p) as [kept p']. cbn [snd] in *.
      rewrite IH. destruct (queue p) as [[h c] |]; [| reflexivity].
      cbn [queue_children queue_hidden].
      rewrite (survivors_cons_later t due k rest c Hd).
      cbn [any_due existsb fst]. rewrite Hd. reflexivity.
Qed.

(** X14.  What time leaves in the queue.  After some time has passed the
    queue holds, in their order, exactly the items for which no timeout
    has come due; it is hidden when a timeout has run and no item is left,
    and otherwise keeps the visibility it had.  So the queue disappears
    when the last completed item leaves it, and stays on the page as long
    as an item without a timeout, a failed one, sits in it. *)
Theorem queue_after_time_has_passed (dt : N) (p : Page) :
  let t := (now p + dt)%N in
  queue (elapse dt p) =
    match queue p with
    | Some q =>
        Some {| queue_hidden :=
                  match survivors t (timers p) (queue_children q) with
                  | [] => if any_due t (timers p) then true else queue_hidden q
                  | _ :: _ => queue_hidden q
                  end;
                queue_children := survivors t (timers p) (queue_children q) |}
    | None => None
    end /\
  (forall k, has_timer k p = false -> is_attached k p = true ->
     option_map queue_hidden (queue (elapse dt p)) = option_map queue_hidden (queue p)) /\
  now (elapse dt p) = t.
Proof.
  cbv zeta.
  assert (Q : queue (elapse dt p) = queue (snd (fire (now p + dt) (timers p) p))).
  { unfold elapse. destruct (fire (now p + dt) (timers p) p); reflexivity. }
  split; [rewrite Q; apply fire_queue |]. split.
  - intros k Hnone Hatt. rewrite Q, fire_queue.
    unfold is_attached in Hatt. destruct (queue p) as [q |]; [| discriminate].
    cbn [option_map queue_hidden].
    destruct (survivors (now p + dt) (timers p) (queue_children q)) as [| s ss] eqn:S;
      [| reflexivity].
    exfalso. apply existsb_exists in Hatt. destruct Hatt as [c [Hin Hc]].
    apply Nat.eqb_eq in Hc. subst c.
    assert (Hs : In k (survivors (now p + dt) (timers p) (queue_children q))).
    { unfold survivors. apply filter_In. split; [exact Hin |].
      rewrite (no_timer_none_due _ k p Hnone). reflexivity. }
    rewrite S in Hs. destruct Hs.
  - unfold elapse. destruct (fire (now p + dt) (timers p) p); reflexivity.
Qed.

End AnyLabels.

(** *** Progress on concrete byte counts *)

Lemma progress_width_is_a_percentage_witness :
  exists percent,
    percent_of 1234 5000 = Some percent /\ (percent <= 100)%N /\
    percent_of 5000 5000 = Some 100%N.
Proof.
  destruct (progress_width_is_a_percentage 0 1234 5000 one_upload)
    as [percent [H1 [H2 [_ [H3 _]]]]].
  - reflexivity.
  - discriminate.
  - exists percent. split; [exact H1 |]. split; [exact H2 | exact H3].
Defined.


Example progress_rounds_to_the_nearest_percent :
  percent_of 1234 5000 = Some 25%N /\ percent_of 1 3 = Some 33%N /\
  percent_of 2 3 = Some 67%N /\ percent_of 7 0 = None.
Proof. vm_compute. repeat split. Qed.

(** 23 bytes of 40: the binary64 quotient lies below 0.575, its product
    with 100 below 57.5, and the width is 57%, where the quotient of the
    reals would have given 58%. *)
Example progress_percent_is_the_binary64_one :
  percent_of 23 40 = Some 57%N /\
  mul64 (round64 (23 # 40)) 100 < 115 # 2 /\
  Math_round ((23 # 40) * 100) = 58%Z.
Proof. vm_compute. repeat split. Qed.

End QueueSpec.

(** ** Utilities: tags, selectors, the CSRF header *)

Module UtilSpec.
Import JS Util.

Local Open Scope string_scope.

(** *** stripTags *)

Lemma strip_keeps_no_new_char (c : ascii) (s : string) (inside : bool) :
  has_char c (strip inside s) = true -> has_char c s = true.
Proof.
  revert inside. induction s as [| a rest IH]; intros inside; cbn [strip has_char];
    [trivial |].
  destruct inside.
  - destruct (Ascii.eqb a ">"); intros H; apply IH in H; rewrite H; apply orb_true_r.
  - destruct (Ascii.eqb a "<");
      [destruct (negb (starts_with ">" rest) && has_char ">" rest) |];
      cbn [has_char]; intros H;
      try (apply IH in H; rewrite H; apply orb_true_r);
      apply orb_true_iff in H; destruct H as [H | H];
      try (rewrite H; reflexivity);
      apply IH in H; rewrite H; apply orb_true_r.
Qed.

Lemma starts_with_strip (c : ascii) (rest : string) :
  starts_with ">" rest = true ->
  starts_with ">" (strip false rest) = true.
Proof.
  destruct rest as [| d r]; cbn [starts_with strip]; [discriminate |].
  intros H. destruct (Ascii.eqb_spec d ">") as [-> | ]; [| discriminate].
  cbn. reflexivity.
Qed.

Lemma strip_is_tag_free (s : string) (inside : bool) :
  tag_free (strip inside s) = true.
Proof.
  revert inside. induction s as [| a rest IH]; intros inside; cbn [strip];
    [reflexivity |].
  destruct inside.
  - destruct (Ascii.eqb a ">"); apply IH.
  - destruct (Ascii.eqb a "<") eqn:Ea.
    + destruct (starts_with ">" rest) eqn:Es; cbn [negb andb].
      * cbn [tag_free]. rewrite Ea, (starts_with_strip a rest Es), IH. reflexivity.
      * destruct (has_char ">" rest) eqn:Eh; [apply IH |].
        cbn [tag_free]. rewrite Ea, IH, andb_true_r.
        destruct (has_char ">" (strip false rest)) eqn:Eh'.
        -- apply strip_keeps_no_new_char in Eh'. congruence.
        -- apply orb_true_r.
    + cbn [tag_free]. rewrite Ea. apply IH.
Qed.

Lemma strip_of_tag_free (s : string) : tag_free s = true -> strip false s = s.
Proof.
  induction s as [| a rest IH]; cbn [strip tag_free]; [reflexivity |].
  intros H. apply andb_true_iff in H. destruct H as [H1 H2].
  rewrite (IH H2).
  destruct (Ascii.eqb a "<"); [| reflexivity].
  destruct (starts_with ">" rest); cbn [negb andb orb] in *; [reflexivity |].
  apply negb_true_iff in H1. rewrite H1. reflexivity.
Qed.

Lemma strip_inside_to_close (body rest : string) :
  has_char ">" body = false ->
  strip true (body ++ String ">" rest) = strip false rest.
Proof.
  induction body as [| a body IH]; cbn [append strip has_char].
  - reflexivity.
  - intros H. apply orb_false_iff in H. destruct H as [H1 H2].
    rewrite H1. exact (IH H2).
Qed.

Lemma has_char_app (c : ascii) (a b : string) :
  has_char c (a ++ b) = has_char c a || has_char c b.
Proof.
  induction a as [| x a IH]; cbn [append has_char]; [reflexivity |].
  rewrite IH. apply orb_assoc.
Qed.

Lemma strip_length (s : string) (inside : bool) :
  (String.length (strip inside s) <= String.length s)%nat.
Proof.
  revert inside. induction s as [| a rest IH]; intros inside; cbn [strip String.length];
    [lia |].
  destruct inside.
  - destruct (Ascii.eqb a ">"); [specialize (IH false) | specialize (IH true)]; lia.
  - destruct (Ascii.eqb a "<");
      [destruct (negb (starts_with ">" rest) && has_char ">" rest) |];
      cbn [String.length];
      try (specialize (IH false); lia); specialize (IH true); lia.
Qed.

(** X15.  [stripTags] takes out every tag and nothing else.  The result
    has no match of the tag pattern left, so stripping it again changes
    nothing; a text without a match comes back as it is; the result is
    never longer than the text; a tag (a less-than sign, a non-empty body
    without a greater-than sign, a greater-than sign) after a text that has
    no less-than sign is dropped with the text before it kept; and an
    absent or empty value gives the empty string. *)
Theorem stripTags_removes_every_tag (s : string) :
  tag_free (stripTags (Some s)) = true /\
  stripTags (Some (stripTags (Some s))) = stripTags (Some s) /\
  (tag_free s = true -> stripTags (Some s) = s) /\
  (String.length (stripTags (Some s)) <= String.length s)%nat /\
  (forall before body after : string,
     has_char "<" before = false ->
     body <> "" -> has_char ">" body = false ->
     s = before ++ String "<" (body ++ String ">" after) ->
     stripTags (Some s) = before ++ stripTags (Some after)) /\
  stripTags None = "" /\ stripTags (Some "") = "".
Proof.
  assert (E : forall x, stripTags (Some x) = strip false x).
  { intros x. unfold stripTags. destruct x; reflexivity. }
  rewrite !E. split; [apply strip_is_tag_free |].
  split; [apply strip_of_tag_free, strip_is_tag_free |].
  split; [apply strip_of_tag_free |].
  split; [apply strip_length |].
  split; [| split; reflexivity].
  intros before body after Hb Hne Hg ->. rewrite E.
  induction before as [| a before IH]; cbn [append strip].
  - change (Ascii.eqb "<" "<") with true. cbv iota.
    destruct body as [| d body]; [contradiction |].
    cbn [append starts_with has_char] in *.
    apply orb_false_iff in Hg. destruct Hg as [Hd Hg].
    rewrite Hd. cbn [negb andb].
    rewrite has_char_app. cbn [has_char]. rewrite Ascii.eqb_refl, orb_true_r.
    cbn [orb]. cbn [strip]. rewrite Hd. apply strip_inside_to_close, Hg.
  - cbn [has_char] in Hb. apply orb_false_iff in Hb. destruct Hb as [Ha Hb].
    rewrite Ha. rewrite (IH Hb). reflexivity.
Qed.

Example stripTags_on_a_confirmation :
  stripTags (Some "Delete <b>plan.png</b>? <i>This cannot be undone.</i>")
    = "Delete plan.png? This cannot be undone." /\
  stripTags (Some "a <> b < c") = "a <> b < c" /\
  stripTags (Some "x <<y> z") = "x  z".
Proof. vm_compute. repeat split. Qed.

(** *** escapeSelector *)

Lemma no_newline_cons (c : ascii) (s : string) :
  (forall x, is_newline x = true -> has_char x (String c s) = false) ->
  is_newline c = false /\
  (forall x, is_newline x = true -> has_char x s = false).
Proof.
  intros H. split.
  - destruct (is_newline c) eqn:E; [| reflexivity].
    specialize (H c E). cbn [has_char] in H. rewrite Ascii.eqb_refl in H. discriminate.
  - intros x Hx. specialize (H x Hx). cbn [has_char] in H.
    apply orb_false_iff in H. apply H.
Qed.

(** X16.  The fallback of [escapeSelector] keeps the selector whole.  For
    a value with no line break in it, the text the browser reads back from
    the quoted string of the selector, that is from the escaped value
    followed by the closing double quote and whatever comes after, is the
    value itself: no quote or backslash of the value ends the string early
    or changes it.  A value without quotes and backslashes is not
    changed. *)
Theorem escaped_selector_reads_back_as_the_value
    (value tail : string)
    (Hline : forall x, is_newline x = true -> has_char x value = false) :
  read_css_string (escapeSelector None value ++ String double_quote tail)
    = Some value /\
  (has_char double_quote value = false -> has_char "\" value = false ->
   escapeSelector None value = value).
Proof.
  unfold escapeSelector. split.
  - induction value as [| c value IH]; cbn [escape_quotes append read_css_string].
    + change (Ascii.eqb double_quote "\") with false. cbv iota.
      rewrite Ascii.eqb_refl. reflexivity.
    + destruct (no_newline_cons c value Hline) as [Hc Hrest].
      destruct (Ascii.eqb c double_quote || Ascii.eqb c "\") eqn:E.
      * cbn [append read_css_string]. rewrite Ascii.eqb_refl, E.
        rewrite (IH Hrest). reflexivity.
      * cbn [append read_css_string]. apply orb_false_iff in E.
        destruct E as [E1 E2]. rewrite E2, E1, Hc, (IH Hrest). reflexivity.
  - intros Hq Hb. induction value as [| c value IH]; cbn [escape_quotes]; [reflexivity |].
    cbn [has_char] in Hq, Hb.
    apply orb_false_iff in Hq. apply orb_false_iff in Hb.
    destruct Hq as [Hq1 Hq2], Hb as [Hb1 Hb2].
    destruct (no_newline_cons c value Hline) as [_ Hrest].
    rewrite Hq1, Hb1, (IH Hrest Hq2 Hb2). reflexivity.
Qed.

Lemma escaped_selector_reads_back_witness :
  read_css_string (escapeSelector None quoted_id ++ String double_quote "]")
    = Some quoted_id /\
  (has_char double_quote quoted_id = false -> has_char "\" quoted_id = false ->
   escapeSelector None quoted_id = quoted_id).
Proof.
  apply (escaped_selector_reads_back_as_the_value quoted_id "]").
  intros x Hx. unfold is_newline in Hx.
  apply orb_true_iff in Hx. destruct Hx as [Hx | Hx];
    [apply orb_true_iff in Hx; destruct Hx as [Hx | Hx] |];
    apply Ascii.eqb_eq in Hx; subst x; reflexivity.
Defined.

(** *** The CSRF header *)

Lemma after_prefix_app (pre s rest : string) :
  after_prefix pre s = Some rest -> s = pre ++ rest.
Proof.
  revert s. induction pre as [| a pre IH]; intros s; cbn [after_prefix append].
  - intros [= ->]. reflexivity.
  - destruct s as [| b s]; [discriminate |].
    destruct (Ascii.eqb_spec a b) as [-> | ]; [| discriminate].
    intros H. rewrite (IH _ H). reflexivity.
Qed.

Lemma after_prefix_prefix (pre s : string) :
  after_prefix pre s = None <-> prefix pre s = false.
Proof.
  revert s. induction pre as [| a pre IH]; intros s.
  - destruct s; cbn; split; discriminate.
  - destruct s as [| b s]; cbn [after_prefix prefix]; [split; reflexivity |].
    destruct (Ascii.eqb_spec a b) as [-> | Hne].
    + destruct (ascii_dec b b) as [_ | N]; [apply IH | contradiction].
    + destruct (ascii_dec a b) as [E | _]; [contradiction | split; reflexivity].
Qed.

Lemma prefix_app (a b : string) : prefix a (a ++ b) = true.
Proof.
  induction a as [| x a IH]; cbn [append prefix]; [destruct b; reflexivity |].
  destruct (ascii_dec x x) as [_ | N]; [exact IH | contradiction].
Qed.

Lemma until_semicolon_split (s : string) :
  exists tail, s = until_semicolon s ++ tail.
Proof.
  induction s as [| c s [tail IH]]; cbn [until_semicolon].
  - exists "". reflexivity.
  - destruct (Ascii.eqb c ";"); [exists (String c s); reflexivity |].
    exists tail. cbn [append]. rewrite <- IH. reflexivity.
Qed.

Lemma until_semicolon_clean (s : string) :
  has_char ";" (until_semicolon s) = false.
Proof.
  induction s as [| c s IH]; cbn [until_semicolon]; [reflexivity |].
  destruct (Ascii.eqb c ";") eqn:E; [reflexivity |].
  cbn [has_char]. rewrite E. exact IH.
Qed.

Lemma includes_tail (c : ascii) (s sub : string) :
  includes s sub = true -> includes (String c s) sub = true.
Proof. intros H. cbn [includes]. rewrite H. apply orb_true_r. Qed.

Lemma append_assoc (a b c : string) : (a ++ b) ++ c = a ++ b ++ c.
Proof. induction a as [| x a IH]; cbn [append]; [| rewrite IH]; reflexivity. Qed.

Lemma includes_prefix (a b : string) : includes (a ++ b) a = true.
Proof.
  pose proof (prefix_app a b) as P.
  destruct (a ++ b); cbn [includes]; rewrite P; reflexivity.
Qed.

Section AnyDecoder.

Variable decodeURIComponent : string -> option string.

(** X17.  The CSRF header follows the cookie.  What the script captures
    from the cookie string is never empty, has no semicolon in it, and
    stands in the cookie string right after [csrftoken=].  When the cookie
    string does not contain [csrftoken=] the token is the empty string and
    the only header of an upload is [X-Requested-With]; with a non-empty
    token the upload carries it in [X-CSRFToken] as well. *)
Theorem csrf_header_follows_the_cookie (cookie : string) :
  (forall captured,
     match_csrftoken cookie = Some captured ->
     captured <> "" /\ has_char ";" captured = false /\
     includes cookie ("csrftoken=" ++ captured) = true) /\
  (includes cookie "csrftoken=" = false ->
   getCSRFToken decodeURIComponent cookie = Some "" /\
   buildHeaders "" = [("X-Requested-With", "XMLHttpRequest")]) /\
  (forall token,
     getCSRFToken decodeURIComponent cookie = Some token -> token <> "" ->
     buildHeaders token =
     [("X-Requested-With", "XMLHttpRequest"); ("X-CSRFToken", token)]).
Proof.
  split; [| split].
  - induction cookie as [| c cookie IH]; intros captured; [discriminate |].
    cbn [match_csrftoken].
    destruct (after_prefix "csrftoken=" (String c cookie)) as [value |] eqn:A.
    + destruct (until_semicolon value) as [| d v] eqn:U.
      * intros H. destruct (IH _ H) as [H1 [H2 H3]].
        split; [exact H1 |]. split; [exact H2 |]. apply includes_tail, H3.
      * intros [= <-]. split; [discriminate |].
        split; [rewrite <- U; apply until_semicolon_clean |].
        apply after_prefix_app in A.
        destruct (until_semicolon_split value) as [tail T].
        rewrite U in T. rewrite A, T, <- append_assoc.
        apply includes_prefix.
    + intros H. destruct (IH _ H) as [H1 [H2 H3]].
      split; [exact H1 |]. split; [exact H2 |]. apply includes_tail, H3.
  - intros Hno. split; [| reflexivity].
    unfold getCSRFToken.
    assert (M : match_csrftoken cookie = None).
    { induction cookie as [| c cookie IH]; [reflexivity |].
      cbn [includes] in Hno. apply orb_false_iff in Hno. destruct Hno as [Hp Hr].
      cbn [match_csrftoken].
      apply after_prefix_prefix in Hp. rewrite Hp. exact (IH Hr). }
    rewrite M. reflexivity.
  - intros token _ Hne. unfold buildHeaders.
    destruct token; [contradiction | reflexivity].
Qed.

End AnyDecoder.

Example csrf_token_of_a_cookie_string :
  match_csrftoken "sessionid=abc; csrftoken=Zx9%3D; theme=dark" = Some "Zx9%3D" /\
  match_csrftoken "csrftoken=; sessionid=abc" = None /\
  match_csrftoken "sessionid=abc" = None.
Proof. vm_compute. repeat split. Qed.

End UtilSpec.

(** ** Delete links without the URL constructor *)

Module DeleteUrlFallbackSpec.
Import JS DeleteUrl UtilSpec.

Local Open Scope string_scope.

Lemma includes_app_r (a b sub : string) :
  includes b sub = true -> includes (a ++ b) sub = true.
Proof.
  intros H. induction a as [| c a IH]; cbn [append]; [exact H |].
  apply includes_tail, IH.
Qed.

(** X18.  Decorating twice is decorating once.  In a browser where the
    URL constructor throws, a delete link that has gone through
    [decorateDeleteUrl] comes back unchanged from a second pass: the
    return target is appended once.  After the first pass a non-empty link
    contains [next=] whenever there is a return target, and the link ends
    with the encoded target when it was appended.  An empty link stays
    empty whatever the parser. *)
Theorem fallback_decoration_is_idempotent (deleteNext url : string) :
  let decorate := decorateDeleteUrl (fun _ => None) deleteNext in
  decorate (decorate url) = decorate url /\
  (url <> "" -> deleteNext <> "" -> includes (decorate url) "next=" = true) /\
  (decorate url = url \/
   exists glue, (glue = "?" \/ glue = "&") /\
     decorate url = url ++ glue ++ "next=" ++ encodeURIComponent deleteNext) /\
  (forall parseURL, decorateDeleteUrl parseURL deleteNext "" = "").
Proof.
  cbv zeta.
  assert (Added : forall glue : string,
            includes (url ++ glue ++ "next=" ++ encodeURIComponent deleteNext)
              "next=" = true).
  { intros glue. apply includes_app_r, includes_app_r, includes_prefix. }
  unfold decorateDeleteUrl.
  destruct url as [| c url]; cbn [truthy negb].
  { split; [reflexivity |]. split; [intros H; contradiction |]. split; auto. }
  destruct (includes (String c url) "next=") eqn:I; cbn [orb].
  { split; [rewrite I; reflexivity |]. split; auto. }
  destruct deleteNext as [| n next] eqn:D; cbn [truthy negb].
  { split; [rewrite I; reflexivity |]. split; [intros _ H; contradiction | auto]. }
  rewrite <- D in *.
  set (glue := if includes (String c url) "?" then "&" else "?") in *.
  specialize (Added glue). cbn [append] in Added |- *. cbn [truthy negb].
  rewrite Added. cbn [orb].
  split; [reflexivity |]. split; [intros _ _; reflexivity |]. split; [| reflexivity].
  right. exists glue. split; [| reflexivity].
  unfold glue. destruct (includes (String c url) "?"); auto.
Qed.

End DeleteUrlFallbackSpec.

(** ** The page around the overlays *)

Module ShellSpec.
Import JS Shell.

Local Open Scope string_scope.

Lemma listener_eqb_eq (a b : Listener) : listener_eqb a b = true <-> a = b.
Proof. destruct a, b; cbn; split; congruence. Qed.

Lemma existsb_listener (l : Listener) (ls : list Listener) :
  existsb (listener_eqb l) ls = true <-> In l ls.
Proof.
  rewrite existsb_exists. split.
  - intros [x [Hin Hx]]. apply listener_eqb_eq in Hx. subst. exact Hin.
  - intros Hin. exists l. split; [exact Hin | apply listener_eqb_eq; reflexivity].
Qed.

Lemma In_add_listener (l x : Listener) (ls : list Listener) :
  In x (add_listener l ls) <-> x = l \/ In x ls.
Proof.
  unfold add_listener. destruct (existsb (listener_eqb l) ls) eqn:E.
  - apply existsb_listener in E. intuition congruence.
  - rewrite in_app_iff. cbn [In]. intuition.
Qed.

Lemma NoDup_add_listener (l : Listener) (ls : list Listener) :
  NoDup ls -> NoDup (add_listener l ls).
Proof.
  intros H. unfold add_listener. destruct (existsb (listener_eqb l) ls) eqn:E;
    [exact H |].
  apply NoDup_app; [exact H | repeat constructor; intros [] |].
  intros x Hx [<- | []].
  apply existsb_listener in Hx. congruence.
Qed.

Lemma In_remove_listener (l x : Listener) (ls : list Listener) :
  In x (remove_listener l ls) <-> x <> l /\ In x ls.
Proof.
  unfold remove_listener. rewrite filter_In, negb_true_iff.
  split; intros [A B].
  - split; [| exact A]. intros ->.
    assert (T : listener_eqb l l = true) by (apply listener_eqb_eq; reflexivity).
    congruence.
  - split; [exact B |].
    destruct (listener_eqb l x) eqn:E; [| reflexivity].
    apply listener_eqb_eq in E. congruence.
Qed.

Lemma NoDup_remove_listener (l : Listener) (ls : list Listener) :
  NoDup ls -> NoDup (remove_listener l ls).
Proof. apply NoDup_filter. Qed.

Lemma remove_added_listener (l : Listener) (ls : list Listener) :
  ~ In l ls -> remove_listener l (add_listener l ls) = ls.
Proof.
  intros H. unfold add_listener.
  destruct (existsb (listener_eqb l) ls) eqn:E;
    [apply existsb_listener in E; contradiction |].
  unfold remove_listener. rewrite filter_app. cbn [filter].
  assert (T : listener_eqb l l = true) by (apply listener_eqb_eq; reflexivity).
  rewrite T. cbn [negb]. rewrite app_nil_r.
  induction ls as [| x ls IH]; cbn [filter]; [reflexivity |].
  destruct (listener_eqb l x) eqn:Ex.
  - apply listener_eqb_eq in Ex. subst. exfalso. apply H. left. reflexivity.
  - cbn [negb]. rewrite IH; [reflexivity | | ].
    + intros Hin. apply H. right. exact Hin.
    + cbn [existsb] in E. apply orb_false_iff in E. apply E.
Qed.

Lemma or_else_saved (s : string) : or_else (Some s) "" = s.
Proof. destruct s; reflexivity. Qed.

(** X19.  Opening and closing the lightbox gives the page back.  From a
    page without the lightbox's key listener, a click on a viewer trigger
    with a source shows the overlay on that source at scale 1 and pan
    (0, 0), with the spinner shown, the body's overflow set to hidden, the
    key listener installed and the focus left where it was; closing then
    hides the overlay, empties the image's source, puts the body's
    overflow back to what it was, takes the listener off again and moves
    the focus to the trigger.  The document modal is not touched. *)
Theorem lightbox_open_then_close_gives_the_page_back
    (p : Page) (trigger : Element) (src : string)
    (Hsrc : Preview.data_src (dataset trigger) = Some src)
    (Hne : src <> "")
    (Hfree : ~ In onKeyDown_listener (keydown p)) :
  let o := openOverlay trigger p in
  let c := closeOverlay o in
  (lightbox_shown o = true /\
   Lightbox.scale (view o) = 1%Q /\
   Lightbox.panX (view o) = 0%Q /\ Lightbox.panY (view o) = 0%Q /\
   image_src (nodes o) = src /\ download_href (nodes o) = src /\
   title_text (nodes o) = or_else (Preview.data_name (dataset trigger)) "" /\
   spinner_hidden (nodes o) = false /\
   body_overflow o = "hidden" /\
   In onKeyDown_listener (keydown o) /\
   focused o = focused p) /\
  (lightbox_shown c = false /\
   image_src (nodes c) = "" /\
   body_overflow c = body_overflow p /\
   keydown c = keydown p /\
   focused c = focus_on trigger /\
   doc c = doc p).
Proof.
  cbv zeta.
  assert (O : openOverlay trigger p =
              {| view := Lightbox.openOverlay (Some src) (view p);
                 doc := doc p;
                 nodes := {| image_src := src;
                             image_alt := or_else (Preview.data_name (dataset trigger)) "";
                             title_text := or_else (Preview.data_name (dataset trigger)) "";
                             download_href := src;
                             spinner_hidden := false;
                             data_active := true |};
                 doc_download_href := doc_download_href p;
                 body_overflow := "hidden";
                 initialBodyOverflow := Some (body_overflow p);
                 keydown := add_listener onKeyDown_listener (keydown p);
                 focused := focused p;
                 lastActiveTrigger := Some trigger;
                 lastActiveDocTrigger := lastActiveDocTrigger p |}).
  { unfold openOverlay. rewrite Hsrc. destruct src; [contradiction | reflexivity]. }
  assert (V : Lightbox.openOverlay (Some src) (view p) =
              Lightbox.set_overlay (Some false) (Lightbox.resetTransform (view p))).
  { unfold Lightbox.openOverlay. destruct src; [contradiction | reflexivity]. }
  rewrite O. unfold closeOverlay, lightbox_shown. cbn [view nodes]. rewrite V.
  cbn [Lightbox.overlay Lightbox.set_overlay Lightbox.scale Lightbox.panX
       Lightbox.panY Lightbox.resetTransform Lightbox.set_transform
       Lightbox.closeOverlay Lightbox.set_gesture
       view nodes doc body_overflow keydown focused initialBodyOverflow
       lastActiveTrigger image_src download_href title_text spinner_hidden].
  split.
  - repeat split. apply In_add_listener. left. reflexivity.
  - repeat split.
    + apply or_else_saved.
    + apply remove_added_listener, Hfree.
Qed.

Section AnyLabel.

Variable previewLabel : string.

(** X20.  Opening and closing the document modal gives the page back.
    From a page without the modal's key listener, a click on a preview
    trigger with a source shows the modal with its frame on that source,
    the title set to the trigger's name or else the preview label, the
    spinner shown, the body's overflow set to hidden and the key listener
    installed; closing then hides the modal, sets the frame to
    [about:blank], shows the spinner for the next time, puts the body's
    overflow back to what it was, takes the listener off again and moves
    the focus to the trigger.  The lightbox is not touched. *)
Theorem doc_modal_open_then_close_gives_the_page_back
    (p : Page) (trigger : Element) (src : string)
    (Hsrc : Preview.data_src (dataset trigger) = Some src)
    (Hne : src <> "")
    (Hfree : ~ In onDocKeyDown_listener (keydown p)) :
  let o := openDocOverlay previewLabel trigger p in
  let c := closeDocOverlay o in
  (doc_shown o = true /\
   Preview.docFrame_src (doc o) = src /\
   Preview.docTitle (doc o) = or_else (Preview.data_name (dataset trigger)) previewLabel /\
   Preview.docSpinner_hidden (doc o) = false /\
   doc_download_href o = src /\
   body_overflow o = "hidden" /\
   In onDocKeyDown_listener (keydown o) /\
   focused o = focused p) /\
  (doc_shown c = false /\
   Preview.docFrame_src (doc c) = "about:blank" /\
   Preview.docSpinner_hidden (doc c) = false /\
   body_overflow c = body_overflow p /\
   keydown c = keydown p /\
   focused c = focus_on trigger /\
   view c = view p).
Proof.
  cbv zeta.
  assert (D : Preview.openDocOverlay previewLabel (dataset trigger) (doc p) =
              {| Preview.docOverlay := Some false;
                 Preview.docFrame_src := src;
                 Preview.docTitle := or_else (Preview.data_name (dataset trigger)) previewLabel;
                 Preview.docSpinner_hidden := false |}).
  { unfold Preview.openDocOverlay. rewrite Hsrc. destruct src; [contradiction | reflexivity]. }
  assert (O : openDocOverlay previewLabel trigger p =
              {| view := view p;
                 doc := Preview.openDocOverlay previewLabel (dataset trigger) (doc p);
                 nodes := nodes p;
                 doc_download_href := src;
                 body_overflow := "hidden";
                 initialBodyOverflow := Some (body_overflow p);
                 keydown := add_listener onDocKeyDown_listener (keydown p);
                 focused := focused p;
                 lastActiveTrigger := lastActiveTrigger p;
                 lastActiveDocTrigger := Some trigger |}).
  { unfold openDocOverlay. rewrite Hsrc. destruct src; [contradiction | reflexivity]. }
  rewrite O, D. unfold closeDocOverlay, doc_shown.
  cbn [doc view body_overflow keydown focused initialBodyOverflow
       lastActiveDocTrigger doc_download_href
       Preview.docOverlay Preview.docFrame_src Preview.docTitle
       Preview.docSpinner_hidden Preview.closeDocOverlay].
  split.
  - repeat split. apply In_add_listener. left. reflexivity.
  - repeat split.
    + apply or_else_saved.
    + apply remove_added_listener, Hfree.
Qed.

End AnyLabel.

(** *** Listeners and the scroll lock over a whole session *)

Lemma listener_cases (x : Listener) :
  x = onKeyDown_listener \/ x = onDocKeyDown_listener.
Proof. destruct x; auto. Qed.

Lemma locked_openOverlay (trigger : Element) (p : Page) :
  locked p -> locked (openOverlay trigger p).
Proof.
  intros L. unfold openOverlay.
  destruct (Preview.data_src (dataset trigger)) as [src |]; [| exact L].
  destruct (truthy src) eqn:T; [| exact L].
  destruct L as [Nd [Hk [Hd [Ho Hb]]]].
  unfold locked, lightbox_shown, doc_shown in *.
  cbn [view doc keydown body_overflow initialBodyOverflow].
  unfold Lightbox.openOverlay. cbn [truthy_opt]. rewrite T.
  cbn [Lightbox.overlay Lightbox.set_overlay].
  split; [apply NoDup_add_listener, Nd |].
  split; [rewrite In_add_listener; intuition |].
  split; [rewrite In_add_listener, <- Hd; intuition discriminate |].
  split; [reflexivity |].
  intros _ Hdoc. rewrite Ho by (right; exact Hdoc). reflexivity.
Qed.

Lemma locked_closeOverlay (p : Page) :
  lightbox_shown p = true -> locked p -> locked (closeOverlay p).
Proof.
  intros S [Nd [Hk [Hd [Ho Hb]]]]. unfold closeOverlay.
  unfold locked, lightbox_shown, doc_shown in *.
  destruct (Lightbox.overlay (view p)) as [h |] eqn:E; [| discriminate].
  cbn [view doc keydown body_overflow initialBodyOverflow].
  unfold Lightbox.closeOverlay. rewrite E.
  cbn [Lightbox.overlay Lightbox.set_overlay Lightbox.set_gesture].
  split; [apply NoDup_remove_listener, Nd |].
  split; [rewrite In_remove_listener; intuition discriminate |].
  split; [rewrite In_remove_listener, <- Hd; intuition discriminate |].
  split; [| intros H; discriminate].
  intros [H | H]; [discriminate |].
  rewrite (Hb S H). reflexivity.
Qed.

Section AnyLabel2.

Variable previewLabel : string.

Lemma locked_openDocOverlay (trigger : Element) (p : Page) :
  locked p -> locked (openDocOverlay previewLabel trigger p).
Proof.
  intros L. unfold openDocOverlay.
  destruct (Preview.data_src (dataset trigger)) as [src |] eqn:Es; [| exact L].
  destruct (truthy src) eqn:T; [| exact L].
  destruct L as [Nd [Hk [Hd [Ho Hb]]]].
  unfold locked, lightbox_shown, doc_shown in *.
  cbn [view doc keydown body_overflow initialBodyOverflow].
  unfold Preview.openDocOverlay. rewrite Es, T. cbn [Preview.docOverlay].
  split; [apply NoDup_add_listener, Nd |].
  split; [rewrite In_add_listener, <- Hk; intuition discriminate |].
  split; [rewrite In_add_listener; intuition |].
  split; [reflexivity |].
  intros Hl _. rewrite Ho by (left; exact Hl). reflexivity.
Qed.

Lemma locked_closeDocOverlay (p : Page) :
  doc_shown p = true -> locked p -> locked (closeDocOverlay p).
Proof.
  intros S [Nd [Hk [Hd [Ho Hb]]]]. unfold closeDocOverlay.
  unfold locked, lightbox_shown, doc_shown in *.
  destruct (Preview.docOverlay (doc p)) as [h |] eqn:E; [| discriminate].
  cbn [view doc keydown body_overflow initialBodyOverflow].
  unfold Preview.closeDocOverlay. rewrite E. cbn [Preview.docOverlay].
  split; [apply NoDup_remove_listener, Nd |].
  split; [rewrite In_remove_listener, <- Hk; intuition discriminate |].
  split; [rewrite In_remove_listener; intuition discriminate |].
  split; [| intros _ H; discriminate].
  intros [H | H]; [| discriminate].
  rewrite (Hb H S). reflexivity.
Qed.

Lemma overlay_kept_by_keys (k : Lightbox.Key) (v : Lightbox.View) :
  k <> Lightbox.Escape ->
  Lightbox.overlay (Lightbox.onKeyDown k v) = Lightbox.overlay v.
Proof.
  intros Hk. unfold Lightbox.onKeyDown.
  destruct (Lightbox.overlay v) as [[|] |] eqn:E; try exact E.
  destruct k; try contradiction; try exact E;
    unfold Lightbox.stepZoom, Lightbox.setScale, Lightbox.resetTransform;
    try destruct (negb false && _); exact E.
Qed.

Lemma overlay_kept_by_actions (a : Lightbox.Action) (v : Lightbox.View) :
  a <> Lightbox.close ->
  Lightbox.overlay (Lightbox.onOverlayClick a v) = Lightbox.overlay v.
Proof.
  intros Ha. destruct a; try contradiction; cbn [Lightbox.onOverlayClick];
    try reflexivity;
    unfold Lightbox.stepZoom, Lightbox.setScale, Lightbox.resetTransform;
    try destruct (negb false && _); reflexivity.
Qed.

Lemma locked_with_view (v : Lightbox.View) (p : Page) :
  Lightbox.overlay v = Lightbox.overlay (view p) ->
  locked p -> locked (with_view v p).
Proof.
  intros E. unfold locked, lightbox_shown, doc_shown, with_view.
  cbn [view doc keydown body_overflow initialBodyOverflow]. rewrite E. trivial.
Qed.

Lemma locked_onKeyDown (k : Lightbox.Key) (p : Page) :
  locked p -> locked (onKeyDown k p).
Proof.
  intros L. unfold onKeyDown. destruct (lightbox_shown p) eqn:S; [| exact L].
  destruct k; try (apply locked_with_view; [apply overlay_kept_by_keys; discriminate | exact L]).
  apply locked_closeOverlay; assumption.
Qed.

Lemma locked_onDocKeyDown (k : Lightbox.Key) (p : Page) :
  locked p -> locked (onDocKeyDown k p).
Proof.
  intros L. unfold onDocKeyDown. destruct (doc_shown p) eqn:S; [| exact L].
  destruct k; try exact L. apply locked_closeDocOverlay; assumption.
Qed.

Lemma locked_dispatch (k : Lightbox.Key) (p : Page) :
  locked p -> locked (dispatch_keydown k p).
Proof.
  unfold dispatch_keydown. generalize (keydown p) as ls. intros ls. revert p.
  induction ls as [| l ls IH]; intros p L; cbn [fold_left]; [exact L |].
  apply IH. unfold run_listener.
  destruct (existsb (listener_eqb l) (keydown p)); [| exact L].
  destruct l; [apply locked_onKeyDown | apply locked_onDocKeyDown]; exact L.
Qed.

Lemma locked_step (p : Page) (ev : Event) :
  locked p -> locked (step previewLabel p ev).
Proof.
  intros L. destruct ev as [t | t | a | a | k]; cbn [step].
  - apply locked_openOverlay, L.
  - destruct (Preview.is_external (dataset t)); [exact L |].
    apply locked_openDocOverlay, L.
  - destruct (lightbox_shown p) eqn:S; [| exact L].
    destruct a; cbn [onOverlayClick];
      try (apply locked_with_view; [apply overlay_kept_by_actions; discriminate | exact L]).
    apply locked_closeOverlay; assumption.
  - destruct (doc_shown p) eqn:S; [| exact L].
    destruct a; cbn [onDocOverlayClick]; try exact L.
    apply locked_closeDocOverlay; assumption.
  - apply locked_dispatch, L.
Qed.

Lemma locked_initial (overflow : string) (focus : Focus) :
  locked (initial overflow focus).
Proof.
  unfold locked, lightbox_shown, doc_shown. cbn.
  split; [constructor |]. repeat split; intros H;
    try contradiction; try discriminate; destruct H; discriminate.
Qed.

(** X21.  Listeners and scroll lock follow the overlays.  After any
    sequence of clicks and keys, the [keydown] listener of the lightbox is
    on the document exactly while the lightbox is shown, the listener of
    the document modal exactly while the modal is shown, and no listener
    is there twice; the body's overflow is hidden whenever one of the two
    overlays is shown; and a key pressed while none is shown changes
    nothing. *)
Theorem listeners_and_scroll_lock_follow_the_overlays
    (evs : list Event) (overflow : string) (focus : Focus) :
  let p := run previewLabel evs (initial overflow focus) in
  NoDup (keydown p) /\
  (In onKeyDown_listener (keydown p) <-> lightbox_shown p = true) /\
  (In onDocKeyDown_listener (keydown p) <-> doc_shown p = true) /\
  (lightbox_shown p = true \/ doc_shown p = true -> body_overflow p = "hidden") /\
  (forall k, lightbox_shown p = false -> doc_shown p = false ->
     dispatch_keydown k p = p).
Proof.
  cbv zeta.
  assert (L : locked (run previewLabel evs (initial overflow focus))).
  { unfold run. generalize (locked_initial overflow focus).
    generalize (initial overflow focus) as p. induction evs as [| ev evs IH];
      intros p Lp; cbn [fold_left]; [exact Lp |].
    apply IH, locked_step, Lp. }
  destruct L as [Nd [Hk [Hd [Ho _]]]].
  split; [exact Nd |]. split; [exact Hk |]. split; [exact Hd |].
  split; [exact Ho |].
  intros k Sl Sd. unfold dispatch_keydown.
  assert (E : keydown (run previewLabel evs (initial overflow focus)) = []).
  { destruct (keydown (run previewLabel evs (initial overflow focus))) as [| x xs];
      [reflexivity |].
    exfalso. destruct (listener_cases x) as [-> | ->].
    - assert (T : lightbox_shown (run previewLabel evs (initial overflow focus)) = true)
        by (apply Hk; left; reflexivity). congruence.
    - assert (T : doc_shown (run previewLabel evs (initial overflow focus)) = true)
        by (apply Hd; left; reflexivity). congruence. }
  rewrite E. reflexivity.
Qed.

(** X22.  The two overlays share one saved overflow.  When the document
    modal is opened while the lightbox is shown, the overflow saved for
    the lightbox is overwritten by the lock itself: after both are closed,
    in either order, the body's overflow is still hidden, whatever it was
    before. *)
Theorem nested_overlays_leave_the_body_locked
    (p : Page) (image document : Element) (src1 src2 : string)
    (Himage : Preview.data_src (dataset image) = Some src1)
    (Hdocument : Preview.data_src (dataset document) = Some src2)
    (Hne1 : src1 <> "") (Hne2 : src2 <> "") :
  let both := openDocOverlay previewLabel document (openOverlay image p) in
  lightbox_shown both = true /\ doc_shown both = true /\
  body_overflow (closeOverlay (closeDocOverlay both)) = "hidden" /\
  body_overflow (closeDocOverlay (closeOverlay both)) = "hidden" /\
  lightbox_shown (closeOverlay (closeDocOverlay both)) = false /\
  doc_shown (closeOverlay (closeDocOverlay both)) = false.
Proof.
  cbv zeta. unfold openDocOverlay, openOverlay. rewrite Himage.
  destruct src1 as [| c1 s1]; [contradiction |]. cbn [truthy dataset].
  cbn [dataset]. rewrite Hdocument.
  destruct src2 as [| c2 s2]; [contradiction |]. cbn [truthy].
  unfold closeOverlay, closeDocOverlay, lightbox_shown, doc_shown.
  unfold Preview.openDocOverlay, Lightbox.openOverlay. rewrite Hdocument.
  cbn. repeat split.
Qed.

End AnyLabel2.

(** *** The overlays on a concrete page *)

Lemma lightbox_open_then_close_witness :
  body_overflow
    (closeOverlay (openOverlay image_trigger (initial "auto" focus_elsewhere)))
    = "auto" /\
  keydown
    (closeOverlay (openOverlay image_trigger (initial "auto" focus_elsewhere)))
    = [] /\
  focused
    (closeOverlay (openOverlay image_trigger (initial "auto" focus_elsewhere)))
    = focus_on image_trigger.
Proof.
  destruct (lightbox_open_then_close_gives_the_page_back
              (initial "auto" focus_elsewhere) image_trigger "/media/41.png"
              eq_refl) as [_ [_ [_ [Ho [Hk [Hf _]]]]]].
  - discriminate.
  - intros [].
  - split; [exact Ho |]. split; [exact Hk | exact Hf].
Defined.

Lemma doc_modal_open_then_close_witness :
  body_overflow
    (closeDocOverlay
       (openDocOverlay "Preview" pdf_trigger (initial "" focus_elsewhere)))
    = "" /\
  focused
    (closeDocOverlay
       (openDocOverlay "Preview" pdf_trigger (initial "" focus_elsewhere)))
    = focus_on pdf_trigger.
Proof.
  destruct (doc_modal_open_then_close_gives_the_page_back "Preview"
              (initial "" focus_elsewhere) pdf_trigger "/media/lease.pdf"
              eq_refl) as [_ [_ [_ [_ [Ho [_ [Hf _]]]]]]].
  - discriminate.
  - intros [].
  - split; [exact Ho | exact Hf].
Defined.

Lemma nested_overlays_leave_the_body_locked_witness :
  body_overflow
    (closeOverlay
       (closeDocOverlay
          (openDocOverlay "Preview" pdf_trigger
             (openOverlay image_trigger (initial "auto" focus_elsewhere)))))
  = "hidden".
Proof.
  destruct (nested_overlays_leave_the_body_locked "Preview"
              (initial "auto" focus_elsewhere) image_trigger pdf_trigger
              "/media/41.png" "/media/lease.pdf" eq_refl eq_refl)
    as [_ [_ [H _]]].
  - discriminate.
  - discriminate.
  - exact H.
Defined.

Example escape_closes_what_is_shown :
  let p := run "Preview"
             [ClickViewer image_trigger; KeyDown Lightbox.Plus;
              KeyDown Lightbox.Escape]
             (initial "" focus_elsewhere) in
  lightbox_shown p = false /\ keydown p = [] /\ body_overflow p = "" /\
  focused p = focus_on image_trigger.
Proof. vm_compute. repeat split. Qed.

End ShellSpec.
